(** * raster_tools.focal: a shallow embedding and its verification

    The development follows [raster_tools/focal.py]: the reducer
    library ([_agg_nan_*]), the tile kernels ([_focal_chunk],
    [_correlate2d_chunk]), the footprint builder ([get_focal_window])
    and the raster-level entry points ([focal], [correlate],
    [convolve]) together with [Raster.copy] of [raster_tools/raster.py].

    Modelling conventions.
    - A float64 payload is [NaN] or a finite number; finite numbers are
      exact rationals ([Qc]), so rounding, infinities and signed zeros
      are outside the model.
    - Python ints are [Z]; sizes and indices that the code keeps
      non-negative are [nat].
    - A 2-D numpy array is a list of rows. *)

From Stdlib Require Import ZArith QArith Qcanon Qround Lia Lqa.
From Stdlib Require PrimFloat Uint63.
From stdpp Require Import base decidable option list gmap strings numbers sorting.

Local Open Scope Z_scope.

(** ** Float payloads *)

Inductive f64 : Type :=
  | NaN
  | Fin (q : Qc).

Definition isnan (v : f64) : bool :=
  match v with NaN => true | Fin _ => false end.

Definition f64_to_option (v : f64) : option Qc :=
  match v with NaN => None | Fin q => Some q end.

Definition f64_of_option (o : option Qc) : f64 :=
  match o with None => NaN | Some q => Fin q end.

Global Instance f64_eq_dec : EqDecision f64.
Proof. solve_decision. Defined.

Global Instance f64_countable : Countable f64.
Proof.
  apply (inj_countable' f64_to_option f64_of_option).
  by intros [].
Defined.

Global Instance f64_inhabited : Inhabited f64 := populate NaN.

Definition f64_of_Z (n : Z) : f64 := Fin (Qc_of_Z n).

(** IEEE arithmetic restricted to the values of the model: NaN is
    absorbing, and a division by zero is an invalid operation.  The only
    division by zero the reducers can perform is 0/0 (an empty sum over an
    empty count). *)
Definition fadd (a b : f64) : f64 :=
  match a, b with Fin p, Fin q => Fin (p + q)%Qc | _, _ => NaN end.

Definition fmul (a b : f64) : f64 :=
  match a, b with Fin p, Fin q => Fin (p * q)%Qc | _, _ => NaN end.

Definition fdiv (a b : f64) : f64 :=
  match a, b with
  | Fin p, Fin q => if decide (q = 0%Qc) then NaN else Fin (p / q)%Qc
  | _, _ => NaN
  end.

(** The order numpy sorts by: numbers ascending, NaN last. *)
Definition f64_le (a b : f64) : Prop :=
  match a, b with
  | _, NaN => True
  | NaN, Fin _ => False
  | Fin p, Fin q => (p ≤ q)%Qc
  end.

Global Instance f64_le_dec : RelDecision f64_le.
Proof. intros [|p] [|q]; simpl; apply _. Defined.

(** ** The foreign interface

    Functions of numpy, dask_image and of modules of the package that
    are used by [focal.py] but whose result no statement below depends
    on.  They are taken as parameters. *)
Inductive dtype : Type :=
  | Bool
  | I8 | I16 | I32 | I64
  | U8 | U16 | U32 | U64
  | F16 | F32 | F64.

Global Instance dtype_eq_dec : EqDecision dtype.
Proof. solve_decision. Defined.

(** The [boundary] argument of dask's [map_overlap]: the name of an edge
    policy, or a constant fill value. *)
Inductive boundary : Type :=
  | BName (s : string)
  | BConstant (v : f64).

(** A 2-D array with its dtype (one band of a raster), and a 3-D array
    of shape [(band, y, x)].  A boolean array holds 1 and 0. *)
Record arr2 : Type := Arr2 {
  a2_dtype : dtype;
  a2_data : list (list f64);
}.

Record darray : Type := DArray {
  da_dtype : dtype;
  da_bands : list (list (list f64));
}.

(** Python exceptions raised by the code. *)
Inductive exn : Type :=
  | TypeError (msg : string)
  | ValueError (msg : string)
  | IndexError (msg : string).

Inductive result (A : Type) : Type :=
  | Ok (a : A)
  | Err (e : exn).
Global Arguments Ok {A} a.
Global Arguments Err {A} e.

Global Instance result_ret : MRet result := λ A a, Ok a.
Global Instance result_bind : MBind result := λ A B f m,
  match m with Ok a => f a | Err e => Err e end.

(** What a raster file holds, as [Raster(path)] reads it: the data
    array's dtype and bands, the mask's bands, and the null value. *)
Record raster_file : Type := RasterFile {
  rf_data : darray;
  rf_mask : darray;
  rf_null_value : option f64;
}.

Class Foreign : Type := {
  (** [np.sqrt] and [np.log] on a finite float *)
  np_sqrt : Qc → Qc;
  np_log : Qc → Qc;
  (** [_types.promote_dtype_to_float] and [_types.promote_data_dtype] *)
  promote_dtype_to_float : dtype → dtype;
  promote_data_dtype : arr2 → arr2;
  (** the C cast behind [ndarray.astype], from one dtype to another *)
  astype_val : dtype → dtype → f64 → f64;
  (** dask's halo: the tile extended by [rpad] rows and [cpad] columns on
      every side, filled by the edge policy *)
  da_overlap : boundary → nat → nat → list (list f64) → list (list f64);
  (** [dask_image.ndfilters]: [minimum_filter] and [maximum_filter] with
      a footprint and an edge mode, [correlate] with a kernel, an edge mode,
      a fill value and an origin per axis *)
  ndfilters_minimum_filter :
    list (list f64) → list (list bool) → string → list (list f64);
  ndfilters_maximum_filter :
    list (list f64) → list (list bool) → string → list (list f64);
  ndfilters_correlate :
    list (list f64) → list (list f64) → string → f64 → list Z →
    list (list f64);
  (** [Raster(path)]: opening a raster file *)
  open_raster : string → result raster_file;
}.

(** ** numpy reductions

    [np.nanmin], [np.nansum], ... as numpy documents them: the NaN entries
    are dropped and the reduction runs over what is left. *)

Definition nonnan (x : list f64) : list Qc := omap f64_to_option x.

Definition Qc_sum (l : list Qc) : Qc := foldr Qcplus 0%Qc l.

Definition Qc_min (a b : Qc) : Qc := if decide (a ≤ b)%Qc then a else b.
Definition Qc_max (a b : Qc) : Qc := if decide (a ≤ b)%Qc then b else a.

Definition Qc_len (l : list Qc) : Qc := Qc_of_Z (Z.of_nat (length l)).

(** All-NaN input: NaN (numpy warns "All-NaN slice encountered"). *)
Definition np_nanmin (x : list f64) : f64 :=
  match nonnan x with
  | [] => NaN
  | q :: qs => Fin (foldl Qc_min q qs)
  end.

Definition np_nanmax (x : list f64) : f64 :=
  match nonnan x with
  | [] => NaN
  | q :: qs => Fin (foldl Qc_max q qs)
  end.

(** NaNs are treated as zero: the sum of an all-NaN input is 0. *)
Definition np_nansum (x : list f64) : f64 := Fin (Qc_sum (nonnan x)).

(** Sum over count; an all-NaN input divides 0 by 0. *)
Definition np_nanmean (x : list f64) : f64 :=
  fdiv (Fin (Qc_sum (nonnan x))) (Fin (Qc_len (nonnan x))).

(** Population variance (ddof = 0) of the non-NaN entries. *)
Definition np_nanvar (x : list f64) : f64 :=
  match np_nanmean x with
  | NaN => NaN
  | Fin m =>
      fdiv (Fin (Qc_sum ((λ v, (v - m) * (v - m))%Qc <$> nonnan x)))
           (Fin (Qc_len (nonnan x)))
  end.

Definition np_nanstd `{!Foreign} (x : list f64) : f64 :=
  match np_nanvar x with NaN => NaN | Fin v => Fin (np_sqrt v) end.

(** Middle of the sorted non-NaN entries, the mean of the two middle ones
    for an even count; NaN for an all-NaN input. *)
Definition np_nanmedian (x : list f64) : f64 :=
  let s := merge_sort Qcle (nonnan x) in
  let n := length s in
  if decide (n = 0%nat) then NaN
  else if Nat.even n
       then fdiv (fadd (f64_of_option (s !! (n / 2 - 1)%nat))
                       (f64_of_option (s !! (n / 2)%nat)))
                 (Fin 2%Qc)
       else f64_of_option (s !! (n / 2)%nat).

(** [np.argmax]: the index of the first occurrence of the maximum. *)
Fixpoint argmax_from (best_i : nat) (best : Z) (i : nat) (l : list Z) : nat :=
  match l with
  | [] => best_i
  | y :: l' =>
      if best <? y then argmax_from i y (S i) l'
      else argmax_from best_i best (S i) l'
  end.

Definition np_argmax (l : list Z) : nat :=
  match l with
  | [] => 0%nat
  | y :: l' => argmax_from 0 y 1 l'
  end.

(** ** The reducer library *)

Definition _agg_nan_min (x : list f64) : f64 := np_nanmin x.
Definition _agg_nan_max (x : list f64) : f64 := np_nanmax x.
Definition _agg_nan_mean (x : list f64) : f64 := np_nanmean x.
Definition _agg_nan_median (x : list f64) : f64 := np_nanmedian x.
Definition _agg_nan_sum (x : list f64) : f64 := np_nansum x.
Definition _agg_nan_var (x : list f64) : f64 := np_nanvar x.
Definition _agg_nan_std `{!Foreign} (x : list f64) : f64 := np_nanstd x.

(** [_agg_nan_unique]: a set of the non-NaN values; its size, or NaN when
    it is empty. *)
Definition unique_step (s : gset f64) (v : f64) : gset f64 :=
  if isnan v then s else {[v]} ∪ s.

Definition _agg_nan_unique (x : list f64) : f64 :=
  let s := foldl unique_step ∅ x in
  if decide (size s ≠ 0%nat) then f64_of_Z (Z.of_nat (size s)) else NaN.

(** The frequency table shared by [_agg_nan_mode], [_agg_nan_entropy] and
    [_agg_nan_asm]: [if v in c: c[v] += one else: c[v] = one]. *)
Definition count_up (c : gmap f64 Z) (v : f64) : gmap f64 Z :=
  match c !! v with
  | Some n => <[v := n + 1]> c
  | None => <[v := 1]> c
  end.

(** [c[v]] for a key the table holds (a missing key, which the loops
    never ask for, reads as 0). *)
Definition dict_get (c : gmap f64 Z) (v : f64) : Z := default 0 (c !! v).

(** [_agg_nan_mode].  The loop counts the non-NaN values in [c] and
    compacts them to the front of [x] in place; [j] is the write index. *)
Record mode_state : Type := MoSt {
  mo_c : gmap f64 Z;
  mo_x : list f64;
  mo_j : nat;
}.

Definition mode_step (st : mode_state) (i : nat) : mode_state :=
  let v := st.(mo_x) !!! i in
  if isnan v then st
  else MoSt (count_up st.(mo_c) v) (<[st.(mo_j) := v]> st.(mo_x)) (S st.(mo_j)).

Definition mode_scan (x : list f64) : mode_state :=
  foldl mode_step (MoSt ∅ x 0) (seq 0 (length x)).

(** [cnts] is a [uint16] array: storing a count keeps its low 16 bits.
    The annotations [one: nb.types.uint16] and [j: nb.types.uint16] are
    on local variables, which numba's type inference does not read: [one],
    [j] and the counts of the table are machine integers, far from their
    bounds on any array that fits in memory, and [Z] here. *)
Definition to_uint16 (n : Z) : Z := n mod 65536.

Definition _agg_nan_mode (x : list f64) : f64 :=
  let st := mode_scan x in
  let vals := take st.(mo_j) st.(mo_x) in
  if decide (length vals = 0%nat) then NaN
  else
    let vals := merge_sort f64_le vals in
    let cnts := (λ v, to_uint16 (dict_get st.(mo_c) v)) <$> vals in
    vals !!! np_argmax cnts.

(** Counting loop of [_agg_nan_entropy] and [_agg_nan_asm]: the table and
    the number [n] of non-NaN values. *)
Definition freq_step (st : gmap f64 Z * Z) (v : f64) : gmap f64 Z * Z :=
  if isnan v then st else (count_up st.1 v, st.2 + 1).

Definition freq_scan (x : list f64) : gmap f64 Z * Z :=
  foldl freq_step (∅, 0) x.

Definition dict_values (c : gmap f64 Z) : list Z := (map_to_list c).*2.

Definition _agg_nan_entropy `{!Foreign} (x : list f64) : f64 :=
  let '(c, n) := freq_scan x in
  if decide (size c = 0%nat) then NaN
  else
    let frac := (1 / Qc_of_Z n)%Qc in
    Fin (foldl (λ entr cnt,
                  let p := (Qc_of_Z cnt * frac)%Qc in
                  (entr - p * np_log p)%Qc)
               0%Qc (dict_values c)).

Definition _agg_nan_asm (x : list f64) : f64 :=
  let '(c, n) := freq_scan x in
  if decide (size c = 0%nat) then NaN
  else
    let frac := (1 / Qc_of_Z n)%Qc in
    Fin (foldl (λ asm cnt,
                  let p := (Qc_of_Z cnt * frac)%Qc in
                  (asm + p * p)%Qc)
               0%Qc (dict_values c)).

(** ** 2-D arrays *)

Abbreviation grid A := (list (list A)).

(** [a.shape] of a 2-D array. *)
Definition nrows {A} (g : grid A) : nat := length g.
Definition ncols {A} (g : grid A) : nat :=
  match g with [] => 0%nat | row :: _ => length row end.

(** The array is rectangular, of shape [(rows, cols)]. *)
Definition has_shape {A} (g : grid A) (rows cols : nat) : Prop :=
  length g = rows ∧ Forall (λ row, length row = cols) g.

Definition lookup2 {A} (g : grid A) (r c : nat) : option A :=
  g !! r ≫= (.!! c).

(** [a[r, c] = v] *)
Definition set2 {A} (g : grid A) (r c : nat) (v : A) : grid A :=
  alter (<[c := v]>) r g.

(** [np.zeros], [np.ones] and the like: a constant array. *)
Definition np_full {A} (rows cols : nat) (v : A) : grid A :=
  replicate rows (replicate cols v).

(** [range(a, b)] over non-negative ints. *)
Definition range (a b : nat) : list nat := seq a (b - a).

(** [a.ravel()] of a C-contiguous array. *)
Definition ravel {A} (g : grid A) : list A := concat g.

(** ** Halo planning *)

Definition _get_offsets (kernel_shape : nat * nat) : (nat * nat) * (nat * nat) :=
  let '(krows, kcols) := kernel_shape in
  let kr_top := ((krows - 1) / 2)%nat in
  let kr_bot := (krows / 2)%nat in
  let kc_left := ((kcols - 1) / 2)%nat in
  let kc_right := (kcols / 2)%nat in
  ((kr_top, kr_bot), (kc_left, kc_right)).

(** ** Tile kernels

    A chunk is a float tile with its halo.  [np.empty_like] allocates the
    output without writing it: a cell of the output is [None] until the
    kernel assigns it.  A read of the chunk outside its bounds (which the
    loops never perform on a tile with its halo) yields NaN. *)

Definition chunk_at (chunk : grid f64) (kr kc : nat) : f64 :=
  default NaN (lookup2 chunk kr kc).

Definition np_empty_like (chunk : grid f64) : grid (option f64) :=
  np_full (nrows chunk) (ncols chunk) None.

(** The innermost statement of [_focal_chunk]:
    [if kernel[ki]: kernel_values[ki] = chunk[kr, kc]] and [ki += 1]. *)
Definition gather_cell (chunk : grid f64) (kernel : list bool) (kr : nat)
    (st : list f64 * nat) (kc : nat) : list f64 * nat :=
  let '(kernel_values, ki) := st in
  (if default false (kernel !! ki)
   then <[ki := chunk_at chunk kr kc]> kernel_values
   else kernel_values,
   S ki).

(** The footprint loop of [_focal_chunk] at the cell [(r, c)], from
    [kernel_values.fill(np.nan)] on. *)
Definition gather (chunk : grid f64) (kernel : list bool) (size : nat)
    (kr_top kr_bot kc_left kc_right r c : nat) : list f64 :=
  let kernel_values := replicate size NaN in
  (foldl (λ st kr,
            foldl (gather_cell chunk kernel kr) st
                  (range (c - kc_left) (c + kc_right + 1)))
         (kernel_values, 0%nat)
         (range (r - kr_top) (r + kr_bot + 1))).1.

Definition _focal_chunk (chunk : grid f64) (kernel : grid bool)
    (func : list f64 → f64) : grid (option f64) :=
  let out := np_empty_like chunk in
  let rows := nrows chunk in
  let cols := ncols chunk in
  let krows := nrows kernel in
  let kcols := ncols kernel in
  let kr_top := ((krows - 1) / 2)%nat in
  let kr_bot := (krows / 2)%nat in
  let kc_left := ((kcols - 1) / 2)%nat in
  let kc_right := (kcols / 2)%nat in
  let r_ovlp := (kr_top `max` kr_bot)%nat in
  let c_ovlp := (kc_left `max` kc_right)%nat in
  let size := (krows * kcols)%nat in
  let kernel := ravel kernel in
  foldl (λ out r,
           foldl (λ out c,
                    set2 out r c
                      (Some (func (gather chunk kernel size
                                     kr_top kr_bot kc_left kc_right r c))))
                 out (range c_ovlp (cols - c_ovlp)))
        out (range r_ovlp (rows - r_ovlp)).

(** The innermost statement of [_correlate2d_chunk]:
    [val = chunk[kr, kc]], [if not np.isnan(val): v += kernel[ki] * chunk[kr, kc]]
    and [ki += 1]. *)
Definition corr_cell (chunk : grid f64) (kernel : list f64) (kr : nat)
    (st : f64 * nat) (kc : nat) : f64 * nat :=
  let '(v, ki) := st in
  let val := chunk_at chunk kr kc in
  (if isnan val then v
   else fadd v (fmul (default NaN (kernel !! ki)) (chunk_at chunk kr kc)),
   S ki).

(** The footprint loop of [_correlate2d_chunk] at the cell [(r, c)], from
    [v = 0.0] on. *)
Definition corr_at (chunk : grid f64) (kernel : list f64)
    (kr_top kr_bot kc_left kc_right r c : nat) : f64 :=
  (foldl (λ st kr,
            foldl (corr_cell chunk kernel kr) st
                  (range (c - kc_left) (c + kc_right + 1)))
         (Fin 0%Qc, 0%nat)
         (range (r - kr_top) (r + kr_bot + 1))).1.

Definition _correlate2d_chunk (chunk : grid f64) (kernel : grid f64)
    : grid (option f64) :=
  let out := np_empty_like chunk in
  let rows := nrows chunk in
  let cols := ncols chunk in
  let krows := nrows kernel in
  let kcols := ncols kernel in
  let kr_top := ((krows - 1) / 2)%nat in
  let kr_bot := (krows / 2)%nat in
  let kc_left := ((kcols - 1) / 2)%nat in
  let kc_right := (kcols / 2)%nat in
  let r_ovlp := (kr_top `max` kr_bot)%nat in
  let c_ovlp := (kc_left `max` kc_right)%nat in
  let kernel := ravel kernel in
  foldl (λ out r,
           foldl (λ out c,
                    set2 out r c
                      (Some (corr_at chunk kernel
                               kr_top kr_bot kc_left kc_right r c)))
                 out (range c_ovlp (cols - c_ovlp)))
        out (range r_ovlp (rows - r_ovlp)).

(** What [map_overlap] does to the array a chunk function returns: it
    strips [rpad] rows and [cpad] columns from every side
    ([x[rpad:rows - rpad, cpad:cols - cpad]]). *)
Definition trim {A} (rpad cpad : nat) (x : grid A) : grid A :=
  (λ row, take (length row - 2 * cpad) (drop cpad row))
    <$> take (length x - 2 * rpad) (drop rpad x).

(** A cell that no chunk function wrote reads as NaN once the output is
    used as float data. *)
Definition written (x : grid (option f64)) : grid f64 :=
  (λ row : list (option f64), default NaN <$> row) <$> x.

(** ** The footprint builder

    The Python values [get_focal_window] can be handed: ints, floats,
    strings and [None]. *)
Inductive pyval : Type :=
  | PInt (n : Z)
  | PFloat (q : Qc)
  | PStr (s : string)
  | PNone.

Global Instance pyval_inhabited : Inhabited pyval := populate PNone.

(** [width_or_radius]: a single value, or a list or tuple of values. *)
Inductive py_arg : Type :=
  | Scalar (v : pyval)
  | Sequence (l : list pyval).

(** Modelled from the spec: [_utils.is_int] is not part of the sources at
    hand; the spec's "non-integer values are rejected" is read as: the
    value is a Python int. *)
Definition is_int (v : pyval) : bool :=
  match v with PInt _ => true | _ => false end.

(** [a >= b]: numbers compare by value, strings lexicographically, and
    any other pair is a TypeError. *)
Definition py_ge (a b : pyval) : result bool :=
  match a, b with
  | PInt m, PInt n => Ok (n <=? m)
  | PInt m, PFloat q => Ok (bool_decide (q ≤ Qc_of_Z m)%Qc)
  | PFloat p, PInt n => Ok (bool_decide (Qc_of_Z n ≤ p)%Qc)
  | PFloat p, PFloat q => Ok (bool_decide (q ≤ p)%Qc)
  | PStr s, PStr t => Ok (String.leb t s)
  | _, _ => Err (TypeError "'>=' not supported between these instances")
  end.

(** [value <= 0] on a value that passed [is_int]. *)
Definition py_le_0 (v : pyval) : bool :=
  match v with PInt n => n <=? 0 | _ => false end.

Definition py_int (v : pyval) : Z :=
  match v with PInt n => n | _ => 0 end.

(** The loop [for value in width_or_radius] of the validation. *)
Fixpoint check_values (width_or_radius : list pyval) : result unit :=
  match width_or_radius with
  | [] => Ok ()
  | value :: rest =>
      if negb (is_int value)
      then Err (TypeError "width_or_radius values must be integers")
      else if py_le_0 value
      then Err (ValueError "Window width or radius values must be greater than 0.")
      else check_values rest
  end.

(** [np.sqrt(d) <= r] for ints [d >= 0] and [r >= 0], in exact
    arithmetic.  The float64 evaluation gives the same answer as long as
    [r < 2^26]: then [d] and [r] are represented exactly and the correctly
    rounded root of [d >= r*r + 1] lies above [r]. *)
Definition np_sqrt_le (d r : Z) : bool := d <=? r * r.

(** The same test the way numpy evaluates it, on binary64 floats: the
    ints are converted, the root is rounded, the comparison is the IEEE
    one.  It is used to cross-check [np_sqrt_le] on small radii. *)
Definition float64_of_Z (n : Z) : PrimFloat.float :=
  PrimFloat.of_uint63 (Uint63.of_Z n).

Definition np_sqrt_le_float64 (d r : Z) : bool :=
  PrimFloat.leb (PrimFloat.sqrt (float64_of_Z d)) (float64_of_Z r).

(** One pass of the loop [for rvalue in width_or_radius]: the circle
    window of [rvalue]. *)
Definition circle_window (rvalue : Z) : grid bool :=
  let width := (rvalue - 1) * 2 + 1 in
  let height := width in
  let r := (width - 1) `div` 2 in
  let window := np_full (Z.to_nat height) (Z.to_nat width) false in
  foldl (λ window x,
           foldl (λ window y,
                    if np_sqrt_le ((Z.of_nat x - r) ^ 2 + (Z.of_nat y - r) ^ 2) r
                    then set2 window x y true
                    else window)
                 window (range 0 (Z.to_nat height)))
        window (range 0 (Z.to_nat width)).

(** [np.pad(a, (before, after), mode="constant", constant_values=fill)]:
    a pair of widths is the padding before and after, on every axis. *)
Definition np_pad {A} (a : grid A) (before after : nat) (fill : A) : grid A :=
  let cols := (before + ncols a + after)%nat in
  replicate before (replicate cols fill)
    ++ ((λ row, replicate before fill ++ row ++ replicate after fill) <$> a)
    ++ replicate after (replicate cols fill).

(** [w2[w1] = False] *)
Definition clear_where (w2 w1 : grid bool) : grid bool :=
  zip_with (zip_with (λ b2 b1 : bool, if b1 then false else b2)) w2 w1.

Definition annulus_window (w1 w2 : grid bool) : grid bool :=
  let padding := (((nrows w2 - nrows w1) / 2)%nat, ((ncols w2 - ncols w1) / 2)%nat) in
  let w1 := np_pad w1 padding.1 padding.2 false in
  clear_where w2 w1.

Definition get_focal_window (width_or_radius : py_arg) (height : pyval)
    : result (grid bool) :=
  width_or_radius ←
    match width_or_radius with
    | Sequence l =>
        if bool_decide (length l ≠ 2%nat)
        then Err (ValueError "If width_or_radius is a sequence, it must be size 2")
        else
          ge ← py_ge (l !!! 0%nat) (l !!! 1%nat);
          if ge : bool
          then Err (ValueError "First radius value must be less than or equal to the second.")
          else Ok l
    | Scalar v => Ok [v]
    end;
  _ ← check_values width_or_radius;
  _ ← match height with
      | PNone => Ok ()
      | _ =>
          if bool_decide (length width_or_radius = 2%nat)
          then Err (ValueError "height must be None if width_or_radius indicates annulus")
          else if negb (is_int height)
          then Err (TypeError "height must be an integer or None")
          else if py_le_0 height
          then Err (ValueError "Window height must be greater than 0.")
          else Ok ()
      end;
  match height with
  | PNone =>
      let windows := (λ rvalue, circle_window (py_int rvalue)) <$> width_or_radius in
      match windows with
      | [w1; w2] => Ok (annulus_window w1 w2)
      | _ => Ok (windows !!! 0%nat)
      end
  | _ =>
      let width := py_int (width_or_radius !!! 0%nat) in
      Ok (np_full (Z.to_nat width) (Z.to_nat (py_int height)) true)
  end.

(** ** Tiled execution *)

(** [(operation, kernel, kernel_func)] as [_focal_dispatch] receives
    them: a weight kernel for ["correlate"], a footprint and a reducer
    otherwise. *)
Inductive chunk_op : Type :=
  | OpCorrelate (kernel : grid f64)
  | OpFocal (kernel : grid bool) (kernel_func : list f64 → f64).

Definition op_kernel_shape (op : chunk_op) : nat * nat :=
  match op with
  | OpCorrelate kernel => (nrows kernel, ncols kernel)
  | OpFocal kernel _ => (nrows kernel, ncols kernel)
  end.

(** [data.map_overlap(chunk_func, depth={0: rpad, 1: cpad}, boundary=...,
    dtype=data.dtype)] on one tile: the halo is attached, the chunk
    function runs, and the halo is stripped from what it returns. *)
Definition map_overlap `{!Foreign} (data : arr2)
    (chunk_func : grid f64 → grid (option f64))
    (rpad cpad : nat) (bnd : boundary) : arr2 :=
  Arr2 (a2_dtype data)
       (trim rpad cpad (written (chunk_func (da_overlap bnd rpad cpad (a2_data data))))).

Definition _focal_dask_map `{!Foreign} (data : arr2)
    (chunk_func : grid f64 → grid (option f64))
    (kernel_shape : nat * nat) (bnd : boundary) : arr2 :=
  let offsets := _get_offsets kernel_shape in
  let rpad := (offsets.1.1 `max` offsets.1.2)%nat in
  let cpad := (offsets.2.1 `max` offsets.2.2)%nat in
  map_overlap data chunk_func rpad cpad bnd.

Definition _focal_dispatch `{!Foreign} (op : chunk_op) (data : arr2)
    (bnd : boundary) : arr2 :=
  let chunk_func :=
    match op with
    | OpCorrelate kernel => λ chunk, _correlate2d_chunk chunk kernel
    | OpFocal kernel kernel_func => λ chunk, _focal_chunk chunk kernel kernel_func
    end in
  _focal_dask_map data chunk_func (op_kernel_shape op) bnd.

(** ** Kernels *)

(** What [np.asarray(kernel)] can be: an array of one, two or three
    dimensions. *)
Inductive ndvals : Type :=
  | Nd1 (v : list f64)
  | Nd2 (g : grid f64)
  | Nd3 (c : list (grid f64)).

Record ndarray : Type := NdArray {
  nd_dtype : dtype;
  nd_vals : ndvals;
}.

(** Modelled from the spec: [_utils.is_bool], [_utils.is_int] and
    [_utils.is_float] are not part of the sources at hand.  On a dtype
    they are read as the tests of its kind, which is how the spec speaks of
    "integer payloads" and "a floating dtype"; [is_int] on a value is
    [is_int] above. *)
Definition is_bool_dtype (d : dtype) : bool :=
  match d with Bool => true | _ => false end.
Definition is_int_dtype (d : dtype) : bool :=
  match d with
  | I8 | I16 | I32 | I64 | U8 | U16 | U32 | U64 => true
  | _ => false
  end.
Definition is_float_dtype (d : dtype) : bool :=
  match d with F16 | F32 | F64 => true | _ => false end.

(** [kernel] is an [ndarray] by its type (the entry points pass
    [np.asarray(kernel)] or a window), so the [isinstance] test passes. *)
Definition check_kernel (kernel : ndarray) : result unit :=
  match nd_vals kernel with
  | Nd2 g =>
      if existsb isnan (ravel g)
      then Err (ValueError "Kernel can't contain NaN values")
      else Ok ()
  | _ => Err (ValueError "Kernel must be 2D")
  end.

(** The weights of a kernel that passed [check_kernel]. *)
Definition kernel_grid (kernel : ndarray) : grid f64 :=
  match nd_vals kernel with Nd2 g => g | _ => [] end.

Definition truthy (v : f64) : bool := bool_decide (v ≠ Fin 0%Qc).
Definition f64_of_bool (b : bool) : f64 := if b then Fin 1%Qc else Fin 0%Qc.

(** A window as an array, and [kernel.astype(bool)]. *)
Definition ndarray_of_window (w : grid bool) : ndarray :=
  NdArray Bool (Nd2 ((λ row : list bool, f64_of_bool <$> row) <$> w)).

Definition astype_bool (kernel : ndarray) : grid bool :=
  (λ row : list f64, truthy <$> row) <$> kernel_grid kernel.

(** [a.astype(dtype)]: a cast to the dtype the array has already leaves
    the values as they are. *)
Definition cast_grid `{!Foreign} (from to : dtype) (g : grid f64) : grid f64 :=
  if decide (from = to) then g
  else (λ row : list f64, astype_val from to <$> row) <$> g.

Definition ndvals_astype `{!Foreign} (from to : dtype) (k : ndvals) : ndvals :=
  match k with
  | Nd1 v => Nd1 (if decide (from = to) then v else astype_val from to <$> v)
  | Nd2 g => Nd2 (cast_grid from to g)
  | Nd3 c => Nd3 (cast_grid from to <$> c)
  end.

Definition ndarray_astype `{!Foreign} (to : dtype) (kernel : ndarray) : ndarray :=
  NdArray to (ndvals_astype (nd_dtype kernel) to (nd_vals kernel)).

Definition darray_astype `{!Foreign} (to : dtype) (a : darray) : darray :=
  DArray to (cast_grid (da_dtype a) to <$> da_bands a).

(** [kernel[::-1, ::-1].copy()]: both leading axes reversed; an array of
    one dimension cannot be indexed twice. *)
Definition flip_kernel (kernel : ndarray) : result ndarray :=
  match nd_vals kernel with
  | Nd1 _ => Err (IndexError "too many indices for array")
  | Nd2 g =>
      Ok (NdArray (nd_dtype kernel)
            (Nd2 (reverse ((λ row : list f64, reverse row) <$> g))))
  | Nd3 c =>
      Ok (NdArray (nd_dtype kernel)
            (Nd3 (reverse ((λ plane : grid f64, reverse plane) <$> c))))
  end.

(** ** Focal statistics and correlation of one band

    [data] is one band, a 2-D dask array by its type: [_check_data] passes
    and [da.from_array] has nothing to convert. *)

Definition _MODE_TO_DASK_BOUNDARY : gmap string string :=
  {[ "reflect" := "reflect"; "nearest" := "nearest";
     "wrap" := "periodic"; "constant" := "constant" ]}.

Definition _VALID_CORRELATE_MODES : gset string := dom _MODE_TO_DASK_BOUNDARY.

Definition FOCAL_PROMOTING_OPS : gset string :=
  {[ "asm"; "entropy"; "mean"; "median"; "std"; "var" ]}.

Definition FOCAL_STATS : gset string :=
  {[ "asm"; "entropy"; "max"; "mean"; "median"; "mode"; "min"; "std";
     "sum"; "var"; "unique" ]}.

Definition _correlate `{!Foreign} (data : arr2) (kernel : ndarray)
    (mode : string) (cval : f64) (nan_aware : bool) : result arr2 :=
  _ ← check_kernel kernel;
  if bool_decide (mode ∉ _VALID_CORRELATE_MODES)
  then Err (ValueError "Invalid mode")
  else
    let data := if nan_aware then promote_data_dtype data else data in
    let kernel :=
      if is_bool_dtype (nd_dtype kernel) then ndarray_astype I64 kernel
      else kernel in
    let kernel :=
      if is_float_dtype (a2_dtype data) && is_int_dtype (nd_dtype kernel)
      then ndarray_astype (a2_dtype data) kernel
      else kernel in
    let data :=
      if is_int_dtype (a2_dtype data) && is_float_dtype (nd_dtype kernel)
      then promote_data_dtype data
      else data in
    if nan_aware then
      let bnd := default "" (_MODE_TO_DASK_BOUNDARY !! mode) in
      let bnd := if bool_decide (bnd = "constant") then BConstant cval
                 else BName bnd in
      Ok (_focal_dispatch (OpCorrelate (kernel_grid kernel)) data bnd)
    else
      (* Shift pixel origins to match ESRI behavior for even shaped kernels *)
      let shape := [nrows (kernel_grid kernel); ncols (kernel_grid kernel)] in
      let shift_origin := (λ d : nat, bool_decide (d `mod` 2 = 0)%nat) <$> shape in
      let origin := (λ shift : bool, if shift then -1 else 0) <$> shift_origin in
      Ok (Arr2 (a2_dtype data)
            (ndfilters_correlate (a2_data data) (kernel_grid kernel) mode cval origin)).

Definition _focal `{!Foreign} (data : arr2) (kernel : ndarray)
    (stat : string) (nan_aware : bool) : result arr2 :=
  if bool_decide (stat ∉ FOCAL_STATS)
  then Err (ValueError "Unknown focal stat")
  else
    _ ← check_kernel kernel;
    let data :=
      if nan_aware || bool_decide (stat ∈ FOCAL_PROMOTING_OPS)
      then promote_data_dtype data
      else data in
    let kernel := astype_bool kernel in
    let nan := BConstant NaN in
    if bool_decide (stat = "asm") then
      Ok (_focal_dispatch (OpFocal kernel _agg_nan_asm) data nan)
    else if bool_decide (stat = "entropy") then
      Ok (_focal_dispatch (OpFocal kernel _agg_nan_entropy) data nan)
    else if bool_decide (stat = "min") then
      if negb nan_aware
      then Ok (Arr2 (a2_dtype data)
                 (ndfilters_minimum_filter (a2_data data) kernel "nearest"))
      else Ok (_focal_dispatch (OpFocal kernel _agg_nan_min) data nan)
    else if bool_decide (stat = "max") then
      if negb nan_aware
      then Ok (Arr2 (a2_dtype data)
                 (ndfilters_maximum_filter (a2_data data) kernel "nearest"))
      else Ok (_focal_dispatch (OpFocal kernel _agg_nan_max) data nan)
    else if bool_decide (stat = "mode") then
      Ok (_focal_dispatch (OpFocal kernel _agg_nan_mode) data nan)
    else if bool_decide (stat = "mean") then
      Ok (_focal_dispatch (OpFocal kernel _agg_nan_mean) data nan)
    else if bool_decide (stat = "median") then
      Ok (_focal_dispatch (OpFocal kernel _agg_nan_median) data nan)
    else if bool_decide (stat = "std") then
      Ok (_focal_dispatch (OpFocal kernel _agg_nan_std) data nan)
    else if bool_decide (stat = "var") then
      Ok (_focal_dispatch (OpFocal kernel _agg_nan_var) data nan)
    else if bool_decide (stat = "sum") then
      if negb nan_aware
      then Ok (Arr2 (a2_dtype data)
                 (ndfilters_correlate (a2_data data)
                    ((λ row : list bool, f64_of_bool <$> row) <$> kernel)
                    "constant" (Fin 0%Qc) [0; 0]))
      else Ok (_focal_dispatch (OpFocal kernel _agg_nan_sum) data nan)
    else if bool_decide (stat = "unique") then
      Ok (_focal_dispatch (OpFocal kernel _agg_nan_unique) data nan)
    else
      (* no branch is left for a name of FOCAL_STATS *)
      Err (TypeError "NoneType is not an array").

(** ** Rasters and arrays as objects

    A dask array can be assigned to in place ([data[bnd] = ...]) and a
    raster's data can be replaced ([rs._rs.data = data]), so both live in
    a store of objects and are passed around by reference.  A raster
    refers to its data array, its mask array and holds its null value;
    [rs._rs] of [focal.py] is the raster's data variable. *)

Abbreviation loc := positive.

Inductive obj : Type :=
  | ODask (a : darray)
  | ORaster (data mask : loc) (null_value : option f64).

Abbreviation heap := (gmap loc obj).

(** A computation: it may raise, and it may change the store. *)
Definition St (A : Type) : Type := heap → result A * heap.

Global Instance St_ret : MRet St := λ A a h, (Ok a, h).
Global Instance St_bind : MBind St := λ A B f m h,
  match m h with
  | (Ok a, h') => f a h'
  | (Err e, h') => (Err e, h')
  end.

Definition raise {A} (e : exn) : St A := λ h, (Err e, h).
Definition lift {A} (r : result A) : St A := λ h, (r, h).

Definition fresh_loc (h : heap) : loc := fresh (dom h).

(** A new object. *)
Definition alloc (o : obj) : St loc := λ h,
  let l := fresh_loc h in (Ok l, <[l := o]> h).

Definition get_dask (l : loc) : St darray := λ h,
  match h !! l with
  | Some (ODask a) => (Ok a, h)
  | _ => (Err (TypeError "not a dask array"), h)
  end.

Definition get_raster (p : loc) : St (loc * loc * option f64) := λ h,
  match h !! p with
  | Some (ORaster data mask null_value) => (Ok (data, mask, null_value), h)
  | _ => (Err (TypeError "not a Raster"), h)
  end.

Definition put (l : loc) (o : obj) : St unit := λ h, (Ok (), <[l := o]> h).

(** [for i in l: body(i)] *)
Fixpoint for_each {A} (l : list A) (body : A → St unit) : St unit :=
  match l with
  | [] => mret ()
  | i :: l' => body i ;; for_each l' body
  end.

(** *** Raster attributes *)

(** [rs._rs.data] and [raster._mask]: references to the arrays. *)
Definition Raster_data (p : loc) : St loc :=
  '(data, _, _) ← get_raster p; mret data.

Definition Raster_mask (p : loc) : St loc :=
  '(_, mask, _) ← get_raster p; mret mask.

(** [raster._masked]: [self.null_value is not None] *)
Definition Raster_masked (p : loc) : St bool :=
  '(_, _, null_value) ← get_raster p; mret (bool_decide (is_Some null_value)).

Definition Raster_dtype (p : loc) : St dtype :=
  data ← Raster_data p; a ← get_dask data; mret (da_dtype a).

(** [rs._rs.data = data] *)
Definition Raster_set_data (p : loc) (data : loc) : St unit :=
  '(_, mask, null_value) ← get_raster p; put p (ORaster data mask null_value).

(** [Raster.copy]: [Raster(self)], whose dataset is
    [raster._ds.copy(deep=True)]: the copy has arrays of its own. *)
Definition Raster_copy (p : loc) : St loc :=
  '(data, mask, null_value) ← get_raster p;
  d ← get_dask data;
  m ← get_dask mask;
  data' ← alloc (ODask d);
  mask' ← alloc (ODask m);
  alloc (ORaster data' mask' null_value).

(** [Raster(path)] *)
Definition Raster_open `{!Foreign} (path : string) : St loc :=
  f ← lift (open_raster path);
  data ← alloc (ODask (rf_data f));
  mask ← alloc (ODask (rf_mask f));
  alloc (ORaster data mask (rf_null_value f)).

(** *** dask array operations *)

(** [data.astype(dtype)]: a new array. *)
Definition da_astype `{!Foreign} (data : loc) (to : dtype) : St loc :=
  a ← get_dask data; alloc (ODask (darray_astype to a)).

(** The dtype of [da.where(cond, data, np.nan)] (or with the branches
    swapped): a float dtype is kept, and data of any other dtype comes out
    as floats (float64 here; the entry points cast integer data to
    [promote_dtype_to_float] of its dtype before they get here). *)
Definition where_dtype (d : dtype) : dtype :=
  if is_float_dtype d then d else F64.

(** [da.where(~mask, data, np.nan)] and [da.where(mask, np.nan, data)]:
    a new array, NaN where the mask is set. *)
Definition nan_where (mask data : darray) : darray :=
  DArray (where_dtype (da_dtype data))
    (zip_with (zip_with (zip_with (λ v m : f64, if truthy m then NaN else v)))
       (da_bands data) (da_bands mask)).

Definition da_nan_where (mask data : loc) : St loc :=
  m ← get_dask mask; a ← get_dask data; alloc (ODask (nan_where m a)).

(** [data.shape[0]] *)
Definition da_shape0 (data : loc) : St nat :=
  a ← get_dask data; mret (length (da_bands a)).

(** [data[bnd]] *)
Definition da_getitem (data : loc) (bnd : nat) : St arr2 :=
  a ← get_dask data;
  match da_bands a !! bnd with
  | Some g => mret (Arr2 (da_dtype a) g)
  | None => raise (IndexError "index out of bounds")
  end.

(** [data[bnd] = value]: the array is changed in place and keeps its
    dtype (dask's [Array.__setitem__] rebuilds the array with
    [dtype=self.dtype]); the values are cast to it.  An index out of range
    does not occur: the loops run over [range(data.shape[0])]. *)
Definition da_setitem `{!Foreign} (data : loc) (bnd : nat) (value : arr2) : St unit :=
  a ← get_dask data;
  put data
    (ODask (DArray (da_dtype a)
              (<[bnd := cast_grid (a2_dtype value) (da_dtype a) (a2_data value)]>
                 (da_bands a)))).

(** ** The entry points

    [raster._masked] and [rs._masked] are properties computed from the
    raster's null value, which nothing below changes: they are read once,
    where the loop over the bands starts. *)

(** The [raster] argument: a Raster, a path string, or anything else. *)
Inductive raster_arg : Type :=
  | ARaster (p : loc)
  | APath (path : string)
  | AOther.

(** The type check the three entry points start with. *)
Definition as_raster `{!Foreign} (raster : raster_arg) : St loc :=
  match raster with
  | AOther =>
      raise (TypeError "First argument must be a Raster or path string to a raster")
  | APath path => Raster_open path
  | ARaster p => mret p
  end.

Definition focal `{!Foreign} (raster : raster_arg) (focal_type : string)
    (width_or_radius : py_arg) (height : pyval) : St loc :=
  raster ← as_raster raster;
  if bool_decide (focal_type ∉ FOCAL_STATS)
  then raise (ValueError "Unknown focal operation")
  else
    window ← lift (get_focal_window width_or_radius height);
    rs ← Raster_copy raster;
    data ← Raster_data rs;
    final_dtype ← (a ← get_dask data; mret (da_dtype a));
    (* Convert to float and fill nulls with nan, if needed *)
    masked ← Raster_masked raster;
    '(data, upcast) ←
      (if masked : bool then
         rdtype ← Raster_dtype raster;
         let new_dtype := promote_dtype_to_float rdtype in
         let upcast := bool_decide (new_dtype ≠ final_dtype) in
         data ← (if upcast then da_astype data new_dtype else mret data);
         mask ← Raster_mask raster;
         data ← da_nan_where mask data;
         mret (data, upcast)
       else mret (data, false));
    nb ← da_shape0 data;
    for_each (range 0 nb) (λ bnd,
      band ← da_getitem data bnd;
      res ← lift (_focal band (ndarray_of_window window) focal_type masked);
      da_setitem data bnd res);;
    (* Cast back to int, if needed *)
    data ← (if upcast && bool_decide (focal_type ∉ FOCAL_PROMOTING_OPS)
            then da_astype data final_dtype
            else mret data);
    Raster_set_data rs data;;
    mret rs.

Definition correlate `{!Foreign} (raster : raster_arg) (kernel : ndarray)
    (mode : string) (cval : f64) : St loc :=
  raster ← as_raster raster;
  lift (check_kernel kernel);;
  rs ← Raster_copy raster;
  rs_dtype ← Raster_dtype rs;
  (if is_float_dtype (nd_dtype kernel) && is_int_dtype rs_dtype
   then (data ← Raster_data rs;
         data ← da_astype data F64;
         Raster_set_data rs data)
   else mret ());;
  data ← Raster_data rs;
  final_dtype ← (a ← get_dask data; mret (da_dtype a));
  (* Convert to float and fill nulls with nan, if needed *)
  masked ← Raster_masked raster;
  '(data, upcast) ←
    (if masked : bool then
       let new_dtype := promote_dtype_to_float final_dtype in
       let upcast := bool_decide (new_dtype ≠ final_dtype) in
       data ← (if upcast then da_astype data new_dtype else mret data);
       mask ← Raster_mask raster;
       data ← da_nan_where mask data;
       mret (data, upcast)
     else mret (data, false));
  rs_masked ← Raster_masked rs;
  nb ← da_shape0 data;
  for_each (range 0 nb) (λ bnd,
    band ← da_getitem data bnd;
    res ← lift (_correlate band kernel mode cval rs_masked);
    da_setitem data bnd res);;
  (* Cast back to int, if needed *)
  data ← (if upcast : bool then da_astype data final_dtype else mret data);
  Raster_set_data rs data;;
  mret rs.

Definition convolve `{!Foreign} (raster : raster_arg) (kernel : ndarray)
    (mode : string) (cval : f64) : St loc :=
  lift (check_kernel kernel);;
  kernel ← lift (flip_kernel kernel);
  correlate raster kernel mode cval.

(** ** Specification vocabulary *)

(** The null-filtered sample of a neighborhood. *)
Definition sample (x : list f64) : list f64 :=
  filter (λ v, isnan v = false) x.

(** Number of occurrences of [v] in [s]. *)
Definition occ (v : f64) (s : list f64) : Z :=
  Z.of_nat (length (filter (v =.) s)).

(** [m] is the mode of [s] with ties broken towards the smallest value. *)
Definition is_mode (s : list f64) (m : f64) : Prop :=
  m ∈ s
  ∧ (∀ v, v ∈ s → occ v s ≤ occ m s)
  ∧ (∀ v, v ∈ s → occ v s = occ m s → f64_le m v).

(** [r] is the first index at which [l] is maximal. *)
Definition is_argmax (l : list Z) (r : nat) : Prop :=
  ∃ m, l !! r = Some m
       ∧ (∀ k y, l !! k = Some y → y ≤ m)
       ∧ (∀ k y, (k < r)%nat → l !! k = Some y → y < m).

(** After [i] iterations the table counts the non-NaN values read so far,
    they sit in order at the front of the array, and the rest of the array
    is as it was. *)
Definition mode_inv (x : list f64) (i : nat) (st : mode_state) : Prop :=
  mo_c st = foldl count_up ∅ (sample (take i x))
  ∧ take (mo_j st) (mo_x st) = sample (take i x)
  ∧ mo_j st = length (sample (take i x))
  ∧ drop i (mo_x st) = drop i x
  ∧ length (mo_x st) = length x.

(** The neighborhood [_focal_chunk] hands to the reducer at the cell
    [(r, c)] of a chunk. *)
Definition neighborhood (chunk : grid f64) (kernel : grid bool) (r c : nat)
    : list f64 :=
  let '((kr_top, kr_bot), (kc_left, kc_right)) :=
    _get_offsets (nrows kernel, ncols kernel) in
  gather chunk (ravel kernel) (nrows kernel * ncols kernel)
         kr_top kr_bot kc_left kc_right r c.

(** The halo depth [_focal_dask_map] asks [map_overlap] for. *)
Definition pad_depth (kernel_shape : nat * nat) : nat * nat :=
  let offsets := _get_offsets kernel_shape in
  ((offsets.1.1 `max` offsets.1.2)%nat, (offsets.2.1 `max` offsets.2.2)%nat).

(** The cell [(i, j)] of a [rows] x [cols] tile lies strictly inside the
    halo border. *)
Definition inside (rows cols rpad cpad i j : nat) : Prop :=
  (rpad ≤ i < rows - rpad)%nat ∧ (cpad ≤ j < cols - cpad)%nat.

Global Instance inside_dec rows cols rpad cpad i j :
  Decision (inside rows cols rpad cpad i j).
Proof. unfold inside. apply _. Defined.

(** One term of a null-aware weighted sum: weight times source value, and
    nothing for a source that is NaN. *)
Definition weighted_term (src w : f64) : Qc :=
  match src, w with
  | Fin s, Fin wq => (wq * s)%Qc
  | _, _ => 0%Qc
  end.

(** The sum over the positions of one kernel row, laid over the chunk
    from [(kr, kc)] on, and over the whole kernel. *)
Fixpoint weighted_row (chunk : grid f64) (kr kc : nat) (wrow : list f64) : Qc :=
  match wrow with
  | [] => 0%Qc
  | w :: rest =>
      (weighted_term (chunk_at chunk kr kc) w + weighted_row chunk kr (S kc) rest)%Qc
  end.

Fixpoint weighted_sum (chunk : grid f64) (kr kc : nat) (kernel : grid f64) : Qc :=
  match kernel with
  | [] => 0%Qc
  | wrow :: rest =>
      (weighted_row chunk kr kc wrow + weighted_sum chunk (S kr) kc rest)%Qc
  end.

(** No weight of the kernel is NaN. *)
Definition nan_free (kernel : grid f64) : Prop :=
  Forall (Forall (λ w, isnan w = false)) kernel.

(** The values under a footprint laid over the chunk from [(kr, kc)] on,
    row by row: the source value where the footprint is true, NaN elsewhere. *)
Fixpoint footprint_row (chunk : grid f64) (kr kc : nat) (krow : list bool)
    : list f64 :=
  match krow with
  | [] => []
  | b :: rest =>
      (if b then chunk_at chunk kr kc else NaN) :: footprint_row chunk kr (S kc) rest
  end.

Fixpoint footprint_values (chunk : grid f64) (kr kc : nat) (kernel : grid bool)
    : list f64 :=
  match kernel with
  | [] => []
  | krow :: rest =>
      footprint_row chunk kr kc krow ++ footprint_values chunk (S kr) kc rest
  end.

(** A value a footprint spec may hold: an integer greater than 0. *)
Definition positive_int (v : pyval) : Prop := ∃ n, v = PInt n ∧ 0 < n.

(** A malformed footprint spec: a radius, width or height that is not a
    positive integer, a radius pair that is not increasing, a radius pair
    together with a height, or a sequence that is not a pair at all. *)
Definition malformed (width_or_radius : py_arg) (height : pyval) : Prop :=
  match width_or_radius with
  | Scalar v =>
      ¬ positive_int v ∨ (height ≠ PNone ∧ ¬ positive_int height)
  | Sequence [r1; r2] =>
      ¬ positive_int r1 ∨ ¬ positive_int r2 ∨ py_int r2 ≤ py_int r1
      ∨ height ≠ PNone
  | Sequence _ => True
  end.

(** The circle window of [r]: its side, and the test that decides a cell. *)
Definition circle_side (r : Z) : nat := Z.to_nat (2 * r - 1).

Definition in_circle (r : Z) (x y : nat) : bool :=
  bool_decide ((Z.of_nat x - (r - 1)) ^ 2 + (Z.of_nat y - (r - 1)) ^ 2 ≤ (r - 1) ^ 2).

(** ** What the entry points compute

    The loop over the bands as a function of the array it runs on: the
    outcome, and the array as the loop leaves it. *)
Fixpoint bands_loop `{!Foreign} (f : arr2 → result arr2) (bnds : list nat)
    (a : darray) : result unit * darray :=
  match bnds with
  | [] => (Ok (), a)
  | bnd :: rest =>
      match da_bands a !! bnd with
      | None => (Err (IndexError "index out of bounds"), a)
      | Some g =>
          match f (Arr2 (da_dtype a) g) with
          | Err e => (Err e, a)
          | Ok res =>
              bands_loop f rest
                (DArray (da_dtype a)
                   (<[bnd := cast_grid (a2_dtype res) (da_dtype a) (a2_data res)]>
                      (da_bands a)))
          end
      end
  end.

(** The data of the raster [focal] returns, as a function of the data
    [d], the mask [m] and the null value of its input. *)
Definition focal_value `{!Foreign} (d m : darray) (null_value : option f64)
    (focal_type : string) (width_or_radius : py_arg) (height : pyval)
    : result darray :=
  if bool_decide (focal_type ∉ FOCAL_STATS)
  then Err (ValueError "Unknown focal operation")
  else
    window ← get_focal_window width_or_radius height;
    let masked := bool_decide (is_Some null_value) in
    let new_dtype := promote_dtype_to_float (da_dtype d) in
    let upcast := masked && bool_decide (new_dtype ≠ da_dtype d) in
    let data :=
      if masked
      then nan_where m (if upcast then darray_astype new_dtype d else d)
      else d in
    match bands_loop (λ band, _focal band (ndarray_of_window window) focal_type masked)
                     (range 0 (length (da_bands data))) data with
    | (Err e, _) => Err e
    | (Ok _, data) =>
        Ok (if upcast && bool_decide (focal_type ∉ FOCAL_PROMOTING_OPS)
            then darray_astype (da_dtype d) data
            else data)
    end.

(** The same for [correlate], from the point where the raster's data has
    its working dtype, and as a whole; and for [convolve]. *)
Definition correlate_rest_value `{!Foreign} (d m : darray) (null_value : option f64)
    (kernel : ndarray) (mode : string) (cval : f64) : result darray :=
  let masked := bool_decide (is_Some null_value) in
  let new_dtype := promote_dtype_to_float (da_dtype d) in
  let upcast := masked && bool_decide (new_dtype ≠ da_dtype d) in
  let data :=
    if masked
    then nan_where m (if upcast then darray_astype new_dtype d else d)
    else d in
  match bands_loop (λ band, _correlate band kernel mode cval masked)
                   (range 0 (length (da_bands data))) data with
  | (Err e, _) => Err e
  | (Ok _, data) =>
      Ok (if upcast then darray_astype (da_dtype d) data else data)
  end.

Definition correlate_value `{!Foreign} (d m : darray) (null_value : option f64)
    (kernel : ndarray) (mode : string) (cval : f64) : result darray :=
  _ ← check_kernel kernel;
  correlate_rest_value
    (if is_float_dtype (nd_dtype kernel) && is_int_dtype (da_dtype d)
     then darray_astype F64 d
     else d)
    m null_value kernel mode cval.

Definition convolve_value `{!Foreign} (d m : darray) (null_value : option f64)
    (kernel : ndarray) (mode : string) (cval : f64) : result darray :=
  _ ← check_kernel kernel;
  kernel ← flip_kernel kernel;
  correlate_value d m null_value kernel mode cval.

(** What a raster holds: its data, its mask and its null value. *)
Definition Raster_content (p : loc) : St (darray * darray * option f64) :=
  '(data, mask, null_value) ← get_raster p;
  d ← get_dask data;
  m ← get_dask mask;
  mret (d, m, null_value).

(** The outcome of an entry point as a caller sees it: the error, or
    what the raster it returned holds. *)
Definition observe (call : St loc) (h : heap)
    : result (darray * darray * option f64) :=
  ((call ≫= Raster_content) h).1.

(** The raster at [p] is well-formed in [h] and holds [d], [m] and
    [null_value]. *)
Definition holds (h : heap) (p : loc) (d m : darray) (null_value : option f64)
    : Prop :=
  ∃ data mask,
    h !! p = Some (ORaster data mask null_value)
    ∧ h !! data = Some (ODask d)
    ∧ h !! mask = Some (ODask m).

(** [call] computes [value] from the raster at [p]: run on any store in
    which [p] holds [d], [m] and [null_value], it raises the error of
    [value] or returns a raster that was not in the store and holds the
    data of [value] with the mask and the null value of [p]; and every
    object of the store is still there, unchanged. *)
Definition computes (call : St loc) (p : loc) (d m : darray)
    (null_value : option f64) (value : result darray) : Prop :=
  ∀ h, holds h p d m null_value →
    ∃ r h',
      call h = (r, h')
      ∧ h ⊆ h'
      ∧ match value with
        | Err e => r = Err e
        | Ok out => ∃ q, r = Ok q ∧ h !! q = None ∧ holds h' q out m null_value
        end.

(** [call] leaves its input raster alone: after the call everything that
    was in the store is unchanged (the input raster holds what it held),
    the raster returned is a new one, and a second call gives what the
    first one gave. *)
Definition leaves_input (call : St loc) (h : heap) (p : loc) (d m : darray)
    (null_value : option f64) : Prop :=
  h ⊆ (call h).2
  ∧ holds (call h).2 p d m null_value
  ∧ (∀ q, (call h).1 = Ok q → h !! q = None)
  ∧ observe call (call h).2 = observe call h.

(** What [correlate] does once the copy's data has its working dtype. *)
Definition correlate_rest `{!Foreign} (raster rs : loc) (kernel : ndarray)
    (mode : string) (cval : f64) : St loc :=
  data ← Raster_data rs;
  final_dtype ← (a ← get_dask data; mret (da_dtype a));
  (* Convert to float and fill nulls with nan, if needed *)
  masked ← Raster_masked raster;
  '(data, upcast) ←
    (if masked : bool then
       let new_dtype := promote_dtype_to_float final_dtype in
       let upcast := bool_decide (new_dtype ≠ final_dtype) in
       data ← (if upcast then da_astype data new_dtype else mret data);
       mask ← Raster_mask raster;
       data ← da_nan_where mask data;
       mret (data, upcast)
     else mret (data, false));
  rs_masked ← Raster_masked rs;
  nb ← da_shape0 data;
  for_each (range 0 nb) (λ bnd,
    band ← da_getitem data bnd;
    res ← lift (_correlate band kernel mode cval rs_masked);
    da_setitem data bnd res);;
  (* Cast back to int, if needed *)
  data ← (if upcast : bool then da_astype data final_dtype else mret data);
  Raster_set_data rs data;;
  mret rs.

(** The part [focal] and [correlate] have in common, from the loop over
    the bands on: the loop, the cast back, and the raster's new data. *)
Definition bands_tail `{!Foreign} (rs data : loc) (f : arr2 → result arr2)
    (demote : bool) (final_dtype : dtype) : St loc :=
  nb ← da_shape0 data;
  for_each (range 0 nb) (λ bnd,
    band ← da_getitem data bnd;
    res ← lift (f band);
    da_setitem data bnd res);;
  data ← (if demote then da_astype data final_dtype else mret data);
  Raster_set_data rs data;;
  mret rs.

(** ** Sample inputs *)

(** A neighborhood with one null: 3, 1, 3, 1, 2. *)
Definition mode_sample : list f64 :=
  [f64_of_Z 3; NaN; f64_of_Z 1; f64_of_Z 3; f64_of_Z 1; f64_of_Z 2].

(** One 7 and 65536 fives: the neighborhood of a 257 x 257 window holds
    that many cells. *)
Definition mode_wrap_sample : list f64 :=
  f64_of_Z 7 :: replicate 65536 (f64_of_Z 5).

(** A foreign interface to run the code with: roots and logarithms are
    not computed, ints promote to float64, casts keep the value, the halo
    is filled with the constant (NaN for a named policy), and the filters
    of dask_image leave the data as it is. *)
Definition example_pad (bnd : boundary) (rpad cpad : nat) (g : grid f64) : grid f64 :=
  let fill := match bnd with BConstant v => v | BName _ => NaN end in
  let cols := (cpad + ncols g + cpad)%nat in
  replicate rpad (replicate cols fill)
    ++ ((λ row, replicate cpad fill ++ row ++ replicate cpad fill) <$> g)
    ++ replicate rpad (replicate cols fill).

Definition example_foreign : Foreign := {|
  np_sqrt := λ q, q;
  np_log := λ q, 0%Qc;
  promote_dtype_to_float := λ d, if is_float_dtype d then d else F64;
  promote_data_dtype := λ a,
    Arr2 (if is_float_dtype (a2_dtype a) then a2_dtype a else F64) (a2_data a);
  astype_val := λ _ _ v, v;
  da_overlap := example_pad;
  ndfilters_minimum_filter := λ data _ _, data;
  ndfilters_maximum_filter := λ data _ _, data;
  ndfilters_correlate := λ data _ _ _ _, data;
  open_raster := λ _, Err (ValueError "no such file");
|}.

(** A 4 x 4 tile (a 2 x 2 interior with a halo of depth 1) with one null,
    a 3 x 3 footprint and a 2 x 2 weight kernel. *)
Definition example_tile : grid f64 :=
  [ [f64_of_Z 1; f64_of_Z 2; f64_of_Z 3; f64_of_Z 4];
    [f64_of_Z 5; NaN; f64_of_Z 7; f64_of_Z 8];
    [f64_of_Z 9; f64_of_Z 10; f64_of_Z 11; f64_of_Z 12];
    [f64_of_Z 13; f64_of_Z 14; f64_of_Z 15; f64_of_Z 16] ].

Definition example_footprint : grid bool :=
  [ [true; true; true]; [true; true; true]; [true; true; true] ].

Definition example_weights : grid f64 :=
  [ [f64_of_Z 1; f64_of_Z 1]; [f64_of_Z 1; f64_of_Z 2] ].

(** A store with one raster: two bands of int32 data, a mask with
    nothing set, and no null value; and the same raster with the null
    value -1 and one cell masked. *)
Definition example_data : darray :=
  DArray I32 [ [ [f64_of_Z 1; f64_of_Z 2]; [f64_of_Z 3; f64_of_Z 4] ];
               [ [f64_of_Z 5; f64_of_Z 6]; [f64_of_Z 7; f64_of_Z 8] ] ].

Definition example_mask : darray :=
  DArray Bool [ [ [f64_of_Z 0; f64_of_Z 0]; [f64_of_Z 0; f64_of_Z 0] ];
                [ [f64_of_Z 0; f64_of_Z 0]; [f64_of_Z 0; f64_of_Z 0] ] ].

Definition example_heap : heap :=
  {[ 1%positive := ORaster 2%positive 3%positive None;
     2%positive := ODask example_data;
     3%positive := ODask example_mask ]}.

Definition example_kernel : grid f64 :=
  [ [f64_of_Z 1; f64_of_Z 2]; [f64_of_Z 3; f64_of_Z 4] ].

(** ** Vocabulary of the further properties *)

(** The relative frequency of [v] in the sample [s]: its count times
    [1 / n], as [_agg_nan_entropy] and [_agg_nan_asm] compute it. *)
Definition frequency (s : list f64) (v : f64) : Qc :=
  (Qc_of_Z (occ v s) * (1 / Qc_of_Z (Z.of_nat (length s))))%Qc.

(** The squared distance of the cell [(x, y)] to the cell [(c, c)]. *)
Definition sq_dist (c : Z) (x y : nat) : Z :=
  (Z.of_nat x - c) ^ 2 + (Z.of_nat y - c) ^ 2.

(** The kind of a Python exception, and a computation that raises one of
    a given kind. *)
Inductive exn_kind : Type := KTypeError | KValueError | KIndexError.

Definition kind_of (e : exn) : exn_kind :=
  match e with
  | TypeError _ => KTypeError
  | ValueError _ => KValueError
  | IndexError _ => KIndexError
  end.

Definition raises {A} (r : result A) (k : exn_kind) : Prop :=
  ∃ e, r = Err e ∧ kind_of e = k.

(** The dtype [correlate] gives the data of the copy before it fills the
    nulls: float64 for integer data under a float kernel. *)
Definition working_dtype (kernel : ndarray) (d : darray) : dtype :=
  if is_float_dtype (nd_dtype kernel) && is_int_dtype (da_dtype d)
  then F64 else da_dtype d.

(** The cell [(b, i, j)] of a 3-D array. *)
Definition lookup3 (a : darray) (b i j : nat) : option f64 :=
  da_bands a !! b ≫= λ g, lookup2 g i j.

(** ** raster.py: vectorization helpers *)

Definition _get_rio_shapes_dtype (dt : dtype) : dtype :=
  if bool_decide (dt ∈ [I16; I32; U8; U16; F32]) then dt
  else
    let new_dtype := dt in
    if is_bool_dtype dt then U8
    else if bool_decide (dt = I8) then I16
    else if bool_decide (dt ∈ [I64; U32; U64]) then I32
    else if bool_decide (dt ∈ [F16; F64]) then F32
    else new_dtype.

(** A 3-D array, [(band, y, x)]. *)
Abbreviation cube A := (list (grid A)).

(** [a.size], [a.shape[1]] and [a.shape[2]] of a 3-D array. *)
Definition cube_size {A} (a : cube A) : nat := length (concat (concat a)).
Definition shape1 {A} (a : cube A) : nat :=
  match a with [] => 0%nat | band :: _ => nrows band end.
Definition shape2 {A} (a : cube A) : nat :=
  match a with [] => 0%nat | band :: _ => ncols band end.

(** [np.sum(mask)] of a boolean array: the number of true cells. *)
Definition np_sum_bool (mask : cube bool) : nat :=
  length (filter (λ b, b = true) (concat (concat mask))).

(** [mask[0, i, j]] and [data[0, i, j]].  numba does not check bounds; a
    read outside the array (which the loops never perform on a mask of
    the shape of the data) is given a value here. *)
Definition mask_at (mask : cube bool) (i j : nat) : bool :=
  default false (mask !! 0%nat ≫= λ band, lookup2 band i j).
Definition data_at (data : cube f64) (i j : nat) : f64 :=
  default NaN (data !! 0%nat ≫= λ band, lookup2 band i j).

(** The loop body [_extract_points] and [_extract_values] share:
    [if mask[0, i, j]: continue], then the stores at [k] and [k += 1]. *)
Definition extract_cell {T} (mask : cube bool) (store : T → nat → nat → nat → T)
    (i : nat) (st : T * nat) (j : nat) : T * nat :=
  let '(out, k) := st in
  if mask_at mask i j then (out, k)
  else (store out k i j, S k).

Definition extract_loop {T} (mask : cube bool) (store : T → nat → nat → nat → T)
    (rows cols : nat) (out : T) : T :=
  (foldl (λ st i, foldl (extract_cell mask store i) st (range 0 cols))
         (out, 0%nat) (range 0 rows)).1.

(** [np.empty(n)] is a list of [n] cells not yet written. *)
Definition _extract_points (mask : cube bool) (xc yc : list f64)
    : list (option f64) * list (option f64) :=
  let n := (cube_size mask - np_sum_bool mask)%nat in
  let rx := replicate n None in
  let ry := replicate n None in
  if bool_decide (n = 0%nat) then (rx, ry)
  else
    extract_loop mask
      (λ '(rx, ry) k i j,
         (<[k := Some (xc !!! j)]> rx, <[k := Some (yc !!! i)]> ry))
      (shape1 mask) (shape2 mask) (rx, ry).

Definition _extract_values (data : cube f64) (mask : cube bool)
    : list (option f64) :=
  let n := (cube_size mask - np_sum_bool mask)%nat in
  let results := replicate n None in
  if bool_decide (n = 0%nat) then results
  else
    extract_loop mask
      (λ results k i j, <[k := Some (data_at data i j)]> results)
      (shape1 data) (shape2 data) results.

(** The cells of a [rows] x [cols] band in row-major order, and those of
    them that are not masked. *)
Definition cells (rows cols : nat) : list (nat * nat) :=
  i ← seq 0 rows; (λ j, (i, j)) <$> seq 0 cols.

Definition masked_cell (mask : grid bool) (ij : nat * nat) : bool :=
  default false (lookup2 mask ij.1 ij.2).

Definition unmasked_cells (mask : grid bool) (rows cols : nat) : list (nat * nat) :=
  filter (λ ij, masked_cell mask ij = false) (cells rows cols).

(** ** raster.py: pixel indices and coordinates

    An [affine.Affine] transform is the matrix [[a b c] [d e f] [0 0 1]];
    coordinates are exact rationals, as the float payloads are. *)
Record Affine : Type := MkAffine {
  af_a : Qc; af_b : Qc; af_c : Qc;
  af_d : Qc; af_e : Qc; af_f : Qc;
}.

(** [Affine.translation(xoff, yoff)] *)
Definition Affine_translation (xoff yoff : Qc) : Affine :=
  MkAffine 1 0 xoff 0 1 yoff.

(** [self * other] for two transforms, and for a transform and a point. *)
Definition Affine_mul (s o : Affine) : Affine :=
  MkAffine (af_a s * af_a o + af_b s * af_d o)
           (af_a s * af_b o + af_b s * af_e o)
           (af_a s * af_c o + af_b s * af_f o + af_c s)
           (af_d s * af_a o + af_e s * af_d o)
           (af_d s * af_b o + af_e s * af_e o)
           (af_d s * af_c o + af_e s * af_f o + af_f s).

Definition Affine_apply (s : Affine) (v : Qc * Qc) : Qc * Qc :=
  let '(vx, vy) := v in
  (vx * af_a s + vy * af_b s + af_c s, vx * af_d s + vy * af_e s + af_f s)%Qc.

Definition Affine_determinant (s : Affine) : Qc :=
  (af_a s * af_e s - af_b s * af_d s)%Qc.

(** What the two conversions can raise. *)
Inductive xy_exn : Type :=
  | KeyError (key : string)
  | TransformNotInvertibleError.

(** [~self] *)
Definition Affine_invert (s : Affine) : xy_exn + Affine :=
  if decide (Affine_determinant s = 0%Qc) then inl TransformNotInvertibleError
  else
    let idet := (1 / Affine_determinant s)%Qc in
    let ra := (af_e s * idet)%Qc in
    let rb := (- af_b s * idet)%Qc in
    let rd := (- af_d s * idet)%Qc in
    let re := (af_a s * idet)%Qc in
    inr (MkAffine ra rb (- af_c s * ra - af_f s * rb)
                  rd re (- af_c s * rd - af_f s * re)).

Definition _offset_name_to_rc_offset : gmap string (Qc * Qc) :=
  {[ "center" := (Q2Qc 0.5, Q2Qc 0.5);
     "ul" := (0%Qc, 0%Qc);
     "ur" := (0%Qc, 1%Qc);
     "ll" := (1%Qc, 0%Qc);
     "lr" := (1%Qc, 1%Qc) ]}.

Definition rowcol_to_xy (row col : Qc) (affine : Affine) (offset : string)
    : xy_exn + Qc * Qc :=
  match _offset_name_to_rc_offset !! offset with
  | None => inl (KeyError offset)
  | Some (roffset, coffset) =>
      let transform := Affine_translation coffset roffset in
      inr (Affine_apply (Affine_mul affine transform) (col, row))
  end.

(** [np.floor(v).astype(int)] *)
Definition np_floor (v : Qc) : Z := Qfloor v.

Definition xy_to_rowcol (x y : Qc) (affine : Affine) : xy_exn + Z * Z :=
  match Affine_invert affine with
  | inl e => inl e
  | inr inv =>
      let '(col, row) := Affine_apply inv (x, y) in
      let row := np_floor row in
      let col := np_floor col in
      inr (row, col)
  end.

(** [Raster.bounds] of a raster of shape [(_, r, c)] whose transform is
    [affine]: [self.xy(0, 0, offset="ul")] and
    [self.xy(r - 1, c - 1, "lr")]. *)
Definition Raster_bounds (r c : Z) (affine : Affine)
    : xy_exn + Qc * Qc * Qc * Qc :=
  match rowcol_to_xy 0 0 affine "ul" with
  | inl e => inl e
  | inr (minx, maxy) =>
      match rowcol_to_xy (Qc_of_Z (r - 1)) (Qc_of_Z (c - 1)) affine "lr" with
      | inl e => inl e
      | inr (maxx, miny) => inr (minx, miny, maxx, maxy)
      end
  end.

(** ** raster.py: rasters from rasters *)

(** [Raster(make_raster_ds(xdata, xmask), _fast_path=True)]: a raster
    over two new arrays. *)
Definition Raster_new (d m : darray) (null_value : option f64) : St loc :=
  data ← alloc (ODask d);
  mask ← alloc (ODask m);
  alloc (ORaster data mask null_value).

(** [Raster.nbands] and [Raster.null_value] *)
Definition Raster_nbands (p : loc) : St nat :=
  data ← Raster_data p; da_shape0 data.

Definition Raster_null_value (p : loc) : St (option f64) :=
  '(_, _, null_value) ← get_raster p; mret null_value.

(** [get_raster(src, strict, null_to_nan)] of [raster.py] (the name
    [get_raster] is the store's accessor here).  [construct] is
    [Raster(src)] for a source that is neither a Raster nor a string. *)
Definition raster_get_raster `{!Foreign} (construct : St loc) (src : raster_arg)
    (strict null_to_nan : bool) : St loc :=
  rs ← match src with
       | ARaster p => mret p
       | APath path => Raster_open path
       | AOther =>
           if strict
           then raise (TypeError "Input must be a Raster or path string.")
           else λ h,
             match construct h with
             | (Err (ValueError _), h') | (Err (TypeError _), h') =>
                 (Err (ValueError "Could not convert input to Raster"), h')
             | r => r
             end
       end;
  masked ← Raster_masked rs;
  if null_to_nan && masked then
    rs ← Raster_copy rs;
    data ← Raster_data rs;
    a ← get_dask data;
    let new_dtype := promote_dtype_to_float (da_dtype a) in
    data ← (if bool_decide (new_dtype ≠ da_dtype a)
            then da_astype data new_dtype else mret data);
    mask ← Raster_mask rs;
    data ← da_nan_where mask data;
    Raster_set_data rs data;;
    mret rs
  else mret rs.

(** [Raster.get_bands].  The band coordinate of a raster runs from 1 to
    the number of bands, so [self._ds.sel(band=b)] is the band at index
    [b - 1]. *)
Definition select_bands (bands : list Z) (a : darray) : darray :=
  DArray (da_dtype a) ((λ b, da_bands a !!! Z.to_nat (b - 1)) <$> bands).

(** [bands] as the list the checks leave: an int is wrapped, a string is
    iterated by characters (none of which is an int), and any other scalar
    is not iterable. *)
Definition band_numbers (bands : py_arg) : result (list pyval) :=
  match bands with
  | Scalar (PInt n) => Ok [PInt n]
  | Scalar (PStr s) =>
      if decide (s = EmptyString) then Ok []
      else Err (TypeError "All band numbers must be integers")
  | Scalar _ => Err (TypeError "object is not iterable")
  | Sequence l =>
      if forallb is_int l then Ok l
      else Err (TypeError "All band numbers must be integers")
  end.

Definition get_bands (p : loc) (bands : py_arg) : St loc :=
  bands ← lift (band_numbers bands);
  if bool_decide (length bands = 0%nat)
  then raise (ValueError "No bands provided")
  else
    nbands ← Raster_nbands p;
    if existsb (λ b, (py_int b <? 1) || (Z.of_nat nbands <? py_int b)) bands
    then raise (IndexError "One or more band numbers were out of bounds")
    else if bool_decide (length bands = 1%nat) && bool_decide (nbands = 1%nat)
    then Raster_copy p
    else
      '(data, mask, null_value) ← get_raster p;
      d ← get_dask data;
      m ← get_dask mask;
      Raster_new (select_bands (py_int <$> bands) d)
                 (select_bands (py_int <$> bands) m) null_value.

(** The band numbers [bs] are valid for a raster of [n] bands. *)
Definition valid_bands (n : nat) (bs : list Z) : Prop :=
  bs ≠ [] ∧ Forall (λ b, 1 ≤ b ≤ Z.of_nat n) bs.

(** [Raster.to_quadrants]: the slices [[:, :ny // 2, :nx // 2]],
    [[:, :ny // 2, nx // 2:]], [[:, ny // 2:, :nx // 2]] and
    [[:, ny // 2:, nx // 2:]] of the data and of the mask. *)
Inductive quadrant : Type := NW | NE | SW | SE.

Definition slice_quadrant {A} (ny nx : nat) (s : quadrant) (g : grid A) : grid A :=
  match s with
  | NW => take (nx / 2) <$> take (ny / 2) g
  | NE => drop (nx / 2) <$> take (ny / 2) g
  | SW => take (nx / 2) <$> drop (ny / 2) g
  | SE => drop (nx / 2) <$> drop (ny / 2) g
  end.

(** [a.shape] of a dask array. *)
Definition da_shape (a : darray) : nat * nat * nat :=
  (length (da_bands a),
   match da_bands a with [] => 0%nat | band :: _ => nrows band end,
   match da_bands a with [] => 0%nat | band :: _ => ncols band end).

Definition darray_quadrant (ny nx : nat) (s : quadrant) (a : darray) : darray :=
  DArray (da_dtype a) (slice_quadrant ny nx s <$> da_bands a).

(** [data.copy()] *)
Definition da_copy (data : loc) : St loc :=
  a ← get_dask data; alloc (ODask a).

Definition to_quadrants (p : loc) : St (loc * loc * loc * loc) :=
  '(data, mask, null_value) ← get_raster p;
  d ← get_dask data;
  let '(_, ny, nx) := da_shape d in
  data ← da_copy data;
  mask ← da_copy mask;
  d ← get_dask data;
  m ← get_dask mask;
  let quad s := Raster_new (darray_quadrant ny nx s d) (darray_quadrant ny nx s m)
                  null_value in
  nw ← quad NW;
  ne ← quad NE;
  sw ← quad SW;
  se ← quad SE;
  mret (nw, ne, sw, se).

(** [Raster.burn_mask].  [get_default_null_value] of
    [raster_tools.masking] and the dtype numpy gives
    [da.where(mask, nv, data)] are not part of the sources at hand: they
    are parameters. *)
Section burn_mask.
Variable get_default_null_value : dtype → f64.
Variable np_where_dtype : f64 → dtype → dtype.

(** [da.where(mask, nv, data)] *)
Definition fill_where (mask : darray) (nv : f64) (data : darray) : darray :=
  DArray (np_where_dtype nv (da_dtype data))
    (zip_with (zip_with (zip_with (λ v m : f64, if truthy m then nv else v)))
       (da_bands data) (da_bands mask)).

Definition da_fill_where (mask : loc) (nv : f64) (data : loc) : St loc :=
  m ← get_dask mask; a ← get_dask data; alloc (ODask (fill_where m nv a)).

Definition burn_mask (p : loc) : St loc :=
  masked ← Raster_masked p;
  if negb masked then Raster_copy p
  else
    nv ← Raster_null_value p;
    dt ← Raster_dtype p;
    let nv := if is_bool_dtype dt then get_default_null_value dt
              else default NaN nv in
    out_raster ← Raster_copy p;
    mask ← Raster_mask p;
    data ← Raster_data p;
    data ← da_fill_where mask nv data;
    Raster_set_data out_raster data;;
    mret out_raster.

(** The value [burn_mask] fills the null cells with. *)
Definition burn_value (dt : dtype) (v : f64) : f64 :=
  if is_bool_dtype dt then get_default_null_value dt else v.
End burn_mask.

(** ** More sample inputs *)

(** The raster of [example_heap] with the null value -1 and the cell
    [(0, 0)] of its first band masked. *)
Definition example_masked_data : darray :=
  DArray I32 [ [ [f64_of_Z (-1); f64_of_Z 2]; [f64_of_Z 3; f64_of_Z 4] ];
               [ [f64_of_Z 5; f64_of_Z 6]; [f64_of_Z 7; f64_of_Z 8] ] ].

Definition example_masked_mask : darray :=
  DArray Bool [ [ [f64_of_Z 1; f64_of_Z 0]; [f64_of_Z 0; f64_of_Z 0] ];
                [ [f64_of_Z 0; f64_of_Z 0]; [f64_of_Z 0; f64_of_Z 0] ] ].

Definition example_masked_heap : heap :=
  {[ 1%positive := ORaster 2%positive 3%positive (Some (f64_of_Z (-1)));
     2%positive := ODask example_masked_data;
     3%positive := ODask example_masked_mask ]}.

(** A north-up transform: cells of size 2, upper left corner at (10, 20). *)
Definition example_affine : Affine :=
  MkAffine (Qc_of_Z 2) 0 (Qc_of_Z 10) 0 (Qc_of_Z (-2)) (Qc_of_Z 20).

(** A 2 x 2 band with its lower left cell masked, and its coordinates. *)
Definition example_band : grid f64 :=
  [ [f64_of_Z 1; f64_of_Z 2]; [f64_of_Z 3; f64_of_Z 4] ].

Definition example_band_mask : grid bool :=
  [ [false; false]; [true; false] ].

Definition example_xc : list f64 := [f64_of_Z 11; f64_of_Z 13].
Definition example_yc : list f64 := [f64_of_Z 19; f64_of_Z 17].

(** * Theorems *)

(** ** Reducers *)

Lemma sample_cons_nan x : sample (NaN :: x) = sample x.
Proof. unfold sample. by rewrite filter_cons_False. Qed.

Lemma sample_cons_fin q x : sample (Fin q :: x) = Fin q :: sample x.
Proof. unfold sample. by rewrite filter_cons_True. Qed.

Lemma nonnan_sample x : nonnan (sample x) = nonnan x.
Proof.
  induction x as [|[|q] x IH]; [done|..].
  - by rewrite sample_cons_nan.
  - rewrite sample_cons_fin. simpl. by f_equal.
Qed.

Lemma sample_nil_nonnan x : sample x = [] → nonnan x = [].
Proof. intros H. by rewrite <-nonnan_sample, H. Qed.

Lemma sample_app x y : sample (x ++ y) = sample x ++ sample y.
Proof. apply filter_app. Qed.

Lemma foldl_snoc {A B} (f : A → B → A) a l b :
  foldl f a (l ++ [b]) = f (foldl f a l) b.
Proof. by rewrite foldl_app. Qed.

(** *** The frequency table *)

Lemma occ_nil v : occ v [] = 0.
Proof. done. Qed.

Lemma occ_cons v w s :
  occ v (w :: s) = (if decide (v = w) then 1 else 0) + occ v s.
Proof.
  unfold occ. destruct (decide (v = w)).
  - rewrite filter_cons_True by done. simpl length. lia.
  - rewrite filter_cons_False by done. lia.
Qed.

Lemma occ_nonneg v s : 0 ≤ occ v s.
Proof. unfold occ. lia. Qed.

Lemma dict_get_count_up c w v :
  dict_get (count_up c w) v = dict_get c v + (if decide (v = w) then 1 else 0).
Proof.
  unfold dict_get, count_up.
  destruct (decide (v = w)) as [->|Hne].
  - destruct (c !! w) as [n|] eqn:E; rewrite lookup_insert_eq; simpl; lia.
  - destruct (c !! w) as [n|] eqn:E; rewrite lookup_insert_ne by done; lia.
Qed.

Lemma dict_get_foldl_count_up s : ∀ c v,
  dict_get (foldl count_up c s) v = dict_get c v + occ v s.
Proof.
  induction s as [|w s IH]; intros c v; simpl.
  - rewrite occ_nil. lia.
  - rewrite IH, dict_get_count_up, occ_cons. lia.
Qed.

(** *** The scan of [_agg_nan_mode] *)

Lemma sample_length_le x : (length (sample x) ≤ length x)%nat.
Proof. apply length_filter. Qed.

Lemma mode_scan_inv x i :
  (i ≤ length x)%nat →
  mode_inv x i (foldl mode_step (MoSt ∅ x 0) (seq 0 i)).
Proof.
  induction i as [|i IH]; intros Hi.
  - simpl. unfold mode_inv. simpl. rewrite take_0. done.
  - rewrite seq_S, foldl_snoc. simpl.
    destruct IH as (Hc & Hv & Hj & Hd & Hl); [lia|].
    set (st := foldl mode_step (MoSt ∅ x 0) (seq 0 i)) in *.
    destruct (lookup_lt_is_Some_2 x i) as [v Hxi]; [lia|].
    assert (Hsti : mo_x st !! i = Some v).
    { rewrite <-(Nat.add_0_r i), <-lookup_drop, Hd, lookup_drop, Nat.add_0_r. done. }
    assert (Htk : take (S i) x = take i x ++ [v]) by by apply take_S_r.
    unfold mode_step. rewrite (list_lookup_total_correct _ _ _ Hsti).
    unfold mode_inv. rewrite Htk, sample_app.
    destruct v as [|q]; simpl.
    + rewrite sample_cons_nan. change (sample []) with (@nil f64).
      rewrite !app_nil_r.
      repeat split; try done.
      replace (S i) with (i + 1)%nat by lia.
      rewrite <-!drop_drop, Hd. done.
    + rewrite sample_cons_fin. change (sample []) with (@nil f64).
      pose proof (sample_length_le (take i x)) as Hle.
      rewrite length_take in Hle.
      repeat split.
      * rewrite foldl_snoc. by rewrite Hc.
      * rewrite (take_S_r _ _ (Fin q)).
        -- rewrite take_insert_ge by lia. by rewrite Hv.
        -- apply list_lookup_insert_eq. lia.
      * rewrite length_app. simpl. lia.
      * rewrite drop_insert_lt by lia.
        replace (S i) with (i + 1)%nat by lia.
        rewrite <-!drop_drop, Hd. done.
      * by rewrite length_insert.
Qed.

Lemma mode_scan_spec x :
  mo_c (mode_scan x) = foldl count_up ∅ (sample x)
  ∧ take (mo_j (mode_scan x)) (mo_x (mode_scan x)) = sample x.
Proof.
  destruct (mode_scan_inv x (length x) (Nat.le_refl _)) as (Hc & Hv & _).
  rewrite (take_ge x (length x)) in Hc, Hv by lia. done.
Qed.

(** The in-place scan against its closed form: the mode is read off the
    sorted sample and the table of counts. *)
Lemma _agg_nan_mode_unfold x :
  _agg_nan_mode x =
    if decide (length (sample x) = 0%nat) then NaN
    else
      let vals := merge_sort f64_le (sample x) in
      let c := foldl count_up ∅ (sample x) in
      vals !!! np_argmax ((λ v, to_uint16 (dict_get c v)) <$> vals).
Proof.
  unfold _agg_nan_mode. destruct (mode_scan_spec x) as [-> ->]. done.
Qed.

(** *** Sorting and [np.argmax] *)

Global Instance f64_le_refl : Reflexive f64_le.
Proof. intros [|p]; simpl; [done|]. apply Qcle_refl. Qed.

Global Instance f64_le_trans : Transitive f64_le.
Proof. intros [|p] [|q] [|r]; simpl; try done. apply Qcle_trans. Qed.

Global Instance f64_le_total : Total f64_le.
Proof.
  intros [|p] [|q]; simpl; auto.
  destruct (Qclt_le_dec p q); [left; by apply Qclt_le_weak | by right].
Qed.

Lemma StronglySorted_lookup_le {A} (R : relation A) `{!Reflexive R} l :
  StronglySorted R l →
  ∀ i k a b, (i ≤ k)%nat → l !! i = Some a → l !! k = Some b → R a b.
Proof.
  induction 1 as [|x l Hs IH Hall]; intros i k a b Hik Hi Hk; [done|].
  destruct i as [|i], k as [|k]; simpl in *; simplify_eq.
  - reflexivity.
  - rewrite Forall_forall in Hall. apply Hall.
    by apply list_elem_of_lookup_2 in Hk.
  - lia.
  - apply (IH i k); [lia|done..].
Qed.

Lemma argmax_from_spec l : ∀ pre bi b,
  pre !! bi = Some b →
  is_argmax pre bi →
  is_argmax (pre ++ l) (argmax_from bi b (length pre) l).
Proof.
  induction l as [|y l IH]; intros pre bi b Hb Hmax; simpl.
  - by rewrite app_nil_r.
  - destruct Hmax as (m & Hm & Hall & Hlt). simplify_eq.
    pose proof (lookup_lt_Some _ _ _ Hb) as Hbi.
    assert (Hlen : length (pre ++ [y]) = S (length pre))
      by (rewrite length_app; simpl; lia).
    replace (pre ++ y :: l) with ((pre ++ [y]) ++ l) by by rewrite <-app_assoc.
    rewrite <-Hlen.
    destruct (Z.ltb_spec b y) as [Hby|Hby].
    + apply IH; [by apply list_lookup_middle|].
      exists y. split; [by apply list_lookup_middle|]. split.
      * intros k z Hk. apply lookup_app_Some in Hk as [Hk|[_ Hk]].
        -- apply Hall in Hk. lia.
        -- apply list_lookup_singleton_Some in Hk as [_ ->]. lia.
      * intros k z Hlt' Hk. rewrite lookup_app_l in Hk by lia.
        apply Hall in Hk. lia.
    + apply IH; [by apply lookup_app_l_Some|].
      exists b. split; [by apply lookup_app_l_Some|]. split.
      * intros k z Hk. apply lookup_app_Some in Hk as [Hk|[_ Hk]].
        -- by apply Hall in Hk.
        -- apply list_lookup_singleton_Some in Hk as [_ ->]. lia.
      * intros k z Hlt' Hk. rewrite lookup_app_l in Hk by lia.
        by apply (Hlt k).
Qed.

Lemma np_argmax_spec l : l ≠ [] → is_argmax l (np_argmax l).
Proof.
  destruct l as [|y l]; [done|]. intros _. simpl.
  apply (argmax_from_spec l [y] 0%nat y); [done|].
  exists y. split; [done|]. split.
  - intros [|k] z Hk; simpl in Hk; simplify_eq. lia.
  - intros k z Hk. lia.
Qed.

Lemma occ_elem_of v s : 0 < occ v s → v ∈ s.
Proof.
  induction s as [|w s IH]; [by rewrite occ_nil|].
  rewrite occ_cons. destruct (decide (v = w)) as [->|]; [left|].
  intros H. right. apply IH. lia.
Qed.

(** *** The mode *)

Lemma occ_le_length v s : occ v s ≤ Z.of_nat (length s).
Proof. unfold occ. pose proof (length_filter (v =.) s). lia. Qed.

(** C4 (as amended).  For every non-empty null-filtered sample in which
    no value occurs 65536 times or more, [_agg_nan_mode] returns a value of
    the sample with the highest occurrence count, and among the values tied
    for the highest count it returns the numerically smallest. *)
Theorem mode_highest_count_smallest_value (x : list f64) :
  sample x ≠ [] →
  (∀ v, occ v (sample x) < 65536) →
  is_mode (sample x) (_agg_nan_mode x).
Proof.
  intros Hne Hsmall. rewrite _agg_nan_mode_unfold.
  rewrite decide_False by (by destruct (sample x)).
  set (s := sample x) in *. cbv zeta.
  set (vals := merge_sort f64_le s).
  assert (Hperm : vals ≡ₚ s) by apply merge_sort_Permutation.
  assert (Hsorted : StronglySorted f64_le vals)
    by apply (StronglySorted_merge_sort _).
  assert (Hcnts : (λ v, to_uint16 (dict_get (foldl count_up ∅ s) v)) <$> vals
                  = (λ v, occ v s) <$> vals).
  { apply list_fmap_ext. intros _ v _. rewrite dict_get_foldl_count_up.
    unfold dict_get at 1. rewrite lookup_empty. simpl.
    unfold to_uint16. apply Z.mod_small.
    pose proof (occ_nonneg v s). pose proof (Hsmall v). lia. }
  rewrite Hcnts.
  assert (Hvne : (λ v, occ v s) <$> vals ≠ []).
  { intros Hnil. apply fmap_nil_inv in Hnil. rewrite Hnil in Hperm.
    by apply Permutation_nil_l in Hperm. }
  destruct (np_argmax_spec _ Hvne) as (m & Hm & Hall & Hlt).
  set (r := np_argmax ((λ v, occ v s) <$> vals)) in *.
  rewrite list_lookup_fmap in Hm.
  destruct (vals !! r) as [a|] eqn:Ha; [|done]. simpl in Hm. simplify_eq.
  rewrite (list_lookup_total_correct _ _ _ Ha).
  split; [|split].
  - rewrite <-Hperm. by apply list_elem_of_lookup_2 in Ha.
  - intros v Hv. rewrite <-Hperm in Hv.
    apply list_elem_of_lookup_1 in Hv as [k Hk].
    apply (Hall k). by rewrite list_lookup_fmap, Hk.
  - intros v Hv Htie. rewrite <-Hperm in Hv.
    apply list_elem_of_lookup_1 in Hv as [k Hk].
    destruct (decide (k < r)%nat) as [Hkr|Hkr].
    + pose proof (Hlt k (occ v s) Hkr) as Hc.
      rewrite list_lookup_fmap, Hk in Hc. specialize (Hc eq_refl). lia.
    + apply (StronglySorted_lookup_le f64_le vals Hsorted r k); [lia|done..].
Qed.

(** C4 as stated fails: a sample with one 7 and 65536 fives.  The count
    of 5 is stored in 16 bits as 0, so the 7 wins. *)
Lemma mode_count_wraps :
  ¬ is_mode (sample mode_wrap_sample) (_agg_nan_mode mode_wrap_sample).
Proof.
  intros (_ & Hmax & _).
  assert (Hres : bool_decide (_agg_nan_mode mode_wrap_sample = f64_of_Z 7) = true).
  { rewrite _agg_nan_mode_unfold. vm_compute. reflexivity. }
  apply bool_decide_eq_true in Hres. rewrite Hres in Hmax.
  assert (H5 : occ (f64_of_Z 5) (sample mode_wrap_sample) = 65536)
    by (vm_compute; reflexivity).
  assert (H7 : occ (f64_of_Z 7) (sample mode_wrap_sample) = 1)
    by (vm_compute; reflexivity).
  specialize (Hmax (f64_of_Z 5)). rewrite H5, H7 in Hmax.
  assert (65536 ≤ 1); [|lia].
  apply Hmax. apply occ_elem_of. rewrite H5. lia.
Qed.

Lemma mode_highest_count_smallest_value_witness :
  is_mode (sample mode_sample) (_agg_nan_mode mode_sample).
Proof.
  apply (mode_highest_count_smallest_value mode_sample).
  - vm_compute. discriminate.
  - intros v. pose proof (occ_le_length v (sample mode_sample)) as H.
    change (length (sample mode_sample)) with 5%nat in H. lia.
Defined.

(** *** Empty samples *)

Lemma sample_nil_Forall x : sample x = [] → Forall (λ v, isnan v = true) x.
Proof.
  induction x as [|[|q] x IH]; intros H; [done|..].
  - rewrite sample_cons_nan in H. constructor; auto.
  - by rewrite sample_cons_fin in H.
Qed.

Lemma unique_scan_empty x s :
  sample x = [] → foldl unique_step s x = s.
Proof.
  intros H%sample_nil_Forall. revert s.
  induction H as [|v x Hv _ IH]; intros s; [done|].
  simpl. unfold unique_step at 2. rewrite Hv. apply IH.
Qed.

Lemma freq_scan_empty x st :
  sample x = [] → foldl freq_step st x = st.
Proof.
  intros H%sample_nil_Forall. revert st.
  induction H as [|v x Hv _ IH]; intros st; [done|].
  simpl. unfold freq_step at 2. rewrite Hv. apply IH.
Qed.

Lemma Qc_of_Z_0 : Qc_of_Z 0 = 0%Qc.
Proof. by apply Qc_is_canon. Qed.

Section empty_sample.
Context `{!Foreign}.
Variable x : list f64.
Hypothesis Hempty : sample x = [].

Lemma np_nanmean_empty : np_nanmean x = NaN.
Proof.
  unfold np_nanmean. rewrite (sample_nil_nonnan x Hempty).
  unfold fdiv, Qc_len. change (Z.of_nat (length [])) with 0.
  rewrite decide_True; [done|apply Qc_of_Z_0].
Qed.

Lemma np_nanvar_empty : np_nanvar x = NaN.
Proof. unfold np_nanvar. by rewrite np_nanmean_empty. Qed.

Lemma _agg_nan_mode_empty : _agg_nan_mode x = NaN.
Proof. rewrite _agg_nan_mode_unfold, Hempty. done. Qed.

Lemma _agg_nan_unique_empty : _agg_nan_unique x = NaN.
Proof.
  unfold _agg_nan_unique. rewrite (unique_scan_empty x ∅ Hempty). done.
Qed.

Lemma freq_scan_empty_sample : freq_scan x = (∅, 0).
Proof. apply (freq_scan_empty x _ Hempty). Qed.
End empty_sample.

(** C1.  On a sample whose null-filtered part is empty, ten of the eleven
    reducers return NaN; [_agg_nan_sum] returns 0. *)
Theorem empty_sample_reducers `{!Foreign} (x : list f64) :
  sample x = [] →
  _agg_nan_min x = NaN ∧ _agg_nan_max x = NaN ∧ _agg_nan_mean x = NaN
  ∧ _agg_nan_median x = NaN ∧ _agg_nan_mode x = NaN
  ∧ _agg_nan_std x = NaN ∧ _agg_nan_var x = NaN
  ∧ _agg_nan_unique x = NaN ∧ _agg_nan_entropy x = NaN
  ∧ _agg_nan_asm x = NaN
  ∧ _agg_nan_sum x = Fin 0%Qc.
Proof.
  intros Hempty. pose proof (sample_nil_nonnan x Hempty) as Hnn.
  repeat split.
  - unfold _agg_nan_min, np_nanmin. by rewrite Hnn.
  - unfold _agg_nan_max, np_nanmax. by rewrite Hnn.
  - by apply np_nanmean_empty.
  - unfold _agg_nan_median, np_nanmedian. by rewrite Hnn.
  - by apply _agg_nan_mode_empty.
  - unfold _agg_nan_std, np_nanstd. by rewrite np_nanvar_empty.
  - by apply np_nanvar_empty.
  - by apply _agg_nan_unique_empty.
  - unfold _agg_nan_entropy. by rewrite freq_scan_empty_sample.
  - unfold _agg_nan_asm. by rewrite freq_scan_empty_sample.
  - unfold _agg_nan_sum, np_nansum. by rewrite Hnn.
Qed.

Lemma empty_sample_reducers_witness :
  _agg_nan_unique [NaN; NaN; NaN] = NaN
  ∧ _agg_nan_sum [NaN; NaN; NaN] = Fin 0%Qc.
Proof.
  pose proof (@empty_sample_reducers example_foreign [NaN; NaN; NaN] eq_refl)
    as (_ & _ & _ & _ & _ & _ & _ & Hu & _ & _ & Hs).
  exact (conj Hu Hs).
Defined.

(** ** Tile kernels *)

(** *** Arrays written cell by cell *)

Lemma lookup2_set2 {A} (g : grid A) r c v i j :
  lookup2 (set2 g r c v) i j =
    if decide (i = r ∧ j = c) then (λ _, v) <$> lookup2 g i j
    else lookup2 g i j.
Proof.
  unfold lookup2, set2. destruct (decide (i = r)) as [->|Hir].
  - rewrite list_lookup_alter_eq. destruct (g !! r) as [row|]; simpl.
    + destruct (decide (j = c)) as [->|Hjc].
      * rewrite decide_True by done.
        destruct (decide (c < length row)%nat) as [Hlt|Hge].
        -- rewrite list_lookup_insert_eq by done.
           destruct (lookup_lt_is_Some_2 row c Hlt) as [y ->]. done.
        -- rewrite list_insert_ge by lia.
           rewrite (lookup_ge_None_2 row c) by lia. done.
      * rewrite decide_False by tauto. by rewrite list_lookup_insert_ne.
    + by destruct (decide _).
  - rewrite list_lookup_alter_ne by done. rewrite decide_False by tauto. done.
Qed.

Ltac fill_contra :=
  exfalso;
  first
    [ congruence
    | match goal with
      | H : ¬ _ |- False =>
          solve [apply H; repeat split; first [done | congruence | set_solver]]
      end
    | set_solver ].

Ltac solve_fill :=
  repeat case_decide; destruct_and?; simplify_eq;
  try match goal with |- context [lookup2 ?g ?i ?j] => by destruct (lookup2 g i j) end;
  try done;
  first
    [ fill_contra
    | match goal with
      | H : _ ∈ _ :: _ |- _ => apply elem_of_cons in H as [->|H]; fill_contra
      end ].

Lemma lookup2_fill_row {A} (f : nat → A) r cs : ∀ (g : grid A) i j,
  lookup2 (foldl (λ out c, set2 out r c (f c)) g cs) i j =
    if decide (i = r ∧ j ∈ cs) then (λ _, f j) <$> lookup2 g i j
    else lookup2 g i j.
Proof.
  induction cs as [|c cs IH]; intros g i j; simpl.
  - solve_fill.
  - rewrite IH, lookup2_set2. solve_fill.
Qed.

Lemma lookup2_fill {A} (f : nat → nat → A) rs cs : ∀ (g : grid A) i j,
  lookup2 (foldl (λ out r, foldl (λ out c, set2 out r c (f r c)) out cs) g rs) i j =
    if decide (i ∈ rs ∧ j ∈ cs) then (λ _, f i j) <$> lookup2 g i j
    else lookup2 g i j.
Proof.
  induction rs as [|r rs IH]; intros g i j; simpl.
  - solve_fill.
  - rewrite IH, (lookup2_fill_row (f r)). solve_fill.
Qed.

Lemma elem_of_range i a b : i ∈ range a b ↔ (a ≤ i < b)%nat.
Proof. unfold range. rewrite elem_of_seq. lia. Qed.

Lemma lookup2_np_full {A} rows cols (v : A) i j :
  (i < rows)%nat → (j < cols)%nat →
  lookup2 (np_full rows cols v) i j = Some v.
Proof.
  intros Hi Hj. unfold lookup2, np_full.
  rewrite lookup_replicate_2 by done. simpl. by apply lookup_replicate_2.
Qed.

(** Filling a loop nest keeps the shape of the array. *)
Lemma set2_shape {A} (g : grid A) r c v rows cols :
  has_shape g rows cols → has_shape (set2 g r c v) rows cols.
Proof.
  intros [Hr Hc]. unfold set2. split; [by rewrite length_alter|].
  rewrite Forall_lookup in Hc |- *. intros i row.
  destruct (decide (i = r)) as [->|Hne].
  - rewrite list_lookup_alter_eq. intros Hrow.
    apply fmap_Some in Hrow as (row' & Hrow' & ->).
    rewrite length_insert. by apply (Hc r).
  - rewrite list_lookup_alter_ne by done. apply Hc.
Qed.

Lemma fill_shape {A} (f : nat → nat → A) rs cs rows cols : ∀ (g : grid A),
  has_shape g rows cols →
  has_shape (foldl (λ out r, foldl (λ out c, set2 out r c (f r c)) out cs) g rs)
            rows cols.
Proof.
  induction rs as [|r rs IH]; intros g Hg; simpl; [done|].
  apply IH. clear IH. revert g Hg.
  induction cs as [|c cs IH]; intros g Hg; simpl; [done|].
  apply IH. by apply set2_shape.
Qed.

Lemma np_full_shape {A} rows cols (v : A) : has_shape (np_full rows cols v) rows cols.
Proof.
  split; [apply length_replicate|].
  apply Forall_replicate. apply length_replicate.
Qed.

Lemma has_shape_ncols {A} (g : grid A) rows cols :
  has_shape g rows cols → (0 < rows)%nat → ncols g = cols.
Proof.
  intros [Hr Hc] Hpos. destruct g as [|row g]; simpl in *; [lia|].
  by apply Forall_cons_1 in Hc as [? _].
Qed.

(** *** The halo is stripped *)

Lemma trim_shape {A} (x : grid A) rows cols rpad cpad :
  has_shape x rows cols →
  has_shape (trim rpad cpad x) (rows - 2 * rpad) (cols - 2 * cpad).
Proof.
  intros [Hr Hc]. unfold trim. split.
  - rewrite length_fmap, length_take, length_drop. lia.
  - apply Forall_fmap. apply Forall_take, Forall_drop.
    eapply Forall_impl; [exact Hc|]. intros row Hrow. simpl in *.
    rewrite length_take, length_drop. lia.
Qed.

Lemma lookup2_trim {A} (x : grid A) rows cols rpad cpad i j :
  has_shape x rows cols →
  (i < rows - 2 * rpad)%nat → (j < cols - 2 * cpad)%nat →
  lookup2 (trim rpad cpad x) i j = lookup2 x (rpad + i) (cpad + j).
Proof.
  intros [Hr Hc] Hi Hj. unfold lookup2, trim.
  rewrite list_lookup_fmap, lookup_take_lt by lia. rewrite lookup_drop.
  destruct (x !! (rpad + i)%nat) as [row|] eqn:Hrow; simpl; [|done].
  rewrite Forall_lookup in Hc. specialize (Hc _ _ Hrow). simpl in Hc.
  rewrite lookup_take_lt by lia. by rewrite lookup_drop.
Qed.

Lemma written_shape (x : grid (option f64)) rows cols :
  has_shape x rows cols → has_shape (written x) rows cols.
Proof.
  intros [Hr Hc]. unfold written. split; [by rewrite length_fmap|].
  apply Forall_fmap. eapply Forall_impl; [exact Hc|].
  intros row Hrow. simpl. by rewrite length_fmap.
Qed.

Lemma lookup2_written (x : grid (option f64)) i j :
  lookup2 (written x) i j = default NaN <$> lookup2 x i j.
Proof.
  unfold lookup2, written. rewrite list_lookup_fmap.
  destruct (x !! i) as [row|]; simpl; [|done]. apply list_lookup_fmap.
Qed.

Lemma np_empty_like_shape (chunk : grid f64) rows cols :
  has_shape chunk rows cols → has_shape (np_empty_like chunk) rows cols.
Proof.
  intros Hs. unfold np_empty_like, nrows.
  destruct (decide (rows = 0)%nat) as [->|Hpos].
  - destruct Hs as [Hr _]. apply nil_length_inv in Hr as ->. by split.
  - rewrite (has_shape_ncols chunk rows cols) by (done || lia).
    destruct Hs as [-> _]. apply np_full_shape.
Qed.

Lemma lookup2_np_empty_like (chunk : grid f64) rows cols i j :
  has_shape chunk rows cols → (i < rows)%nat → (j < cols)%nat →
  lookup2 (np_empty_like chunk) i j = Some None.
Proof.
  intros Hs Hi Hj. unfold np_empty_like, nrows.
  rewrite (has_shape_ncols chunk rows cols) by (done || lia).
  destruct Hs as [-> _]. by apply lookup2_np_full.
Qed.

(** C2.  On a padded tile of shape [rows] x [cols], [_focal_chunk]
    returns an array of the tile's shape in which exactly the cells
    strictly inside the halo border hold a reducer result (the reducer
    applied to the cell's neighborhood) and every other cell is left
    unwritten; [map_overlap] strips the halo from it, and what is left has
    the interior shape and a reducer result in every cell. *)
Theorem focal_tile_interior `{!Foreign} (chunk : grid f64) (kernel : grid bool)
    (func : list f64 → f64) (rows cols : nat) :
  has_shape chunk rows cols →
  let rpad := (pad_depth (nrows kernel, ncols kernel)).1 in
  let cpad := (pad_depth (nrows kernel, ncols kernel)).2 in
  let out := _focal_chunk chunk kernel func in
  (∀ data bnd,
     da_overlap bnd rpad cpad (a2_data data) = chunk →
     a2_data (_focal_dispatch (OpFocal kernel func) data bnd)
     = trim rpad cpad (written out))
  ∧ has_shape out rows cols
  ∧ (∀ i j, (i < rows)%nat → (j < cols)%nat →
       lookup2 out i j
       = Some (if decide (inside rows cols rpad cpad i j)
               then Some (func (neighborhood chunk kernel i j))
               else None))
  ∧ has_shape (trim rpad cpad (written out)) (rows - 2 * rpad) (cols - 2 * cpad)
  ∧ (∀ i j, (i < rows - 2 * rpad)%nat → (j < cols - 2 * cpad)%nat →
       lookup2 (trim rpad cpad (written out)) i j
       = Some (func (neighborhood chunk kernel (rpad + i) (cpad + j)))).
Proof.
  intros Hs rpad cpad out.
  assert (Hout : has_shape out rows cols).
  { unfold out, _focal_chunk. apply fill_shape. by apply np_empty_like_shape. }
  assert (Hcells : ∀ i j, (i < rows)%nat → (j < cols)%nat →
            lookup2 out i j
            = Some (if decide (inside rows cols rpad cpad i j)
                    then Some (func (neighborhood chunk kernel i j))
                    else None)).
  { intros i j Hi Hj. unfold out, _focal_chunk.
    rewrite (lookup2_fill (λ r c, Some (func (gather chunk (ravel kernel)
               (nrows kernel * ncols kernel) ((nrows kernel - 1) / 2)
               (nrows kernel / 2) ((ncols kernel - 1) / 2) (ncols kernel / 2) r c)))).
    rewrite (lookup2_np_empty_like chunk rows cols) by done.
    rewrite (has_shape_ncols chunk rows cols) by (done || lia).
    replace (nrows chunk) with rows by (symmetry; apply Hs).
    destruct (decide (inside rows cols rpad cpad i j)) as [Hin|Hout'].
    - rewrite decide_True; [done|].
      rewrite !elem_of_range. exact Hin.
    - rewrite decide_False; [done|].
      rewrite !elem_of_range. exact Hout'. }
  split; [|split; [done|split; [done|split]]].
  - intros data bnd Hpad. unfold out. rewrite <-Hpad. reflexivity.
  - apply trim_shape. by apply written_shape.
  - intros i j Hi Hj.
    rewrite (lookup2_trim _ rows cols) by (done || by apply written_shape).
    rewrite lookup2_written, Hcells by lia. simpl.
    rewrite decide_True; [done|]. unfold inside. lia.
Qed.

(** *** The null-aware weighted sum *)

Lemma offsets_span n : (0 < n)%nat → ((n - 1) / 2 + n / 2 + 1 = n)%nat.
Proof.
  intros Hn. destruct (Nat.Even_or_Odd n) as [[k ->]|[k ->]].
  - replace (2 * k - 1)%nat with (1 + (k - 1) * 2)%nat by lia.
    rewrite Nat.div_add by lia. rewrite (Nat.mul_comm 2 k), Nat.div_mul by lia.
    simpl. lia.
  - replace (2 * k + 1 - 1)%nat with (k * 2)%nat by lia.
    rewrite Nat.div_mul by lia.
    replace (2 * k + 1)%nat with (1 + k * 2)%nat by lia.
    rewrite Nat.div_add by lia. simpl. lia.
Qed.

Lemma range_span a top bot n :
  (top ≤ a)%nat → (top + bot + 1 = n)%nat →
  range (a - top) (a + bot + 1) = seq (a - top) n.
Proof. intros Ha Hn. unfold range. f_equal. lia. Qed.

Lemma corr_row chunk kflat kr : ∀ wrow pre post vq kc,
  kflat = pre ++ wrow ++ post →
  Forall (λ w, isnan w = false) wrow →
  foldl (corr_cell chunk kflat kr) (Fin vq, length pre) (seq kc (length wrow))
  = (Fin (vq + weighted_row chunk kr kc wrow)%Qc,
     (length pre + length wrow)%nat).
Proof.
  induction wrow as [|w wrow IH]; intros pre post vq kc Hk Hnan; simpl.
  - rewrite Qcplus_0_r, Nat.add_0_r. done.
  - apply Forall_cons_1 in Hnan as [Hw Hnan].
    assert (Hlk : kflat !! length pre = Some w)
      by (rewrite Hk; by apply list_lookup_middle).
    rewrite Hlk. simpl.
    replace (S (length pre)) with (length (pre ++ [w]))
      by (rewrite length_app; simpl; lia).
    destruct w as [|wq]; [done|].
    destruct (chunk_at chunk kr kc) as [|s] eqn:Hsrc; simpl.
    + rewrite (IH (pre ++ [Fin wq]) post) by (by rewrite <-?app_assoc).
      rewrite length_app. simpl. f_equal; [|lia].
      f_equal. rewrite Qcplus_0_l. done.
    + rewrite (IH (pre ++ [Fin wq]) post) by (by rewrite <-?app_assoc).
      rewrite length_app. simpl. f_equal; [|lia].
      f_equal. by rewrite Qcplus_assoc.
Qed.

Lemma corr_rows chunk kflat kcols kc : ∀ kernel pre post vq kr,
  kflat = pre ++ concat kernel ++ post →
  Forall (λ row, length row = kcols) kernel →
  nan_free kernel →
  foldl (λ st kr, foldl (corr_cell chunk kflat kr) st (seq kc kcols))
        (Fin vq, length pre) (seq kr (length kernel))
  = (Fin (vq + weighted_sum chunk kr kc kernel)%Qc,
     (length pre + length (concat kernel))%nat).
Proof.
  induction kernel as [|wrow kernel IH]; intros pre post vq kr Hk Hcols Hnan; simpl.
  - rewrite Qcplus_0_r, Nat.add_0_r. done.
  - apply Forall_cons_1 in Hcols as [Hlen Hcols].
    apply Forall_cons_1 in Hnan as [Hw Hnan].
    simpl in Hk. rewrite <-app_assoc in Hk.
    rewrite <-Hlen.
    rewrite (corr_row chunk kflat kr wrow pre (concat kernel ++ post))
      by done.
    replace (length pre + length wrow)%nat with (length (pre ++ wrow))
      by by rewrite length_app.
    rewrite Hlen.
    rewrite (IH (pre ++ wrow) post) by (done || by rewrite <-app_assoc).
    rewrite !length_app. f_equal; [|lia].
    f_equal. by rewrite Qcplus_assoc.
Qed.

Lemma corr_at_weighted_sum chunk kernel krows kcols r c :
  has_shape kernel krows kcols →
  (0 < krows)%nat → (0 < kcols)%nat →
  nan_free kernel →
  ((krows - 1) / 2 ≤ r)%nat → ((kcols - 1) / 2 ≤ c)%nat →
  corr_at chunk (ravel kernel) ((krows - 1) / 2) (krows / 2)
          ((kcols - 1) / 2) (kcols / 2) r c
  = Fin (weighted_sum chunk (r - (krows - 1) / 2) (c - (kcols - 1) / 2) kernel).
Proof.
  intros [Hr Hc] Hkr Hkc Hnan Hrt Hcl. unfold corr_at.
  rewrite (range_span r _ _ krows) by (done || by apply offsets_span).
  rewrite (range_span c _ _ kcols) by (done || by apply offsets_span).
  pose proof (corr_rows chunk (ravel kernel) kcols (c - (kcols - 1) / 2)
                kernel [] [] 0%Qc (r - (krows - 1) / 2)) as H.
  cbn [length app Nat.add] in H. rewrite Hr in H. rewrite H; [|by rewrite app_nil_r|done..].
  cbn [fst]. by rewrite Qcplus_0_l.
Qed.

(** C8.  In [_correlate2d_chunk], with a kernel free of NaN, every cell
    strictly inside the halo border holds the sum, over the kernel
    positions, of weight times source value restricted to the sources that
    are not NaN: a NaN source adds nothing, and the cell is a number. *)
Theorem correlate_chunk_skips_nan (chunk kernel : grid f64)
    (rows cols krows kcols : nat) :
  has_shape chunk rows cols →
  has_shape kernel krows kcols →
  (0 < krows)%nat → (0 < kcols)%nat →
  nan_free kernel →
  let rpad := (pad_depth (krows, kcols)).1 in
  let cpad := (pad_depth (krows, kcols)).2 in
  ∀ i j, inside rows cols rpad cpad i j →
    lookup2 (_correlate2d_chunk chunk kernel) i j
    = Some (Some (Fin (weighted_sum chunk (i - (krows - 1) / 2)
                                    (j - (kcols - 1) / 2) kernel))).
Proof.
  intros Hs Hk Hkr Hkc Hnan rpad cpad i j [Hi Hj].
  assert (Hrows : (0 < rows)%nat) by lia.
  unfold _correlate2d_chunk.
  replace (nrows kernel) with krows by (symmetry; apply Hk).
  rewrite (has_shape_ncols kernel krows kcols) by done.
  rewrite (lookup2_fill (λ r c, Some (corr_at chunk (ravel kernel)
             ((krows - 1) / 2) (krows / 2) ((kcols - 1) / 2) (kcols / 2) r c))).
  rewrite (lookup2_np_empty_like chunk rows cols) by (done || lia).
  rewrite (has_shape_ncols chunk rows cols) by done.
  replace (nrows chunk) with rows by (symmetry; apply Hs).
  rewrite decide_True by (rewrite !elem_of_range; done).
  simpl. do 2 f_equal.
  apply (corr_at_weighted_sum chunk kernel krows kcols); try done.
  - cbv [rpad pad_depth _get_offsets fst snd] in Hi. lia.
  - cbv [cpad pad_depth _get_offsets fst snd] in Hj. lia.
Qed.

(** *** The gathered neighborhood *)

Lemma footprint_row_length chunk kr krow : ∀ kc,
  length (footprint_row chunk kr kc krow) = length krow.
Proof. induction krow as [|b krow IH]; intros kc; simpl; [done|]. by rewrite IH. Qed.

Lemma gather_row chunk kflat kr : ∀ krow pre post vals n kc,
  kflat = pre ++ krow ++ post →
  length vals = length pre →
  foldl (gather_cell chunk kflat kr)
        (vals ++ replicate (length krow + n) NaN, length pre)
        (seq kc (length krow))
  = (vals ++ footprint_row chunk kr kc krow ++ replicate n NaN,
     (length pre + length krow)%nat).
Proof.
  induction krow as [|b krow IH]; intros pre post vals n kc Hk Hlen; simpl.
  - by rewrite Nat.add_0_r.
  - assert (Hlk : kflat !! length pre = Some b)
      by (rewrite Hk; by apply list_lookup_middle).
    rewrite Hlk. simpl.
    assert (Hins : ∀ v, <[length pre := v]> (vals ++ NaN :: replicate (length krow + n) NaN)
                        = (vals ++ [v]) ++ replicate (length krow + n) NaN).
    { intros v. rewrite insert_app_r_alt by lia.
      rewrite Hlen, Nat.sub_diag. simpl. by rewrite <-app_assoc. }
    replace (S (length pre)) with (length (pre ++ [b]))
      by (rewrite length_app; simpl; lia).
    assert (Hk' : kflat = (pre ++ [b]) ++ krow ++ post) by by rewrite <-app_assoc.
    assert (Hlen' : ∀ v : f64, length (vals ++ [v]) = length (pre ++ [b]))
      by (intros v; rewrite !length_app; simpl; lia).
    destruct b.
    + rewrite Hins, (IH _ post _ n (S kc) Hk' (Hlen' _)).
      rewrite <-app_assoc, length_app. simpl. f_equal. lia.
    + replace (vals ++ NaN :: replicate (length krow + n) NaN)
        with ((vals ++ [NaN]) ++ replicate (length krow + n) NaN)
        by by rewrite <-app_assoc.
      rewrite (IH _ post _ n (S kc) Hk' (Hlen' _)).
      rewrite <-app_assoc, length_app. simpl. f_equal. lia.
Qed.

Lemma gather_rows chunk kflat kcols kc : ∀ kernel pre post vals n kr,
  kflat = pre ++ concat kernel ++ post →
  Forall (λ row, length row = kcols) kernel →
  length vals = length pre →
  foldl (λ st kr, foldl (gather_cell chunk kflat kr) st (seq kc kcols))
        (vals ++ replicate (length (concat kernel) + n) NaN, length pre)
        (seq kr (length kernel))
  = (vals ++ footprint_values chunk kr kc kernel ++ replicate n NaN,
     (length pre + length (concat kernel))%nat).
Proof.
  induction kernel as [|krow kernel IH]; intros pre post vals n kr Hk Hcols Hlen; simpl.
  - by rewrite Nat.add_0_r.
  - apply Forall_cons_1 in Hcols as [Hrow Hcols].
    simpl in Hk. rewrite <-app_assoc in Hk.
    rewrite <-Hrow, length_app, <-Nat.add_assoc.
    rewrite (gather_row chunk kflat kr krow pre (concat kernel ++ post)) by done.
    replace (length pre + length krow)%nat with (length (pre ++ krow))
      by by rewrite length_app.
    rewrite Hrow, (app_assoc vals).
    rewrite (IH (pre ++ krow) post) by
      (rewrite <-?app_assoc, ?length_app, ?footprint_row_length; done || lia).
    rewrite <-!app_assoc, !length_app. f_equal. lia.
Qed.

Lemma concat_length_shape {A} (g : grid A) rows cols :
  has_shape g rows cols → length (concat g) = (rows * cols)%nat.
Proof.
  intros [<- Hc]. induction Hc as [|row g Hrow _ IH]; simpl; [done|].
  rewrite length_app, IH, Hrow. done.
Qed.

Lemma example_tile_shape : has_shape example_tile 4 4.
Proof. split; [done|]. repeat constructor. Qed.

Lemma focal_tile_interior_witness :
  has_shape (trim 1 1 (written (_focal_chunk example_tile example_footprint _agg_nan_sum)))
            2 2.
Proof.
  pose proof (@focal_tile_interior example_foreign example_tile
                example_footprint _agg_nan_sum 4 4 example_tile_shape)
    as (_ & _ & _ & Hs & _).
  exact Hs.
Defined.

Lemma correlate_chunk_skips_nan_witness :
  lookup2 (_correlate2d_chunk example_tile example_weights) 1 1
  = Some (Some (f64_of_Z 39)).
Proof.
  rewrite (correlate_chunk_skips_nan example_tile example_weights 4 4 2 2).
  - do 2 f_equal. unfold f64_of_Z. f_equal. apply Qc_is_canon.
    vm_compute. reflexivity.
  - exact example_tile_shape.
  - split; [done|]. repeat constructor.
  - lia.
  - lia.
  - repeat constructor.
  - unfold inside. simpl. lia.
Defined.

(** A cell whose whole neighborhood is null, through the tile kernel: the
    minimum is NaN, the sum is 0. *)
Example focal_chunk_all_null :
  lookup2 (_focal_chunk (np_full 3 3 NaN) example_footprint _agg_nan_min) 1 1
  = Some (Some NaN)
  ∧ lookup2 (_focal_chunk (np_full 3 3 NaN) example_footprint _agg_nan_sum) 1 1
    = Some (Some (Fin 0%Qc)).
Proof. split; vm_compute; reflexivity. Qed.

(** ** The footprint builder *)

(** The exact test and its binary64 evaluation agree for every radius up
    to 32 and every squared distance a window of that radius can hold. *)
Example np_sqrt_le_float64_agrees :
  forallb (λ r, forallb (λ d, Bool.eqb (np_sqrt_le d r) (np_sqrt_le_float64 d r))
                        (seqZ 0 (2 * r * r + 1)))
          (seqZ 0 33) = true.
Proof. vm_compute. reflexivity. Qed.

Lemma lookup2_fill_if {A} (p : nat → nat → bool) (v : A) rs cs : ∀ (g : grid A) i j,
  lookup2 (foldl (λ out r,
                    foldl (λ out c, if p r c then set2 out r c v else out) out cs)
                 g rs) i j =
    if decide (i ∈ rs ∧ j ∈ cs ∧ p i j = true) then (λ _, v) <$> lookup2 g i j
    else lookup2 g i j.
Proof.
  assert (Hrow : ∀ r (g : grid A) i j,
    lookup2 (foldl (λ out c, if p r c then set2 out r c v else out) g cs) i j =
      if decide (i = r ∧ j ∈ cs ∧ p i j = true) then (λ _, v) <$> lookup2 g i j
      else lookup2 g i j).
  { intros r. induction cs as [|c cs IH]; intros g i j; simpl.
    - solve_fill.
    - rewrite IH. destruct (p r c) eqn:Hp.
      + rewrite lookup2_set2. solve_fill.
      + solve_fill. }
  induction rs as [|r rs IH]; intros g i j; simpl.
  - solve_fill.
  - rewrite IH, Hrow. solve_fill.
Qed.

Lemma fill_if_shape {A} (p : nat → nat → bool) (v : A) rs cs rows cols : ∀ (g : grid A),
  has_shape g rows cols →
  has_shape (foldl (λ out r,
                      foldl (λ out c, if p r c then set2 out r c v else out) out cs)
                   g rs) rows cols.
Proof.
  induction rs as [|r rs IH]; intros g Hg; simpl; [done|].
  apply IH. clear IH. revert g Hg.
  induction cs as [|c cs IH]; intros g Hg; simpl; [done|].
  apply IH. destruct (p r c); [by apply set2_shape|done].
Qed.

Lemma circle_window_shape r :
  has_shape (circle_window r) (circle_side r) (circle_side r).
Proof.
  unfold circle_window, circle_side.
  replace ((r - 1) * 2 + 1) with (2 * r - 1) by lia.
  apply (fill_if_shape
           (λ x y, np_sqrt_le ((Z.of_nat x - (2 * r - 1 - 1) `div` 2) ^ 2
                               + (Z.of_nat y - (2 * r - 1 - 1) `div` 2) ^ 2)
                              ((2 * r - 1 - 1) `div` 2))).
  apply np_full_shape.
Qed.

Lemma lookup2_circle_window r x y :
  (x < circle_side r)%nat → (y < circle_side r)%nat →
  lookup2 (circle_window r) x y = Some (in_circle r x y).
Proof.
  intros Hx Hy. unfold circle_window. fold (circle_side r).
  replace ((r - 1) * 2 + 1) with (2 * r - 1) by lia.
  fold (circle_side r).
  replace ((2 * r - 1 - 1) `div` 2) with (r - 1)
    by (replace (2 * r - 1 - 1) with ((r - 1) * 2) by lia;
        by rewrite Z.div_mul).
  rewrite (lookup2_fill_if
             (λ x y, np_sqrt_le ((Z.of_nat x - (r - 1)) ^ 2
                                 + (Z.of_nat y - (r - 1)) ^ 2) (r - 1))).
  rewrite lookup2_np_full by done.
  unfold in_circle, np_sqrt_le.
  replace ((r - 1) * (r - 1)) with ((r - 1) ^ 2) by lia.
  destruct (Z.leb_spec ((Z.of_nat x - (r - 1)) ^ 2 + (Z.of_nat y - (r - 1)) ^ 2)
                       ((r - 1) ^ 2)) as [Hle|Hgt].
  - rewrite decide_True by (rewrite !elem_of_range; lia).
    by rewrite bool_decide_eq_true_2.
  - rewrite decide_False by (intros (_ & _ & ?); done).
    by rewrite bool_decide_eq_false_2 by lia.
Qed.

Lemma get_focal_window_radius r :
  0 < r → get_focal_window (Scalar (PInt r)) PNone = Ok (circle_window r).
Proof.
  intros Hr. unfold get_focal_window. simpl.
  destruct (Z.leb_spec r 0); [lia|]. done.
Qed.

(** C3.  For every integer [r > 0], the footprint built from the single
    radius [r] is a [(2r-1)] x [(2r-1)] boolean grid whose cell [(x, y)] is
    true exactly when its squared Euclidean distance to the center
    [(r-1, r-1)] is at most [(r-1)^2]. *)
Theorem circle_footprint (r : Z) :
  0 < r →
  ∃ w, get_focal_window (Scalar (PInt r)) PNone = Ok w
       ∧ has_shape w (Z.to_nat (2 * r - 1)) (Z.to_nat (2 * r - 1))
       ∧ ∀ x y : nat,
           (x < Z.to_nat (2 * r - 1))%nat → (y < Z.to_nat (2 * r - 1))%nat →
           lookup2 w x y
           = Some (bool_decide ((Z.of_nat x - (r - 1)) ^ 2
                                + (Z.of_nat y - (r - 1)) ^ 2 ≤ (r - 1) ^ 2)).
Proof.
  intros Hr. exists (circle_window r). split; [|split].
  - by apply get_focal_window_radius.
  - apply circle_window_shape.
  - intros x y Hx Hy. by apply lookup2_circle_window.
Qed.

Lemma circle_footprint_witness :
  0 < 2
  ∧ ∃ w, get_focal_window (Scalar (PInt 2)) PNone = Ok w
         ∧ has_shape w 3 3
         ∧ lookup2 w 0 1 = Some true
         ∧ lookup2 w 0 0 = Some false.
Proof.
  split; [lia|].
  destruct (circle_footprint 2) as (w & Hw & Hs & Hc); [lia|].
  exists w. split; [exact Hw|]. split; [exact Hs|]. split.
  - apply (Hc 0%nat 1%nat); simpl; lia.
  - apply (Hc 0%nat 0%nat); simpl; lia.
Defined.

(** The windows the test suite of the package expects for the radii 2,
    3 and 4. *)
Example focal_window_radius_2 :
  get_focal_window (Scalar (PInt 2)) PNone
  = Ok [ [false; true; false];
         [true; true; true];
         [false; true; false] ].
Proof. vm_compute. reflexivity. Qed.

Example focal_window_radius_3 :
  get_focal_window (Scalar (PInt 3)) PNone
  = Ok [ [false; false; true; false; false];
         [false; true; true; true; false];
         [true; true; true; true; true];
         [false; true; true; true; false];
         [false; false; true; false; false] ].
Proof. vm_compute. reflexivity. Qed.

Example focal_window_radius_4 :
  get_focal_window (Scalar (PInt 4)) PNone
  = Ok [ [false; false; false; true; false; false; false];
         [false; true; true; true; true; true; false];
         [false; true; true; true; true; true; false];
         [true; true; true; true; true; true; true];
         [false; true; true; true; true; true; false];
         [false; true; true; true; true; true; false];
         [false; false; false; true; false; false; false] ].
Proof. vm_compute. reflexivity. Qed.

(** *** The annulus *)

Lemma lookup2_clear_where (w2 w1 : grid bool) x y :
  lookup2 (clear_where w2 w1) x y =
    b2 ← lookup2 w2 x y; b1 ← lookup2 w1 x y; Some (if b1 : bool then false else b2).
Proof.
  unfold lookup2, clear_where. rewrite lookup_zip_with.
  destruct (w2 !! x) as [row2|]; simpl; [|done].
  destruct (w1 !! x) as [row1|]; simpl.
  - rewrite lookup_zip_with. done.
  - by destruct (row2 !! y).
Qed.

Lemma clear_where_shape (w2 w1 : grid bool) rows cols :
  has_shape w2 rows cols → has_shape w1 rows cols →
  has_shape (clear_where w2 w1) rows cols.
Proof.
  intros [Hr2 Hc2] [Hr1 Hc1]. unfold clear_where. split.
  - rewrite length_zip_with. lia.
  - rewrite Forall_lookup in Hc1, Hc2 |- *. intros i row Hrow.
    apply lookup_zip_with_Some in Hrow as (row2 & row1 & -> & H2 & H1).
    rewrite length_zip_with. rewrite (Hc2 _ _ H2), (Hc1 _ _ H1). lia.
Qed.

Lemma np_pad_shape {A} (a : grid A) rows cols before after (fill : A) :
  has_shape a rows cols → (0 < rows)%nat →
  has_shape (np_pad a before after fill)
            (before + rows + after) (before + cols + after).
Proof.
  intros Hs Hpos. unfold np_pad.
  rewrite (has_shape_ncols a rows cols) by done.
  destruct Hs as [Hr Hc]. split.
  - rewrite !length_app, !length_replicate, length_fmap. lia.
  - rewrite !Forall_app. split; [|split].
    + apply Forall_replicate. apply length_replicate.
    + apply Forall_fmap. eapply Forall_impl; [exact Hc|].
      intros row Hrow. simpl in *.
      rewrite !length_app, !length_replicate. lia.
    + apply Forall_replicate. apply length_replicate.
Qed.

Lemma get_focal_window_radii r1 r2 :
  0 < r1 → r1 < r2 →
  get_focal_window (Sequence [PInt r1; PInt r2]) PNone
  = Ok (annulus_window (circle_window r1) (circle_window r2)).
Proof.
  intros H1 H2. unfold get_focal_window. simpl.
  destruct (Z.leb_spec r2 r1); [lia|]. simpl.
  destruct (Z.leb_spec r1 0); [lia|].
  destruct (Z.leb_spec r2 0); [lia|]. done.
Qed.

(** C7.  For integers [0 < r1 < r2] the annulus built from the pair
    [(r1, r2)] has the shape of the circle footprint of [r2]; the circle
    footprint of [r1], padded with false by [(size2 - size1) // 2] on each
    side, has that shape too, and every cell that is true in it is false in
    the annulus; and every true cell of the annulus is true in the circle
    footprint of [r2]. *)
Theorem annulus_footprint (r1 r2 : Z) :
  0 < r1 → r1 < r2 →
  ∃ a c1 c2,
    get_focal_window (Sequence [PInt r1; PInt r2]) PNone = Ok a
    ∧ get_focal_window (Scalar (PInt r1)) PNone = Ok c1
    ∧ get_focal_window (Scalar (PInt r2)) PNone = Ok c2
    ∧ has_shape c2 (nrows c2) (ncols c2)
    ∧ has_shape a (nrows c2) (ncols c2)
    ∧ let padding := ((nrows c2 - nrows c1) / 2)%nat in
      let padded := np_pad c1 padding padding false in
      has_shape padded (nrows c2) (ncols c2)
      ∧ (∀ x y, lookup2 padded x y = Some true → lookup2 a x y = Some false)
      ∧ (∀ x y, lookup2 a x y = Some true → lookup2 c2 x y = Some true).
Proof.
  intros H1 H2.
  exists (annulus_window (circle_window r1) (circle_window r2)),
         (circle_window r1), (circle_window r2).
  pose proof (circle_window_shape r1) as Hs1.
  pose proof (circle_window_shape r2) as Hs2.
  assert (Hn1 : (0 < circle_side r1)%nat) by (unfold circle_side; lia).
  assert (Hn2 : (0 < circle_side r2)%nat) by (unfold circle_side; lia).
  assert (Hr1 : nrows (circle_window r1) = circle_side r1) by apply Hs1.
  assert (Hr2 : nrows (circle_window r2) = circle_side r2) by apply Hs2.
  pose proof (has_shape_ncols _ _ _ Hs1 Hn1) as Hc1.
  pose proof (has_shape_ncols _ _ _ Hs2 Hn2) as Hc2.
  assert (Hpad : ((circle_side r2 - circle_side r1) / 2)%nat
                 = Z.to_nat (r2 - r1)).
  { replace (circle_side r2 - circle_side r1)%nat
      with (Z.to_nat (r2 - r1) * 2)%nat by (unfold circle_side; lia).
    by rewrite Nat.div_mul. }
  assert (Hpadded : has_shape
            (np_pad (circle_window r1) (Z.to_nat (r2 - r1)) (Z.to_nat (r2 - r1)) false)
            (circle_side r2) (circle_side r2)).
  { replace (circle_side r2)
      with (Z.to_nat (r2 - r1) + circle_side r1 + Z.to_nat (r2 - r1))%nat
      by (unfold circle_side; lia).
    by apply np_pad_shape. }
  assert (Hann : annulus_window (circle_window r1) (circle_window r2)
                 = clear_where (circle_window r2)
                     (np_pad (circle_window r1) (Z.to_nat (r2 - r1))
                             (Z.to_nat (r2 - r1)) false)).
  { unfold annulus_window. cbn [fst snd]. by rewrite Hr1, Hr2, Hc1, Hc2, Hpad. }
  rewrite Hr1, Hr2, Hc2, Hpad, Hann.
  split; [by rewrite <-Hann; apply get_focal_window_radii|].
  split; [by apply get_focal_window_radius|].
  split; [apply get_focal_window_radius; lia|].
  split; [done|].
  split; [by apply clear_where_shape|].
  cbv zeta. split; [done|]. split.
  - intros x y Hxy. rewrite lookup2_clear_where, Hxy.
    assert (Hx : (x < circle_side r2)%nat ∧ (y < circle_side r2)%nat).
    { unfold lookup2 in Hxy. destruct Hpadded as [Hr Hc].
      destruct (np_pad _ _ _ _ !! x) as [row|] eqn:Hrow; [|done].
      apply lookup_lt_Some in Hrow as Hx. simpl in Hxy.
      apply lookup_lt_Some in Hxy.
      rewrite Forall_lookup in Hc. specialize (Hc _ _ Hrow). simpl in Hc. lia. }
    rewrite lookup2_circle_window by tauto. done.
  - intros x y. rewrite lookup2_clear_where.
    destruct (lookup2 (circle_window r2) x y) as [b2|]; [|done]. simpl.
    destruct (lookup2 (np_pad _ _ _ _) x y) as [[|]|]; simpl; congruence.
Qed.

Lemma annulus_footprint_witness :
  ∃ a, get_focal_window (Sequence [PInt 1; PInt 2]) PNone = Ok a
       ∧ has_shape a 3 3.
Proof.
  destruct (annulus_footprint 1 2) as (a & c1 & c2 & Ha & _ & Hc2 & _ & Hsa & _);
    [lia..|].
  exists a. split; [exact Ha|].
  rewrite focal_window_radius_2 in Hc2. injection Hc2 as <-. exact Hsa.
Defined.

Example focal_window_annulus_1_3 :
  get_focal_window (Sequence [PInt 1; PInt 3]) PNone
  = Ok [ [false; false; true; false; false];
         [false; true; true; true; false];
         [true; true; false; true; true];
         [false; true; true; true; false];
         [false; false; true; false; false] ].
Proof. vm_compute. reflexivity. Qed.

(** *** Validation *)

Lemma positive_int_PInt n : positive_int (PInt n) ↔ 0 < n.
Proof.
  split; [intros (m & Heq & Hm); by simplify_eq|]. intros Hn. by exists n.
Qed.

Lemma not_positive_int_PFloat q : ¬ positive_int (PFloat q).
Proof. by intros (m & Heq & Hm). Qed.

Lemma not_positive_int_PStr s : ¬ positive_int (PStr s).
Proof. by intros (m & Heq & Hm). Qed.

Lemma not_positive_int_PNone : ¬ positive_int PNone.
Proof. by intros (m & Heq & Hm). Qed.

(** A spec is either rejected or built: which one is decided by
    [malformed]. *)
Ltac validation_cases :=
  repeat match goal with
         | |- context [Z.leb ?a ?b] => destruct (Z.leb_spec a b)
         | |- context [bool_decide ?P] => destruct (bool_decide P)
         | |- context [String.leb ?a ?b] => destruct (String.leb a b)
         | _ => progress simpl
         end.

Ltac validation_leaf :=
  first
    [ left; split; [eexists; reflexivity|];
      rewrite ?positive_int_PInt;
      first [ tauto | lia
            | intros [?|[?|[?|?]]]; first [lia | done | congruence | tauto]
            | intros [?|[? ?]]; first [lia | done | congruence | tauto] ]
    | right; split; [eexists; reflexivity|];
      rewrite ?positive_int_PInt;
      pose proof not_positive_int_PNone;
      pose proof not_positive_int_PFloat;
      pose proof not_positive_int_PStr;
      first [ done | tauto | lia | naive_solver lia ] ].

Lemma get_focal_window_cases width_or_radius height :
  ((∃ w, get_focal_window width_or_radius height = Ok w)
   ∧ ¬ malformed width_or_radius height)
  ∨ ((∃ e, get_focal_window width_or_radius height = Err e)
     ∧ malformed width_or_radius height).
Proof.
  unfold get_focal_window.
  destruct width_or_radius as [v|l].
  - destruct v as [n|q|s|]; destruct height as [m|q'|s'|];
      simpl; validation_cases; validation_leaf.
  - destruct l as [|a [|b [|c l]]].
    + right. split; [by eexists|done].
    + right. split; [by eexists|done].
    + destruct a as [n1|q1|s1|], b as [n2|q2|s2|], height as [m|q'|s'|];
        simpl; validation_cases; validation_leaf.
    + right. split; [by eexists|done].
Qed.

Lemma focal_window_error `{!Foreign} p focal_type width_or_radius height h e :
  get_focal_window width_or_radius height = Err e →
  ∃ e', focal (ARaster p) focal_type width_or_radius height h = (Err e', h).
Proof.
  intros Hw. unfold focal, as_raster.
  unfold mbind at 1, St_bind, mret at 1, St_ret.
  destruct (bool_decide (focal_type ∉ FOCAL_STATS)).
  - by eexists.
  - unfold mbind at 1. rewrite Hw. unfold lift. by eexists.
Qed.

(** C9.  [get_focal_window] raises exactly on a malformed spec and
    returns a footprint on every other one; through [focal] the error
    comes before the raster is copied or any band is touched: the store
    is as it was. *)
Theorem footprint_validation (width_or_radius : py_arg) (height : pyval) :
  (malformed width_or_radius height ↔
     ∃ e, get_focal_window width_or_radius height = Err e)
  ∧ (¬ malformed width_or_radius height ↔
       ∃ w, get_focal_window width_or_radius height = Ok w)
  ∧ (malformed width_or_radius height →
       ∀ (F : Foreign) p focal_type h,
         ∃ e, focal (ARaster p) focal_type width_or_radius height h = (Err e, h)).
Proof.
  destruct (get_focal_window_cases width_or_radius height)
    as [[[w Hw] Hwf]|[[e He] Hmal]].
  - split; [|split].
    + split; [done|]. intros [e He]. congruence.
    + split; [by eexists|done].
    + done.
  - split; [|split].
    + split; [by eexists|done].
    + split; [done|]. intros [w Hw]. congruence.
    + intros _ F p focal_type h. by apply (focal_window_error p _ _ _ h e).
Qed.

(** ** The store *)

Lemma St_bind_unfold {A B} (m : St A) (f : A → St B) h :
  (m ≫= f) h = match m h with
               | (Ok a, h') => f a h'
               | (Err e, h') => (Err e, h')
               end.
Proof. done. Qed.

Lemma St_bind_ok {A B} (m : St A) (f : A → St B) h a h' :
  m h = (Ok a, h') → (m ≫= f) h = f a h'.
Proof. intros H. by rewrite St_bind_unfold, H. Qed.

Lemma fresh_loc_None (h : heap) : h !! fresh_loc h = None.
Proof.
  unfold fresh_loc. pose proof (is_fresh (dom h)) as H.
  by apply not_elem_of_dom in H.
Qed.

Lemma get_raster_eq h p data mask nv :
  h !! p = Some (ORaster data mask nv) → get_raster p h = (Ok (data, mask, nv), h).
Proof. intros H. unfold get_raster. by rewrite H. Qed.

Lemma get_dask_eq h l a :
  h !! l = Some (ODask a) → get_dask l h = (Ok a, h).
Proof. intros H. unfold get_dask. by rewrite H. Qed.

Lemma Raster_data_eq h p data mask nv :
  h !! p = Some (ORaster data mask nv) → Raster_data p h = (Ok data, h).
Proof.
  intros H. unfold Raster_data. by rewrite (St_bind_ok _ _ _ _ _ (get_raster_eq _ _ _ _ _ H)).
Qed.

Lemma Raster_mask_eq h p data mask nv :
  h !! p = Some (ORaster data mask nv) → Raster_mask p h = (Ok mask, h).
Proof.
  intros H. unfold Raster_mask. by rewrite (St_bind_ok _ _ _ _ _ (get_raster_eq _ _ _ _ _ H)).
Qed.

Lemma Raster_masked_eq h p data mask nv :
  h !! p = Some (ORaster data mask nv) →
  Raster_masked p h = (Ok (bool_decide (is_Some nv)), h).
Proof.
  intros H. unfold Raster_masked. by rewrite (St_bind_ok _ _ _ _ _ (get_raster_eq _ _ _ _ _ H)).
Qed.

Lemma Raster_dtype_eq h p data mask nv a :
  h !! p = Some (ORaster data mask nv) → h !! data = Some (ODask a) →
  Raster_dtype p h = (Ok (da_dtype a), h).
Proof.
  intros H Ha. unfold Raster_dtype.
  rewrite (St_bind_ok _ _ _ _ _ (Raster_data_eq _ _ _ _ _ H)).
  by rewrite (St_bind_ok _ _ _ _ _ (get_dask_eq _ _ _ Ha)).
Qed.

Lemma Raster_set_data_eq h p data mask nv data' :
  h !! p = Some (ORaster data mask nv) →
  Raster_set_data p data' h = (Ok (), <[p := ORaster data' mask nv]> h).
Proof.
  intros H. unfold Raster_set_data.
  by rewrite (St_bind_ok _ _ _ _ _ (get_raster_eq _ _ _ _ _ H)).
Qed.

Lemma da_shape0_eq h l a :
  h !! l = Some (ODask a) → da_shape0 l h = (Ok (length (da_bands a)), h).
Proof.
  intros H. unfold da_shape0. by rewrite (St_bind_ok _ _ _ _ _ (get_dask_eq _ _ _ H)).
Qed.

Lemma da_astype_eq `{!Foreign} h l a to :
  h !! l = Some (ODask a) →
  da_astype l to h
  = (Ok (fresh_loc h), <[fresh_loc h := ODask (darray_astype to a)]> h).
Proof.
  intros Hl. unfold da_astype. by rewrite (St_bind_ok _ _ _ _ _ (get_dask_eq _ _ _ Hl)).
Qed.

Lemma da_nan_where_eq h mask data m a :
  h !! mask = Some (ODask m) → h !! data = Some (ODask a) →
  da_nan_where mask data h
  = (Ok (fresh_loc h), <[fresh_loc h := ODask (nan_where m a)]> h).
Proof.
  intros Hm Ha. unfold da_nan_where.
  rewrite (St_bind_ok _ _ _ _ _ (get_dask_eq _ _ _ Hm)).
  by rewrite (St_bind_ok _ _ _ _ _ (get_dask_eq _ _ _ Ha)).
Qed.

Lemma da_getitem_eq h l a bnd :
  h !! l = Some (ODask a) →
  da_getitem l bnd h
  = (match da_bands a !! bnd with
     | Some g => Ok (Arr2 (da_dtype a) g)
     | None => Err (IndexError "index out of bounds")
     end, h).
Proof.
  intros Hl. unfold da_getitem.
  rewrite (St_bind_ok _ _ _ _ _ (get_dask_eq _ _ _ Hl)).
  by destruct (da_bands a !! bnd).
Qed.

Lemma da_setitem_eq `{!Foreign} h l a bnd value :
  h !! l = Some (ODask a) →
  da_setitem l bnd value h
  = (Ok (),
     <[l := ODask (DArray (da_dtype a)
                      (<[bnd := cast_grid (a2_dtype value) (da_dtype a) (a2_data value)]>
                         (da_bands a)))]> h).
Proof.
  intros Hl. unfold da_setitem.
  by rewrite (St_bind_ok _ _ _ _ _ (get_dask_eq _ _ _ Hl)).
Qed.

(** The loop over the bands changes the array it runs on, and nothing
    else. *)
Lemma for_each_bands `{!Foreign} (f : arr2 → result arr2) data bnds : ∀ h a,
  h !! data = Some (ODask a) →
  for_each bnds (λ bnd,
    band ← da_getitem data bnd;
    res ← lift (f band);
    da_setitem data bnd res) h
  = ((bands_loop f bnds a).1, <[data := ODask (bands_loop f bnds a).2]> h).
Proof.
  induction bnds as [|bnd bnds IH]; intros h a Ha; simpl.
  - unfold mret, St_ret. by rewrite insert_id.
  - rewrite !St_bind_unfold, (da_getitem_eq _ _ _ _ Ha).
    destruct (da_bands a !! bnd) as [g|] eqn:Hg; [|by rewrite insert_id].
    rewrite St_bind_unfold. unfold lift at 1.
    destruct (f (Arr2 (da_dtype a) g)) as [res|e] eqn:Hf; [|by rewrite insert_id].
    rewrite (da_setitem_eq _ _ _ _ _ Ha).
    rewrite (IH _ _ (lookup_insert_eq _ _ _)).
    by rewrite insert_insert_eq.
Qed.

Lemma St_ret_bind {A B} (a : A) (f : A → St B) h : (mret a ≫= f) h = f a h.
Proof. done. Qed.

Lemma lookup_fresh_ne (h : heap) l o : h !! l = Some o → l ≠ fresh_loc h.
Proof. intros Hl ->. by rewrite fresh_loc_None in Hl. Qed.

Lemma insert_fresh_subseteq (h0 h : heap) o :
  h0 ⊆ h → h0 ⊆ <[fresh_loc h := o]> h.
Proof.
  intros Hsub. etrans; [exact Hsub|].
  apply insert_subseteq. apply fresh_loc_None.
Qed.

Lemma fresh_loc_base (h0 h : heap) : h0 ⊆ h → h0 !! fresh_loc h = None.
Proof.
  intros Hsub. destruct (h0 !! fresh_loc h) as [o|] eqn:Ho; [|done].
  apply (lookup_weaken _ _ _ _ Ho) in Hsub. by rewrite fresh_loc_None in Hsub.
Qed.

(** [Raster.copy] allocates three objects and changes nothing. *)
Lemma Raster_copy_run h p d m nv :
  holds h p d m nv →
  ∃ q data' mask' h',
    Raster_copy p h = (Ok q, h')
    ∧ h ⊆ h'
    ∧ h !! q = None ∧ h !! data' = None ∧ h !! mask' = None
    ∧ q ≠ data' ∧ mask' ≠ q ∧ mask' ≠ data'
    ∧ h' !! q = Some (ORaster data' mask' nv)
    ∧ h' !! data' = Some (ODask d)
    ∧ h' !! mask' = Some (ODask m).
Proof.
  intros (ld & lm & Hp & Hd & Hm).
  set (l1 := fresh_loc h). set (h1 := <[l1 := ODask d]> h).
  set (l2 := fresh_loc h1). set (h2 := <[l2 := ODask m]> h1).
  set (q := fresh_loc h2). set (h3 := <[q := ORaster l1 l2 nv]> h2).
  assert (H01 : h ⊆ h1) by (by apply insert_fresh_subseteq).
  assert (H02 : h ⊆ h2) by (by apply insert_fresh_subseteq).
  assert (H03 : h ⊆ h3) by (by apply insert_fresh_subseteq).
  assert (Hl1 : h1 !! l1 = Some (ODask d)) by apply lookup_insert_eq.
  assert (Hl2 : h2 !! l2 = Some (ODask m)) by apply lookup_insert_eq.
  assert (Hl12 : l1 ≠ l2) by exact (lookup_fresh_ne h1 l1 _ Hl1).
  assert (Hl1' : h2 !! l1 = Some (ODask d))
    by (unfold h2; by rewrite lookup_insert_ne).
  assert (Hl1q : l1 ≠ q) by exact (lookup_fresh_ne h2 l1 _ Hl1').
  assert (Hl2q : l2 ≠ q) by exact (lookup_fresh_ne h2 l2 _ Hl2).
  exists q, l1, l2, h3. split; [|split; [done|]].
  - unfold Raster_copy.
    rewrite (St_bind_ok _ _ _ _ _ (get_raster_eq _ _ _ _ _ Hp)).
    rewrite (St_bind_ok _ _ _ _ _ (get_dask_eq _ _ _ Hd)).
    rewrite (St_bind_ok _ _ _ _ _ (get_dask_eq _ _ _ Hm)).
    done.
  - split; [by apply fresh_loc_base|].
    split; [apply fresh_loc_None|].
    split; [by apply fresh_loc_base|].
    split; [done|]. split; [done|]. split; [done|].
    split; [apply lookup_insert_eq|].
    split; unfold h3; by rewrite lookup_insert_ne.
Qed.

(** The shared tail changes nothing that was there before the call. *)
Lemma bands_tail_run `{!Foreign} h0 h rs data a old mask m nv f demote t :
  h0 ⊆ h →
  h0 !! rs = None → h0 !! data = None →
  rs ≠ data → mask ≠ rs → mask ≠ data →
  h !! rs = Some (ORaster old mask nv) →
  h !! data = Some (ODask a) →
  h !! mask = Some (ODask m) →
  ∃ r h',
    bands_tail rs data f demote t h = (r, h')
    ∧ h0 ⊆ h'
    ∧ match bands_loop f (range 0 (length (da_bands a))) a with
      | (Err e, _) => r = Err e
      | (Ok _, a1) =>
          r = Ok rs ∧ holds h' rs (if demote then darray_astype t a1 else a1) m nv
      end.
Proof.
  intros Hsub Hrs0 Hdata0 Hne1 Hne2 Hne3 Hrs Hdata Hmask.
  unfold bands_tail.
  rewrite (St_bind_ok _ _ _ _ _ (da_shape0_eq _ _ _ Hdata)).
  rewrite St_bind_unfold, (for_each_bands f data _ h a Hdata).
  destruct (bands_loop f (range 0 (length (da_bands a))) a) as [[[]|e] a1];
    cbn [fst snd].
  2:{ eexists _, _. split; [done|]. split; [|done]. by apply insert_subseteq_r. }
  set (h1 := <[data := ODask a1]> h).
  assert (H01 : h0 ⊆ h1) by by apply insert_subseteq_r.
  assert (Hrs1 : h1 !! rs = Some (ORaster old mask nv))
    by (unfold h1; by rewrite lookup_insert_ne).
  assert (Hmask1 : h1 !! mask = Some (ODask m))
    by (unfold h1; by rewrite lookup_insert_ne).
  assert (Hdata1 : h1 !! data = Some (ODask a1)) by apply lookup_insert_eq.
  destruct demote.
  - rewrite (St_bind_ok _ _ _ _ _ (da_astype_eq _ _ _ t Hdata1)).
    set (l := fresh_loc h1). set (h2 := <[l := ODask (darray_astype t a1)]> h1).
    assert (Hlrs : rs ≠ l) by exact (lookup_fresh_ne h1 rs _ Hrs1).
    assert (Hlmask : mask ≠ l) by exact (lookup_fresh_ne h1 mask _ Hmask1).
    assert (Hrs2 : h2 !! rs = Some (ORaster old mask nv))
      by (unfold h2; by rewrite lookup_insert_ne).
    rewrite (St_bind_ok _ _ _ _ _ (Raster_set_data_eq _ _ _ _ _ l Hrs2)).
    eexists _, _. split; [done|]. split; [|split; [done|]].
    + apply insert_subseteq_r; [done|]. by apply insert_fresh_subseteq.
    + exists l, mask. split; [apply lookup_insert_eq|].
      split.
      * rewrite lookup_insert_ne by done. apply lookup_insert_eq.
      * rewrite lookup_insert_ne by done. unfold h2. by rewrite lookup_insert_ne.
  - rewrite St_ret_bind.
    rewrite (St_bind_ok _ _ _ _ _ (Raster_set_data_eq _ _ _ _ _ data Hrs1)).
    eexists _, _. split; [done|]. split; [|split; [done|]].
    + by apply insert_subseteq_r.
    + exists data, mask. split; [apply lookup_insert_eq|].
      split; by rewrite lookup_insert_ne.
Qed.

Lemma St_ret_unfold {A} (a : A) (h : heap) : (mret a : St A) h = (Ok a, h).
Proof. done. Qed.

(** [focal] against the value it computes: on a well-formed raster the
    call either raises the error of [focal_value] or returns a raster that
    was not there before and holds the data of [focal_value], the mask and
    the null value of its input; everything that was in the store is
    still there, unchanged. *)
Lemma focal_run `{!Foreign} p d m nv focal_type width_or_radius height :
  computes (focal (ARaster p) focal_type width_or_radius height) p d m nv
           (focal_value d m nv focal_type width_or_radius height).
Proof.
  intros h Hholds. pose proof Hholds as (ld & lm & Hp & Hd & Hm).
  unfold focal, focal_value, as_raster. rewrite St_ret_bind.
  destruct (bool_decide (focal_type ∉ FOCAL_STATS)); [by eexists _, h|].
  rewrite St_bind_unfold. unfold lift at 1.
  destruct (get_focal_window width_or_radius height) as [window|e];
    [|by eexists _, h].
  cbn [mbind result_bind].
  destruct (Raster_copy_run h p d m nv Hholds)
    as (q & l1 & l2 & h1 & Hcopy & H01 & Hq0 & Hl10 & Hl20 & Hql1 & Hl2q & Hl21
        & Hq1 & Hl11 & Hl12).
  rewrite (St_bind_ok _ _ _ _ _ Hcopy).
  rewrite (St_bind_ok _ _ _ _ _ (Raster_data_eq _ _ _ _ _ Hq1)).
  rewrite St_bind_unfold, (St_bind_ok _ _ _ _ _ (get_dask_eq _ _ _ Hl11)).
  unfold mret at 1, St_ret at 1.
  pose proof (lookup_weaken _ _ _ _ Hp H01) as Hp1.
  pose proof (lookup_weaken _ _ _ _ Hd H01) as Hd1.
  pose proof (lookup_weaken _ _ _ _ Hm H01) as Hm1.
  rewrite (St_bind_ok _ _ _ _ _ (Raster_masked_eq _ _ _ _ _ Hp1)).
  destruct (bool_decide (is_Some nv)) eqn:Hmasked; cbn [andb].
  - set (f := λ band, _focal band (ndarray_of_window window) focal_type true).
    rewrite St_bind_unfold.
    rewrite (St_bind_ok _ _ _ _ _ (Raster_dtype_eq _ _ _ _ _ _ Hp1 Hd1)).
    destruct (bool_decide (promote_dtype_to_float (da_dtype d) ≠ da_dtype d))
      eqn:Hup.
    + rewrite (St_bind_ok _ _ _ _ _ (da_astype_eq _ _ _ _ Hl11)).
      set (l3 := fresh_loc h1).
      set (h2 := <[l3 := ODask (darray_astype (promote_dtype_to_float (da_dtype d)) d)]> h1).
      assert (H12 : h1 ⊆ h2) by (by apply insert_fresh_subseteq).
      pose proof (lookup_weaken _ _ _ _ Hp1 H12) as Hp2.
      pose proof (lookup_weaken _ _ _ _ Hm1 H12) as Hm2.
      assert (Hl32 : h2 !! l3 = Some (ODask (darray_astype
                (promote_dtype_to_float (da_dtype d)) d)))
        by apply lookup_insert_eq.
      rewrite (St_bind_ok _ _ _ _ _ (Raster_mask_eq _ _ _ _ _ Hp2)).
      rewrite (St_bind_ok _ _ _ _ _ (da_nan_where_eq _ _ _ _ _ Hm2 Hl32)).
      rewrite St_ret_unfold.
      set (l4 := fresh_loc h2).
      set (a := nan_where m (darray_astype (promote_dtype_to_float (da_dtype d)) d)).
      set (h3 := <[l4 := ODask a]> h2).
      assert (H02 : h ⊆ h2) by (by etrans).
      assert (H03 : h ⊆ h3) by (by apply insert_fresh_subseteq).
      pose proof (lookup_weaken _ _ _ _ Hq1 H12) as Hq2.
      pose proof (lookup_weaken _ _ _ _ Hl12 H12) as Hl22.
      assert (Hql4 : q ≠ l4) by exact (lookup_fresh_ne h2 q _ Hq2).
      assert (Hl2l4 : l2 ≠ l4) by exact (lookup_fresh_ne h2 l2 _ Hl22).
      assert (Hq3 : h3 !! q = Some (ORaster l1 l2 nv))
        by (unfold h3; by rewrite lookup_insert_ne).
      assert (Hl23 : h3 !! l2 = Some (ODask m))
        by (unfold h3; by rewrite lookup_insert_ne).
      assert (Hl43 : h3 !! l4 = Some (ODask a)) by apply lookup_insert_eq.
      destruct (bands_tail_run h h3 q l4 a l1 l2 m nv f
                  (true && bool_decide (focal_type ∉ FOCAL_PROMOTING_OPS))
                  (da_dtype d) H03 Hq0 (fresh_loc_base h h2 H02)
                  Hql4 Hl2q Hl2l4 Hq3 Hl43 Hl23)
        as (r & h' & Hrun & H0' & Hres).
      exists r, h'. split; [exact Hrun|]. split; [done|].
      destruct (bands_loop f (range 0 (length (da_bands a))) a) as [[[]|e] a1].
      * exists q. destruct Hres as [Hr Hh]. done.
      * exact Hres.
    + rewrite St_ret_bind.
      rewrite (St_bind_ok _ _ _ _ _ (Raster_mask_eq _ _ _ _ _ Hp1)).
      rewrite (St_bind_ok _ _ _ _ _ (da_nan_where_eq _ _ _ _ _ Hm1 Hl11)).
      rewrite St_ret_unfold.
      set (l4 := fresh_loc h1).
      set (a := nan_where m d).
      set (h3 := <[l4 := ODask a]> h1).
      assert (H03 : h ⊆ h3) by (by apply insert_fresh_subseteq).
      assert (Hql4 : q ≠ l4) by exact (lookup_fresh_ne h1 q _ Hq1).
      assert (Hl2l4 : l2 ≠ l4) by exact (lookup_fresh_ne h1 l2 _ Hl12).
      assert (Hq3 : h3 !! q = Some (ORaster l1 l2 nv))
        by (unfold h3; by rewrite lookup_insert_ne).
      assert (Hl23 : h3 !! l2 = Some (ODask m))
        by (unfold h3; by rewrite lookup_insert_ne).
      assert (Hl43 : h3 !! l4 = Some (ODask a)) by apply lookup_insert_eq.
      destruct (bands_tail_run h h3 q l4 a l1 l2 m nv f
                  (false && bool_decide (focal_type ∉ FOCAL_PROMOTING_OPS))
                  (da_dtype d) H03 Hq0 (fresh_loc_base h h1 H01)
                  Hql4 Hl2q Hl2l4 Hq3 Hl43 Hl23)
        as (r & h' & Hrun & H0' & Hres).
      exists r, h'. split; [exact Hrun|]. split; [done|].
      destruct (bands_loop f (range 0 (length (da_bands a))) a) as [[[]|e] a1].
      * exists q. destruct Hres as [Hr Hh]. done.
      * exact Hres.
  - set (f := λ band, _focal band (ndarray_of_window window) focal_type false).
    rewrite St_ret_bind.
    destruct (bands_tail_run h h1 q l1 d l1 l2 m nv f
                (false && bool_decide (focal_type ∉ FOCAL_PROMOTING_OPS))
                (da_dtype d) H01 Hq0 Hl10 Hql1 Hl2q Hl21 Hq1 Hl11 Hl12)
      as (r & h' & Hrun & H0' & Hres).
    exists r, h'. split; [exact Hrun|]. split; [done|].
    destruct (bands_loop f (range 0 (length (da_bands d))) d) as [[[]|e] a1].
    + exists q. destruct Hres as [Hr Hh]. done.
    + exact Hres.
Qed.

Lemma holds_weaken h h' p d m nv : h ⊆ h' → holds h p d m nv → holds h' p d m nv.
Proof.
  intros Hsub (data & mask & Hp & Hd & Hm). exists data, mask.
  split; [|split]; by eapply lookup_weaken.
Qed.

Lemma Raster_content_eq h p d m nv :
  holds h p d m nv → Raster_content p h = (Ok (d, m, nv), h).
Proof.
  intros (data & mask & Hp & Hd & Hm). unfold Raster_content.
  rewrite (St_bind_ok _ _ _ _ _ (get_raster_eq _ _ _ _ _ Hp)).
  rewrite (St_bind_ok _ _ _ _ _ (get_dask_eq _ _ _ Hd)).
  by rewrite (St_bind_ok _ _ _ _ _ (get_dask_eq _ _ _ Hm)).
Qed.

(** What a caller sees of a call that computes [value]. *)
Lemma computes_observe call p d m nv value h :
  computes call p d m nv value → holds h p d m nv →
  observe call h = match value with
                   | Err e => Err e
                   | Ok out => Ok (out, m, nv)
                   end.
Proof.
  intros Hc Hh. destruct (Hc h Hh) as (r & h' & Hrun & _ & Hres).
  unfold observe. rewrite St_bind_unfold, Hrun.
  destruct value as [out|e].
  - destruct Hres as (q & -> & _ & Hq). by rewrite (Raster_content_eq _ _ _ _ _ Hq).
  - by subst r.
Qed.

Lemma computes_leaves_input call p d m nv value h :
  computes call p d m nv value → holds h p d m nv →
  leaves_input call h p d m nv.
Proof.
  intros Hc Hh. destruct (Hc h Hh) as (r & h' & Hrun & Hsub & Hres).
  unfold leaves_input. rewrite Hrun. cbn [fst snd].
  assert (Hh' : holds h' p d m nv) by by apply (holds_weaken h).
  split; [done|]. split; [done|]. split.
  - intros q ->. destruct value as [out|e]; [|done].
    by destruct Hres as (q' & [= <-] & Hq & _).
  - by rewrite (computes_observe call p d m nv value h),
               (computes_observe call p d m nv value h').
Qed.

Lemma correlate_rest_run `{!Foreign} h0 h p q ldata l2 ld lm dX m nv
    kernel mode cval :
  h0 ⊆ h →
  h0 !! q = None → h0 !! ldata = None →
  q ≠ ldata → l2 ≠ q → l2 ≠ ldata →
  h !! q = Some (ORaster ldata l2 nv) →
  h !! ldata = Some (ODask dX) →
  h !! l2 = Some (ODask m) →
  h !! p = Some (ORaster ld lm nv) →
  h !! lm = Some (ODask m) →
  ∃ r h',
    correlate_rest p q kernel mode cval h = (r, h')
    ∧ h0 ⊆ h'
    ∧ match correlate_rest_value dX m nv kernel mode cval with
      | Err e => r = Err e
      | Ok out => r = Ok q ∧ holds h' q out m nv
      end.
Proof.
  intros H0 Hq0 Hdata0 Hqd Hl2q Hl2d Hq Hdata Hl2 Hp Hlm.
  unfold correlate_rest, correlate_rest_value.
  rewrite (St_bind_ok _ _ _ _ _ (Raster_data_eq _ _ _ _ _ Hq)).
  rewrite St_bind_unfold, (St_bind_ok _ _ _ _ _ (get_dask_eq _ _ _ Hdata)).
  rewrite St_ret_unfold.
  rewrite (St_bind_ok _ _ _ _ _ (Raster_masked_eq _ _ _ _ _ Hp)).
  destruct (bool_decide (is_Some nv)) eqn:Hmasked; cbn [andb].
  - set (f := λ band, _correlate band kernel mode cval true).
    rewrite St_bind_unfold. cbv zeta.
    destruct (bool_decide (promote_dtype_to_float (da_dtype dX) ≠ da_dtype dX))
      eqn:Hup.
    + rewrite (St_bind_ok _ _ _ _ _ (da_astype_eq _ _ _ _ Hdata)).
      set (l3 := fresh_loc h).
      set (h2 := <[l3 := ODask (darray_astype (promote_dtype_to_float (da_dtype dX)) dX)]> h).
      assert (H12 : h ⊆ h2) by (by apply insert_fresh_subseteq).
      pose proof (lookup_weaken _ _ _ _ Hp H12) as Hp2.
      pose proof (lookup_weaken _ _ _ _ Hlm H12) as Hm2.
      pose proof (lookup_weaken _ _ _ _ Hq H12) as Hq2.
      pose proof (lookup_weaken _ _ _ _ Hl2 H12) as Hl22.
      assert (Hl32 : h2 !! l3 = Some (ODask (darray_astype
                (promote_dtype_to_float (da_dtype dX)) dX)))
        by apply lookup_insert_eq.
      rewrite (St_bind_ok _ _ _ _ _ (Raster_mask_eq _ _ _ _ _ Hp2)).
      rewrite (St_bind_ok _ _ _ _ _ (da_nan_where_eq _ _ _ _ _ Hm2 Hl32)).
      rewrite St_ret_unfold.
      set (l4 := fresh_loc h2).
      set (a := nan_where m (darray_astype (promote_dtype_to_float (da_dtype dX)) dX)).
      set (h3 := <[l4 := ODask a]> h2).
      assert (H02 : h0 ⊆ h2) by (by etrans).
      assert (H03 : h0 ⊆ h3) by (by apply insert_fresh_subseteq).
      assert (Hql4 : q ≠ l4) by exact (lookup_fresh_ne h2 q _ Hq2).
      assert (Hl2l4 : l2 ≠ l4) by exact (lookup_fresh_ne h2 l2 _ Hl22).
      assert (Hq3 : h3 !! q = Some (ORaster ldata l2 nv))
        by (unfold h3; by rewrite lookup_insert_ne).
      assert (Hl23 : h3 !! l2 = Some (ODask m))
        by (unfold h3; by rewrite lookup_insert_ne).
      assert (Hl43 : h3 !! l4 = Some (ODask a)) by apply lookup_insert_eq.
      rewrite (St_bind_ok _ _ _ _ _ (Raster_masked_eq _ _ _ _ _ Hq3)), Hmasked.
      destruct (bands_tail_run h0 h3 q l4 a ldata l2 m nv f true (da_dtype dX)
                  H03 Hq0 (fresh_loc_base h0 h2 H02)
                  Hql4 Hl2q Hl2l4 Hq3 Hl43 Hl23)
        as (r & h' & Hrun & H0' & Hres).
      exists r, h'. split; [exact Hrun|]. split; [done|].
      by destruct (bands_loop f (range 0 (length (da_bands a))) a) as [[[]|e] a1].
    + rewrite St_ret_bind.
      rewrite (St_bind_ok _ _ _ _ _ (Raster_mask_eq _ _ _ _ _ Hp)).
      rewrite (St_bind_ok _ _ _ _ _ (da_nan_where_eq _ _ _ _ _ Hlm Hdata)).
      rewrite St_ret_unfold.
      set (l4 := fresh_loc h).
      set (a := nan_where m dX).
      set (h3 := <[l4 := ODask a]> h).
      assert (H03 : h0 ⊆ h3) by (by apply insert_fresh_subseteq).
      assert (Hql4 : q ≠ l4) by exact (lookup_fresh_ne h q _ Hq).
      assert (Hl2l4 : l2 ≠ l4) by exact (lookup_fresh_ne h l2 _ Hl2).
      assert (Hq3 : h3 !! q = Some (ORaster ldata l2 nv))
        by (unfold h3; by rewrite lookup_insert_ne).
      assert (Hl23 : h3 !! l2 = Some (ODask m))
        by (unfold h3; by rewrite lookup_insert_ne).
      assert (Hl43 : h3 !! l4 = Some (ODask a)) by apply lookup_insert_eq.
      rewrite (St_bind_ok _ _ _ _ _ (Raster_masked_eq _ _ _ _ _ Hq3)), Hmasked.
      destruct (bands_tail_run h0 h3 q l4 a ldata l2 m nv f false (da_dtype dX)
                  H03 Hq0 (fresh_loc_base h0 h H0)
                  Hql4 Hl2q Hl2l4 Hq3 Hl43 Hl23)
        as (r & h' & Hrun & H0' & Hres).
      exists r, h'. split; [exact Hrun|]. split; [done|].
      by destruct (bands_loop f (range 0 (length (da_bands a))) a) as [[[]|e] a1].
  - set (f := λ band, _correlate band kernel mode cval false).
    rewrite St_ret_bind.
    rewrite (St_bind_ok _ _ _ _ _ (Raster_masked_eq _ _ _ _ _ Hq)), Hmasked.
    destruct (bands_tail_run h0 h q ldata dX ldata l2 m nv f false (da_dtype dX)
                H0 Hq0 Hdata0 Hqd Hl2q Hl2d Hq Hdata Hl2)
      as (r & h' & Hrun & H0' & Hres).
    exists r, h'. split; [exact Hrun|]. split; [done|].
    by destruct (bands_loop f (range 0 (length (da_bands dX))) dX) as [[[]|e] a1].
Qed.

(** [correlate] against the value it computes. *)
Lemma correlate_run `{!Foreign} p d m nv kernel mode cval :
  computes (correlate (ARaster p) kernel mode cval) p d m nv
           (correlate_value d m nv kernel mode cval).
Proof.
  intros h Hholds. pose proof Hholds as (ld & lm & Hp & Hd & Hm).
  unfold correlate, correlate_value, as_raster. rewrite St_ret_bind.
  rewrite St_bind_unfold. unfold lift at 1.
  destruct (check_kernel kernel) as [[]|e]; [|by eexists _, h].
  cbn [mbind result_bind].
  destruct (Raster_copy_run h p d m nv Hholds)
    as (q & l1 & l2 & h1 & Hcopy & H01 & Hq0 & Hl10 & Hl20 & Hql1 & Hl2q & Hl21
        & Hq1 & Hl11 & Hl12).
  rewrite (St_bind_ok _ _ _ _ _ Hcopy).
  rewrite (St_bind_ok _ _ _ _ _ (Raster_dtype_eq _ _ _ _ _ _ Hq1 Hl11)).
  pose proof (lookup_weaken _ _ _ _ Hp H01) as Hp1.
  pose proof (lookup_weaken _ _ _ _ Hm H01) as Hm1.
  rewrite St_bind_unfold.
  destruct (is_float_dtype (nd_dtype kernel) && is_int_dtype (da_dtype d)).
  - rewrite (St_bind_ok _ _ _ _ _ (Raster_data_eq _ _ _ _ _ Hq1)).
    rewrite (St_bind_ok _ _ _ _ _ (da_astype_eq _ _ _ _ Hl11)).
    set (lA := fresh_loc h1).
    set (hA := <[lA := ODask (darray_astype F64 d)]> h1).
    assert (H1A : h1 ⊆ hA) by (by apply insert_fresh_subseteq).
    pose proof (lookup_weaken _ _ _ _ Hq1 H1A) as HqA.
    rewrite (Raster_set_data_eq _ _ _ _ _ lA HqA).
    set (hB := <[q := ORaster lA l2 nv]> hA).
    assert (H0A : h ⊆ hA) by (by etrans).
    assert (H0B : h ⊆ hB) by (by apply insert_subseteq_r).
    assert (HqlA : q ≠ lA) by exact (lookup_fresh_ne h1 q _ Hq1).
    assert (Hl2lA : l2 ≠ lA) by exact (lookup_fresh_ne h1 l2 _ Hl12).
    assert (HqB : hB !! q = Some (ORaster lA l2 nv)) by apply lookup_insert_eq.
    assert (HlAB : hB !! lA = Some (ODask (darray_astype F64 d))).
    { unfold hB. rewrite lookup_insert_ne by done. apply lookup_insert_eq. }
    assert (Hl2B : hB !! l2 = Some (ODask m)).
    { unfold hB. rewrite lookup_insert_ne by done.
      unfold hA. by rewrite lookup_insert_ne. }
    destruct (correlate_rest_run h hB p q lA l2 ld lm (darray_astype F64 d) m nv
                kernel mode cval H0B Hq0 (fresh_loc_base h h1 H01)
                HqlA Hl2q Hl2lA HqB HlAB Hl2B
                (lookup_weaken _ _ _ _ Hp H0B) (lookup_weaken _ _ _ _ Hm H0B))
      as (r & h' & Hrun & H0' & Hres).
    exists r, h'. split; [exact Hrun|]. split; [done|].
    destruct (correlate_rest_value _ m nv kernel mode cval) as [out|e]; [|done].
    exists q. by destruct Hres.
  - rewrite St_ret_unfold.
    destruct (correlate_rest_run h h1 p q l1 l2 ld lm d m nv
                kernel mode cval H01 Hq0 Hl10 Hql1 Hl2q Hl21 Hq1 Hl11 Hl12 Hp1 Hm1)
      as (r & h' & Hrun & H0' & Hres).
    exists r, h'. split; [exact Hrun|]. split; [done|].
    destruct (correlate_rest_value _ m nv kernel mode cval) as [out|e]; [|done].
    exists q. by destruct Hres.
Qed.

(** [convolve] against the value it computes. *)
Lemma convolve_run `{!Foreign} p d m nv kernel mode cval :
  computes (convolve (ARaster p) kernel mode cval) p d m nv
           (convolve_value d m nv kernel mode cval).
Proof.
  intros h Hholds. unfold convolve, convolve_value.
  rewrite St_bind_unfold. unfold lift at 1.
  destruct (check_kernel kernel) as [[]|e]; [|by eexists _, h].
  cbn [mbind result_bind].
  rewrite St_bind_unfold. unfold lift at 1.
  destruct (flip_kernel kernel) as [kernel'|e]; [|by eexists _, h].
  by apply correlate_run.
Qed.

(** C10.  [focal], [correlate] and [convolve] leave the raster they are
    given as it is: after a call every object that was in the store is
    unchanged, so the input raster still holds its data, mask and null
    value; the raster returned is a new object; and a second call on the
    same input gives the result of the first. *)
Theorem entry_points_leave_input `{!Foreign} (h : heap) (p : loc)
    (d m : darray) (null_value : option f64) :
  holds h p d m null_value →
  (∀ focal_type width_or_radius height,
     leaves_input (focal (ARaster p) focal_type width_or_radius height)
                  h p d m null_value)
  ∧ (∀ kernel mode cval,
       leaves_input (correlate (ARaster p) kernel mode cval) h p d m null_value)
  ∧ (∀ kernel mode cval,
       leaves_input (convolve (ARaster p) kernel mode cval) h p d m null_value).
Proof.
  intros Hh. split; [|split].
  - intros focal_type width_or_radius height.
    eapply computes_leaves_input; [apply focal_run|done].
  - intros kernel mode cval.
    eapply computes_leaves_input; [apply correlate_run|done].
  - intros kernel mode cval.
    eapply computes_leaves_input; [apply convolve_run|done].
Qed.

Lemma example_heap_holds : holds example_heap 1%positive example_data example_mask None.
Proof. exists 2%positive, 3%positive. repeat split; vm_compute; reflexivity. Qed.

Lemma entry_points_leave_input_witness :
  leaves_input (focal (H := example_foreign) (ARaster 1%positive) "mean"
                  (Scalar (PInt 2)) PNone)
               example_heap 1%positive example_data example_mask None
  ∧ leaves_input (convolve (H := example_foreign) (ARaster 1%positive)
                    (NdArray F64 (Nd2 example_kernel)) "constant" (Fin 0%Qc))
                 example_heap 1%positive example_data example_mask None.
Proof.
  destruct (@entry_points_leave_input example_foreign example_heap 1%positive
              example_data example_mask None example_heap_holds)
    as (Hf & _ & Hc).
  split; [apply Hf|apply Hc].
Defined.

(** ** Convolution *)

Lemma existsb_isnan_nan_free (g : grid f64) :
  nan_free g → existsb isnan (ravel g) = false.
Proof.
  intros Hg. unfold ravel. induction Hg as [|row g Hrow _ IH]; [done|].
  simpl. rewrite existsb_app, IH, orb_false_r.
  induction Hrow as [|w row Hw _ IHrow]; [done|].
  simpl. by rewrite Hw, IHrow.
Qed.

Lemma check_kernel_nan_free dt (g : grid f64) :
  nan_free g → check_kernel (NdArray dt (Nd2 g)) = Ok ().
Proof.
  intros Hg. unfold check_kernel. simpl. by rewrite existsb_isnan_nan_free.
Qed.

(** C6.  For every 2-D kernel free of NaN, every raster argument, edge
    mode and fill value, [convolve] is [correlate] with the kernel
    reversed along both axes: the same result and the same store. *)
Theorem convolve_is_correlate_flipped `{!Foreign} (raster : raster_arg)
    (dt : dtype) (g : grid f64) (mode : string) (cval : f64) (h : heap) :
  nan_free g →
  convolve raster (NdArray dt (Nd2 g)) mode cval h
  = correlate raster
      (NdArray dt (Nd2 (reverse ((λ row : list f64, reverse row) <$> g))))
      mode cval h.
Proof.
  intros Hg. unfold convolve.
  rewrite St_bind_unfold. unfold lift at 1.
  rewrite (check_kernel_nan_free dt g Hg).
  rewrite St_bind_unfold. unfold lift at 1. simpl. done.
Qed.

Lemma example_kernel_nan_free : nan_free example_kernel.
Proof. repeat constructor. Qed.

Lemma convolve_is_correlate_flipped_witness :
  convolve (H := example_foreign) (ARaster 1%positive)
    (NdArray F64 (Nd2 example_kernel)) "reflect" (Fin 0%Qc) example_heap
  = correlate (H := example_foreign) (ARaster 1%positive)
      (NdArray F64 (Nd2 [ [f64_of_Z 4; f64_of_Z 3]; [f64_of_Z 2; f64_of_Z 1] ]))
      "reflect" (Fin 0%Qc) example_heap.
Proof.
  exact (@convolve_is_correlate_flipped example_foreign (ARaster 1%positive)
           F64 example_kernel "reflect" (Fin 0%Qc) example_heap
           example_kernel_nan_free).
Defined.

(** ** dtypes through [focal] *)

Lemma check_kernel_window (w : grid bool) :
  check_kernel (ndarray_of_window w) = Ok ().
Proof.
  apply check_kernel_nan_free.
  unfold nan_free. apply Forall_fmap, Forall_true. intros row. simpl.
  apply Forall_fmap, Forall_true. by intros [].
Qed.

(** On a window, [_focal] returns for every statistic of the catalog. *)
Lemma _focal_ok `{!Foreign} data (w : grid bool) stat nan_aware :
  stat ∈ FOCAL_STATS →
  ∃ res, _focal data (ndarray_of_window w) stat nan_aware = Ok res.
Proof.
  intros Hstat. unfold _focal.
  rewrite bool_decide_eq_false_2 by (by intros Hn).
  rewrite check_kernel_window. cbn [mbind result_bind].
  repeat (case_bool_decide; [destruct nan_aware; by eexists|]).
  exfalso. unfold FOCAL_STATS in Hstat. set_solver.
Qed.

(** The loop over the bands keeps the dtype and the number of bands. *)
Lemma bands_loop_dtype `{!Foreign} f bnds : ∀ a,
  da_dtype (bands_loop f bnds a).2 = da_dtype a
  ∧ length (da_bands (bands_loop f bnds a).2) = length (da_bands a).
Proof.
  induction bnds as [|bnd bnds IH]; intros a; simpl; [done|].
  destruct (da_bands a !! bnd) as [g|]; [|done].
  destruct (f _) as [res|e]; [|done].
  destruct (IH (DArray (da_dtype a)
                  (<[bnd := cast_grid (a2_dtype res) (da_dtype a) (a2_data res)]>
                     (da_bands a)))) as [-> ->].
  simpl. by rewrite length_insert.
Qed.

Lemma bands_loop_ok `{!Foreign} f bnds : ∀ a,
  (∀ band, ∃ res, f band = Ok res) →
  Forall (λ bnd, bnd < length (da_bands a))%nat bnds →
  (bands_loop f bnds a).1 = Ok ().
Proof.
  induction bnds as [|bnd bnds IH]; intros a Hf Hb; simpl; [done|].
  apply Forall_cons_1 in Hb as [Hbnd Hb].
  destruct (lookup_lt_is_Some_2 _ _ Hbnd) as [g ->].
  destruct (Hf (Arr2 (da_dtype a) g)) as [res ->].
  apply IH; [done|]. simpl. by rewrite length_insert.
Qed.

Lemma Forall_range_lt n : Forall (λ bnd, bnd < n)%nat (range 0 n).
Proof. apply Forall_forall. intros i Hi%elem_of_range. lia. Qed.

Lemma where_dtype_float dt : is_float_dtype (where_dtype dt) = true.
Proof. by destruct dt. Qed.

Lemma promoting_ops_stats stat : stat ∈ FOCAL_PROMOTING_OPS → stat ∈ FOCAL_STATS.
Proof. unfold FOCAL_PROMOTING_OPS, FOCAL_STATS. set_solver. Qed.

(** The dtype of what [focal] computes for a statistic that forces float
    semantics: a float dtype when the raster has a null value, the dtype of
    the input when it has none. *)
Lemma focal_value_promoting `{!Foreign} d m nv stat width_or_radius height :
  stat ∈ FOCAL_PROMOTING_OPS →
  ¬ malformed width_or_radius height →
  ∃ out, focal_value d m nv stat width_or_radius height = Ok out
         ∧ match nv with
           | Some _ => is_float_dtype (da_dtype out) = true
           | None => da_dtype out = da_dtype d
           end.
Proof.
  intros Hstat Hwf. unfold focal_value.
  rewrite bool_decide_eq_false_2
    by (intros Hn; by apply Hn, promoting_ops_stats).
  destruct (get_focal_window_cases width_or_radius height)
    as [[[w ->] _]|[_ Hmal]]; [|done].
  cbn [mbind result_bind].
  rewrite (bool_decide_eq_false_2 (stat ∉ FOCAL_PROMOTING_OPS))
    by (by intros Hn).
  rewrite andb_false_r.
  set (f := λ band, _focal band (ndarray_of_window w) stat _).
  set (data := if bool_decide (is_Some nv) then _ else d).
  pose proof (bands_loop_dtype f (range 0 (length (da_bands data))) data)
    as [Hdt _].
  pose proof (bands_loop_ok f (range 0 (length (da_bands data))) data) as Hok.
  destruct (bands_loop f (range 0 (length (da_bands data))) data) as [r a1].
  simpl in Hdt, Hok. rewrite Hok.
  - exists a1. split; [done|]. rewrite Hdt. unfold data.
    destruct nv as [v|]; simpl; [|done].
    apply where_dtype_float.
  - intros band. apply _focal_ok. by apply promoting_ops_stats.
  - apply Forall_range_lt.
Qed.

(** C5.  For a statistic that forces float semantics and a well-formed
    footprint spec, [focal] returns a raster.  When the input has a null
    value its data has a floating dtype; when the input has no null value
    its data has the dtype of the input: integer data stays integer. *)
Theorem focal_promoting_dtype `{!Foreign} (h : heap) (p : loc) (d m : darray)
    (null_value : option f64) (focal_type : string)
    (width_or_radius : py_arg) (height : pyval) :
  holds h p d m null_value →
  is_int_dtype (da_dtype d) = true →
  focal_type ∈ FOCAL_PROMOTING_OPS →
  ¬ malformed width_or_radius height →
  ∃ q h' out,
    focal (ARaster p) focal_type width_or_radius height h = (Ok q, h')
    ∧ holds h' q out m null_value
    ∧ match null_value with
      | Some _ => is_float_dtype (da_dtype out) = true
      | None => da_dtype out = da_dtype d ∧ is_float_dtype (da_dtype out) = false
      end.
Proof.
  intros Hh Hint Hstat Hwf.
  destruct (focal_value_promoting d m null_value focal_type width_or_radius
              height Hstat Hwf) as (out & Hval & Hdt).
  destruct (focal_run p d m null_value focal_type width_or_radius height h Hh)
    as (r & h' & Hrun & _ & Hres).
  rewrite Hval in Hres. destruct Hres as (q & -> & _ & Hq).
  exists q, h', out. split; [done|]. split; [done|].
  destruct null_value as [v|]; [done|].
  split; [done|]. rewrite Hdt. by destruct (da_dtype d).
Qed.

Lemma focal_promoting_dtype_witness :
  ∃ q h' out,
    focal (H := example_foreign) (ARaster 1%positive) "mean" (Scalar (PInt 2))
          PNone example_heap = (Ok q, h')
    ∧ holds h' q out example_mask None
    ∧ da_dtype out = I32.
Proof.
  destruct (@focal_promoting_dtype example_foreign example_heap 1%positive
              example_data example_mask None "mean" (Scalar (PInt 2)) PNone)
    as (q & h' & out & Hrun & Hq & Hdt & _).
  - exact example_heap_holds.
  - reflexivity.
  - unfold FOCAL_PROMOTING_OPS. set_solver.
  - intros [Hn|[Hn _]]; [|done]. apply Hn. exists 2. split; [done|lia].
  - exists q, h', out. split; [exact Hrun|]. split; [exact Hq|]. exact Hdt.
Defined.

(** * Further properties

    What the code shows beyond the claims above: the reducers, the halo
    and the windows of [focal.py], its validation and its dtypes, and the
    helpers and methods of [raster.py]. *)

(** ** Reducers and the null-filtered sample *)





Lemma unique_scan_set x : ∀ s : gset f64,
  foldl unique_step s x = list_to_set (sample x) ∪ s.
Proof.
  induction x as [|[|q] x IH]; intros s.
  - simpl. set_solver.
  - rewrite sample_cons_nan. simpl. apply IH.
  - rewrite sample_cons_fin. simpl. rewrite IH. unfold unique_step. simpl.
    set_solver.
Qed.

Lemma size_list_to_set_remove_dups (l : list f64) :
  size (list_to_set l : gset f64) = length (remove_dups l).
Proof.
  rewrite <-(size_list_to_set (C := gset f64) (remove_dups l)) by apply NoDup_remove_dups.
  f_equal. apply set_eq. intros v.
  by rewrite !elem_of_list_to_set, elem_of_remove_dups.
Qed.

Lemma remove_dups_length_le {A} `{EqDecision A} (l : list A) :
  (length (remove_dups l) ≤ length l)%nat.
Proof.
  induction l as [|a l IH]; simpl; [done|].
  destruct (decide_rel _ _ _); simpl; lia.
Qed.

(** X2.  On a neighborhood with at least one non-null value,
    [_agg_nan_unique] returns the number of distinct non-null values, which
    is at least 1 and at most the size of the sample. *)
Theorem unique_counts_distinct (x : list f64) :
  sample x ≠ [] →
  _agg_nan_unique x = f64_of_Z (Z.of_nat (length (remove_dups (sample x))))
  ∧ (1 ≤ length (remove_dups (sample x)) ≤ length (sample x))%nat.
Proof.
  intros Hne.
  assert (Hpos : (1 ≤ length (remove_dups (sample x)))%nat).
  { destruct (sample x) as [|v s] eqn:E; [done|].
    assert (Hv : v ∈ remove_dups (v :: s)) by (apply elem_of_remove_dups; left).
    destruct (remove_dups (v :: s)); [by apply elem_of_nil in Hv|simpl; lia]. }
  split; [|split; [done|apply remove_dups_length_le]].
  unfold _agg_nan_unique. rewrite unique_scan_set, (right_id_L ∅ (∪)).
  rewrite size_list_to_set_remove_dups.
  rewrite decide_True by lia. done.
Qed.

Lemma unique_counts_distinct_witness :
  _agg_nan_unique mode_sample
  = f64_of_Z (Z.of_nat (length (remove_dups (sample mode_sample))))
  ∧ (1 ≤ length (remove_dups (sample mode_sample)) ≤ length (sample mode_sample))%nat.
Proof.
  apply (unique_counts_distinct mode_sample). vm_compute. discriminate.
Defined.

(** *** Entropy and angular second moment *)

Lemma freq_scan_table x : ∀ c n,
  foldl freq_step (c, n) x
  = (foldl count_up c (sample x), n + Z.of_nat (length (sample x))).
Proof.
  induction x as [|[|q] x IH]; intros c n.
  - simpl. f_equal. lia.
  - rewrite sample_cons_nan. simpl. apply IH.
  - rewrite sample_cons_fin. simpl. unfold freq_step at 2. simpl.
    rewrite IH. f_equal. lia.
Qed.

Lemma lookup_foldl_count_up s : ∀ (c : gmap f64 Z) v,
  foldl count_up c s !! v
  = match c !! v with
    | Some n => Some (n + occ v s)
    | None => if decide (v ∈ s) then Some (occ v s) else None
    end.
Proof.
  induction s as [|w s IH]; intros c v.
  - cbn [foldl]. rewrite occ_nil. destruct (c !! v); [f_equal; lia|].
    destruct (decide (v ∈ [])) as [Hin|]; [by apply elem_of_nil in Hin|done].
  - simpl. rewrite IH, occ_cons. unfold count_up.
    destruct (decide (v = w)) as [->|Hne].
    + destruct (c !! w) as [n|] eqn:E; rewrite lookup_insert_eq.
      * f_equal. lia.
      * rewrite decide_True by left. done.
    + assert (Hl : (match c !! w with Some n => <[w:=n+1]> c | None => <[w:=1]> c end) !! v
                   = c !! v).
      { destruct (c !! w); by rewrite lookup_insert_ne. }
      rewrite Hl. destruct (c !! v) as [n|]; [done|].
      destruct (decide (v ∈ s)) as [Hin|Hin].
      * rewrite decide_True by (by right). f_equal; lia.
      * rewrite decide_False; [done|]. intros [?|?]%elem_of_cons; done.
Qed.

Lemma dict_values_foldl_count_up s :
  dict_values (foldl count_up ∅ s) ≡ₚ (λ v, occ v s) <$> remove_dups s.
Proof.
  unfold dict_values.
  assert (H : map_to_list (foldl count_up ∅ s) ≡ₚ (λ v, (v, occ v s)) <$> remove_dups s).
  { apply NoDup_Permutation.
    - apply NoDup_map_to_list.
    - apply NoDup_fmap_2; [|apply NoDup_remove_dups].
      intros a b Hab. by simplify_eq.
    - intros [v n]. rewrite elem_of_map_to_list, lookup_foldl_count_up, lookup_empty.
      rewrite list_elem_of_fmap. split.
      + destruct (decide (v ∈ s)) as [Hin|Hin]; [|done].
        intros Hn. simplify_eq. exists v. split; [done|]. by apply elem_of_remove_dups.
      + intros (w & Hw1 & Hw). rewrite elem_of_remove_dups in Hw. simplify_eq.
        by rewrite decide_True by done. }
  rewrite H. rewrite <-list_fmap_compose. done.
Qed.

Lemma Qc_sum_cons a l : Qc_sum (a :: l) = (a + Qc_sum l)%Qc.
Proof. done. Qed.

Lemma Qc_sum_Permutation l k : l ≡ₚ k → Qc_sum l = Qc_sum k.
Proof.
  induction 1 as [|a l k _ IH|a b l|l k m _ IH1 _ IH2]; simpl.
  - done.
  - by rewrite IH.
  - by rewrite !Qcplus_assoc, (Qcplus_comm a b).
  - by rewrite IH1.
Qed.

Lemma foldl_Qc_sum {A} (g : A → Qc) l : ∀ a,
  foldl (λ acc y, acc + g y)%Qc a l = (a + Qc_sum (g <$> l))%Qc.
Proof.
  induction l as [|y l IH]; intros a.
  - simpl. by rewrite Qcplus_0_r.
  - rewrite fmap_cons, Qc_sum_cons. cbn [foldl]. by rewrite IH, Qcplus_assoc.
Qed.

Lemma sum_indicator (a : f64) l :
  NoDup l →
  foldr Z.add 0 ((λ v, if decide (v = a) then 1 else 0) <$> l)
  = if decide (a ∈ l) then 1 else 0.
Proof.
  induction 1 as [|v l Hv Hnd IH].
  - destruct (decide (a ∈ [])) as [Hin|]; [by apply elem_of_nil in Hin|done].
  - rewrite fmap_cons. cbn [foldr]. rewrite IH. destruct (decide (v = a)) as [->|Hne].
    + rewrite decide_False by done. rewrite decide_True by left. done.
    + destruct (decide (a ∈ l)) as [Hin|Hin].
      * rewrite decide_True by (by right). done.
      * rewrite decide_False; [done|]. intros [?|?]%elem_of_cons; by simplify_eq.
Qed.

Lemma foldr_add_fmap {A} (f g : A → Z) l :
  foldr Z.add 0 ((λ v, f v + g v) <$> l)
  = foldr Z.add 0 (f <$> l) + foldr Z.add 0 (g <$> l).
Proof.
  induction l as [|a l IH]; [done|].
  rewrite !fmap_cons. cbn [foldr]. rewrite IH. lia.
Qed.

Lemma occ_total s :
  foldr Z.add 0 ((λ v, occ v s) <$> remove_dups s) = Z.of_nat (length s).
Proof.
  induction s as [|a s IH]; [done|].
  assert (Hstep : ∀ l, foldr Z.add 0 ((λ v, occ v (a :: s)) <$> l)
            = foldr Z.add 0 ((λ v, if decide (v = a) then 1 else 0) <$> l)
              + foldr Z.add 0 ((λ v, occ v s) <$> l)).
  { intros l. rewrite <-foldr_add_fmap. f_equal. apply list_fmap_ext.
    intros _ v _. apply occ_cons. }
  simpl remove_dups. destruct (decide_rel _ _ _) as [Hin|Hin].
  - rewrite Hstep, IH, sum_indicator by apply NoDup_remove_dups.
    rewrite decide_True by (by apply elem_of_remove_dups). simpl length. lia.
  - rewrite fmap_cons. simpl foldr. rewrite Hstep, IH, sum_indicator by apply NoDup_remove_dups.
    rewrite decide_False by (by rewrite elem_of_remove_dups).
    rewrite occ_cons, decide_True by done.
    assert (occ a s = 0); [|simpl length; lia].
    destruct (Z.eq_dec (occ a s) 0) as [|Hnz]; [done|].
    exfalso. apply Hin, occ_elem_of. pose proof (occ_nonneg a s). lia.
Qed.

Lemma occ_pos_elem v s : v ∈ s → 1 ≤ occ v s.
Proof.
  induction s as [|a s IH]; [by intros ?%elem_of_nil|].
  rewrite occ_cons. pose proof (occ_nonneg v s).
  intros [->|Hin]%elem_of_cons.
  - rewrite decide_True by done. lia.
  - specialize (IH Hin). destruct (decide (v = a)); lia.
Qed.

Lemma Qc_sum_of_Z l : Qc_sum (Qc_of_Z <$> l) = Qc_of_Z (foldr Z.add 0 l).
Proof.
  induction l as [|a l IH]; [exact (eq_sym Z2Qc_inj_0)|].
  rewrite fmap_cons, Qc_sum_cons. cbn [foldr]. by rewrite IH, Z2Qc_inj_add.
Qed.

Lemma Qc_sum_scale (k : Qc) l : Qc_sum ((λ q, q * k)%Qc <$> l) = (Qc_sum l * k)%Qc.
Proof.
  induction l as [|a l IH]; [simpl; by rewrite Qcmult_0_l|].
  rewrite fmap_cons, !Qc_sum_cons, IH. ring.
Qed.

Lemma frequency_total s :
  s ≠ [] → Qc_sum (frequency s <$> remove_dups s) = 1%Qc.
Proof.
  intros Hne.
  assert (E : frequency s <$> remove_dups s
              = (λ q, q * (1 / Qc_of_Z (Z.of_nat (length s))))%Qc
                  <$> (Qc_of_Z <$> ((λ v, occ v s) <$> remove_dups s)))
    by (by rewrite <-!list_fmap_compose).
  rewrite E, Qc_sum_scale, Qc_sum_of_Z, occ_total.
  field. intros H0. rewrite <-Z2Qc_inj_0 in H0. apply Z2Qc_inj in H0.
  destruct s; [done|cbn [length] in H0; lia].
Qed.

Lemma frequency_range s v :
  v ∈ s → (0 < frequency s v ∧ frequency s v ≤ 1)%Qc.
Proof.
  intros Hin. unfold frequency.
  assert (Hn : (0 < Qc_of_Z (Z.of_nat (length s)))%Qc).
  { rewrite <-Z2Qc_inj_0. apply (proj1 (Z2Qc_inj_lt _ _)). destruct s; [by apply elem_of_nil in Hin|cbn [length]; lia]. }
  assert (Hinv : (0 < 1 / Qc_of_Z (Z.of_nat (length s)))%Qc).
  { unfold Qcdiv. rewrite Qcmult_1_l. by apply Qcinv_pos. }
  split.
  - apply Qcmult_pos_pos; [|done]. rewrite <-Z2Qc_inj_0. apply (proj1 (Z2Qc_inj_lt _ _)).
    pose proof (occ_pos_elem v s Hin). lia.
  - trans (Qc_of_Z (Z.of_nat (length s)) * (1 / Qc_of_Z (Z.of_nat (length s))))%Qc.
    + apply Qcmult_le_mono_nonneg_r; [by apply Qclt_le_weak|].
      apply (proj1 (Z2Qc_inj_le _ _)). apply occ_le_length.
    + apply reflexive_eq. field. intros H0. rewrite H0 in Hn. by apply (irreflexivity Qclt) in Hn.
Qed.

Lemma Qc_sum_squares_le (f : f64 → Qc) l :
  (∀ v, v ∈ l → 0 < f v ∧ f v ≤ 1)%Qc →
  (Qc_sum ((λ v, f v * f v) <$> l) ≤ Qc_sum (f <$> l))%Qc
  ∧ (l ≠ [] → 0 < Qc_sum ((λ v, f v * f v) <$> l))%Qc.
Proof.
  induction l as [|a l IH]; intros Hr.
  - split; [done|by intros []].
  - destruct IH as [IHle IHpos]; [intros v Hv; apply Hr; by right|].
    destruct (Hr a) as [Ha0 Ha1]; [left|].
    assert (Hsq : (f a * f a ≤ f a)%Qc).
    { rewrite <-(Qcmult_1_r (f a)) at 3.
      apply Qcmult_le_mono_nonneg_l; [by apply Qclt_le_weak|done]. }
    rewrite !fmap_cons, !Qc_sum_cons. split.
    + trans (f a + Qc_sum ((λ v, f v * f v)%Qc <$> l))%Qc.
      * by apply Qcplus_le_mono_r.
      * by apply Qcplus_le_mono_l.
    + intros _. apply Qcplus_pos_nonneg; [by apply Qcmult_pos_pos|].
      destruct l as [|b l]; [done|]. apply Qclt_le_weak, IHpos. done.
Qed.

(** X3.  On a neighborhood with at least one non-null value,
    [_agg_nan_asm] is the sum, over the distinct values, of the squared
    relative frequency; it is positive and at most 1. *)
Theorem asm_sum_of_squared_frequencies (x : list f64) :
  sample x ≠ [] →
  let a := Qc_sum ((λ v, frequency (sample x) v * frequency (sample x) v)%Qc
                     <$> remove_dups (sample x)) in
  _agg_nan_asm x = Fin a ∧ (0 < a)%Qc ∧ (a ≤ 1)%Qc.
Proof.
  intros Hne a.
  assert (Hr : ∀ v, v ∈ remove_dups (sample x) →
            (0 < frequency (sample x) v ∧ frequency (sample x) v ≤ 1)%Qc).
  { intros v Hv. rewrite elem_of_remove_dups in Hv. by apply frequency_range. }
  destruct (Qc_sum_squares_le (frequency (sample x)) _ Hr) as [Hle Hpos].
  split; [|split].
  - unfold _agg_nan_asm, freq_scan. rewrite freq_scan_table.
    rewrite decide_False.
    + f_equal. rewrite Z.add_0_l.
      rewrite (foldl_Qc_sum (λ cnt, Qc_of_Z cnt * _ * (Qc_of_Z cnt * _))%Qc), Qcplus_0_l.
      rewrite (Qc_sum_Permutation _ _
                 (fmap_Permutation _ _ _ (dict_values_foldl_count_up (sample x)))).
      by rewrite <-list_fmap_compose.
    + intros Hsz%map_size_empty_inv.
      destruct (sample x) as [|v s] eqn:E; [done|].
      assert (Hl : foldl count_up ∅ (v :: s) !! v = None) by (by rewrite Hsz).
      rewrite lookup_foldl_count_up, lookup_empty, decide_True in Hl by left. done.
  - apply Hpos. destruct (sample x) as [|v s] eqn:E; [done|].
    intros Hnil. assert (Hv : v ∈ remove_dups (v :: s)) by (apply elem_of_remove_dups; left).
    rewrite Hnil in Hv. by apply elem_of_nil in Hv.
  - rewrite <-(frequency_total (sample x) Hne). exact Hle.
Qed.

Lemma asm_sum_of_squared_frequencies_witness :
  let a := Qc_sum ((λ v, frequency (sample mode_sample) v
                         * frequency (sample mode_sample) v)%Qc
                     <$> remove_dups (sample mode_sample)) in
  _agg_nan_asm mode_sample = Fin a ∧ (0 < a)%Qc ∧ (a ≤ 1)%Qc.
Proof.
  apply (asm_sum_of_squared_frequencies mode_sample). vm_compute. discriminate.
Defined.

(** X4.  On a neighborhood with at least one non-null value,
    [_agg_nan_entropy] is minus the sum, over the distinct values, of the
    relative frequency times its logarithm. *)
Theorem entropy_of_frequencies `{!Foreign} (x : list f64) :
  sample x ≠ [] →
  _agg_nan_entropy x
  = Fin (Qc_sum ((λ v, - (frequency (sample x) v * np_log (frequency (sample x) v)))%Qc
                   <$> remove_dups (sample x))).
Proof.
  intros Hne.
  unfold _agg_nan_entropy, freq_scan. rewrite freq_scan_table.
  rewrite decide_False.
  - f_equal. rewrite Z.add_0_l.
    cbv zeta. unfold Qcminus.
    rewrite (foldl_Qc_sum (λ cnt, - (Qc_of_Z cnt * _ * np_log (Qc_of_Z cnt * _)))%Qc), Qcplus_0_l.
    rewrite (Qc_sum_Permutation _ _
               (fmap_Permutation _ _ _ (dict_values_foldl_count_up (sample x)))).
    by rewrite <-list_fmap_compose.
  - intros Hsz%map_size_empty_inv.
    destruct (sample x) as [|v s] eqn:E; [done|].
    assert (Hl : foldl count_up ∅ (v :: s) !! v = None) by (by rewrite Hsz).
    rewrite lookup_foldl_count_up, lookup_empty, decide_True in Hl by left. done.
Qed.

Lemma entropy_of_frequencies_witness :
  _agg_nan_entropy (H := example_foreign) mode_sample
  = Fin (Qc_sum ((λ v, - (frequency (sample mode_sample) v
                          * np_log (Foreign := example_foreign)
                              (frequency (sample mode_sample) v)))%Qc
                   <$> remove_dups (sample mode_sample))).
Proof.
  apply (@entropy_of_frequencies example_foreign mode_sample).
  vm_compute. discriminate.
Defined.

(** ** The halo and the tiles *)

(** X5.  For a kernel with at least one row and one column the offsets
    of [_get_offsets] span the kernel, the lower and right offsets exceed
    the upper and left ones by at most one (by nothing for an odd size),
    and [_focal_dask_map] asks [map_overlap] for the larger of each pair:
    at most one extra pixel per side. *)
Theorem halo_depth_offsets `{!Foreign} (krows kcols : nat) :
  (0 < krows)%nat → (0 < kcols)%nat →
  let offsets := _get_offsets (krows, kcols) in
  let kr_top := offsets.1.1 in
  let kr_bot := offsets.1.2 in
  let kc_left := offsets.2.1 in
  let kc_right := offsets.2.2 in
  (kr_top + kr_bot + 1 = krows)%nat
  ∧ (kc_left + kc_right + 1 = kcols)%nat
  ∧ (kr_top ≤ kr_bot ≤ kr_top + 1)%nat
  ∧ (kc_left ≤ kc_right ≤ kc_left + 1)%nat
  ∧ (Nat.odd krows = true → kr_top = kr_bot)
  ∧ (Nat.odd kcols = true → kc_left = kc_right)
  ∧ ∀ data chunk_func bnd,
      _focal_dask_map data chunk_func (krows, kcols) bnd
      = map_overlap data chunk_func kr_bot kc_right bnd.
Proof.
  intros Hr Hc. cbv [_get_offsets fst snd].
  pose proof (Nat.div_mod_eq krows 2) as Hdr.
  pose proof (Nat.div_mod_eq kcols 2) as Hdc.
  pose proof (Nat.div_mod_eq (krows - 1) 2) as Hdr1.
  pose proof (Nat.div_mod_eq (kcols - 1) 2) as Hdc1.
  pose proof (Nat.mod_upper_bound krows 2 ltac:(lia)).
  pose proof (Nat.mod_upper_bound kcols 2 ltac:(lia)).
  pose proof (Nat.mod_upper_bound (krows - 1) 2 ltac:(lia)).
  pose proof (Nat.mod_upper_bound (kcols - 1) 2 ltac:(lia)).
  split; [lia|]. split; [lia|]. split; [lia|]. split; [lia|].
  split; [|split].
  - rewrite Nat.odd_spec. intros [k Hk]. lia.
  - rewrite Nat.odd_spec. intros [k Hk]. lia.
  - intros data chunk_func bnd. unfold _focal_dask_map. cbv [_get_offsets fst snd].
    f_equal; lia.
Qed.

Lemma halo_depth_offsets_witness :
  _focal_dask_map (H := example_foreign) (Arr2 F64 example_band)
    (λ chunk, _focal_chunk chunk example_footprint _agg_nan_sum)
    (2, 3)%nat (BConstant NaN)
  = map_overlap (H := example_foreign) (Arr2 F64 example_band)
      (λ chunk, _focal_chunk chunk example_footprint _agg_nan_sum)
      1 1 (BConstant NaN).
Proof.
  pose proof (@halo_depth_offsets example_foreign 2 3 ltac:(lia) ltac:(lia))
    as (_ & _ & _ & _ & _ & _ & H).
  exact (H _ _ _).
Defined.

(** X7.  When the halo [map_overlap] attaches has the depth asked for,
    [_focal_dispatch] returns a band of the shape and the dtype of the
    band it was given, for both chunk functions. *)
Theorem focal_dispatch_keeps_shape `{!Foreign} (op : chunk_op) (data : arr2)
    (bnd : boundary) (rows cols : nat) :
  let rpad := (pad_depth (op_kernel_shape op)).1 in
  let cpad := (pad_depth (op_kernel_shape op)).2 in
  has_shape (da_overlap bnd rpad cpad (a2_data data))
            (rows + 2 * rpad) (cols + 2 * cpad) →
  has_shape (a2_data (_focal_dispatch op data bnd)) rows cols
  ∧ a2_dtype (_focal_dispatch op data bnd) = a2_dtype data.
Proof.
  intros rpad cpad Hpad. split; [|done].
  set (chunk_func := match op with
                     | OpCorrelate kernel => λ chunk, _correlate2d_chunk chunk kernel
                     | OpFocal kernel func => λ chunk, _focal_chunk chunk kernel func
                     end).
  change (has_shape
            (trim rpad cpad
               (written (chunk_func (da_overlap bnd rpad cpad (a2_data data)))))
            rows cols).
  assert (Hx : has_shape (chunk_func (da_overlap bnd rpad cpad (a2_data data)))
                 (rows + 2 * rpad) (cols + 2 * cpad)).
  { unfold chunk_func. destruct op as [kernel|kernel func].
    - unfold _correlate2d_chunk. apply fill_shape. by apply np_empty_like_shape.
    - unfold _focal_chunk. apply fill_shape. by apply np_empty_like_shape. }
  pose proof (trim_shape _ _ _ rpad cpad (written_shape _ _ _ Hx)) as Ht.
  replace (rows + 2 * rpad - 2 * rpad)%nat with rows in Ht by lia.
  replace (cols + 2 * cpad - 2 * cpad)%nat with cols in Ht by lia.
  exact Ht.
Qed.

Lemma focal_dispatch_keeps_shape_witness :
  has_shape (a2_data (_focal_dispatch (H := example_foreign)
                        (OpFocal example_footprint _agg_nan_sum)
                        (Arr2 F64 example_band) (BConstant NaN))) 2 2
  ∧ a2_dtype (_focal_dispatch (H := example_foreign)
                (OpFocal example_footprint _agg_nan_sum)
                (Arr2 F64 example_band) (BConstant NaN)) = F64.
Proof.
  apply (@focal_dispatch_keeps_shape example_foreign
           (OpFocal example_footprint _agg_nan_sum)
           (Arr2 F64 example_band) (BConstant NaN) 2 2).
  split; [reflexivity|]. repeat constructor.
Defined.

(** X6.  The neighborhood [_focal_chunk] hands to the reducer at a cell
    is the footprint laid over the chunk with its reference position on
    the cell, row by row: the source value where the footprint is true, NaN
    where it is false. *)
Theorem focal_neighborhood_values chunk (kernel : grid bool) krows kcols r c :
  has_shape kernel krows kcols →
  (0 < krows)%nat → (0 < kcols)%nat →
  ((krows - 1) / 2 ≤ r)%nat → ((kcols - 1) / 2 ≤ c)%nat →
  neighborhood chunk kernel r c
  = footprint_values chunk (r - (krows - 1) / 2) (c - (kcols - 1) / 2) kernel.
Proof.
  intros Hk Hkr Hkc Hrt Hcl. unfold neighborhood.
  replace (nrows kernel) with krows by (symmetry; apply Hk).
  rewrite (has_shape_ncols kernel krows kcols) by done.
  cbv [_get_offsets]. unfold gather.
  rewrite (range_span r _ _ krows) by (done || by apply offsets_span).
  rewrite (range_span c _ _ kcols) by (done || by apply offsets_span).
  pose proof (gather_rows chunk (ravel kernel) kcols (c - (kcols - 1) / 2)
                kernel [] [] [] 0%nat (r - (krows - 1) / 2)) as H.
  cbn [length app Nat.add] in H.
  rewrite Nat.add_0_r, (concat_length_shape kernel krows kcols) in H by done.
  destruct Hk as [Hr Hc]. rewrite Hr in H.
  rewrite H; [|by rewrite app_nil_r|done..].
  cbn [fst]. by rewrite app_nil_r.
Qed.

Lemma focal_neighborhood_values_witness :
  neighborhood example_tile example_footprint 1 1
  = footprint_values example_tile 0 0 example_footprint.
Proof.
  apply (focal_neighborhood_values example_tile example_footprint 3 3 1 1).
  - split; [reflexivity|]. repeat constructor.
  - lia.
  - lia.
  - simpl. lia.
  - simpl. lia.
Defined.

(** ** Windows *)

(** X8.  A positive integer width with a positive integer height gives
    the rectangle window: an array of [width] rows and [height] columns,
    every cell true. *)
Theorem rectangle_window (width height : Z) :
  0 < width → 0 < height →
  ∃ w, get_focal_window (Scalar (PInt width)) (PInt height) = Ok w
       ∧ has_shape w (Z.to_nat width) (Z.to_nat height)
       ∧ ∀ x y, (x < Z.to_nat width)%nat → (y < Z.to_nat height)%nat →
           lookup2 w x y = Some true.
Proof.
  intros Hw Hh. exists (np_full (Z.to_nat width) (Z.to_nat height) true).
  split; [|split].
  - unfold get_focal_window. simpl.
    destruct (Z.leb_spec width 0); [lia|]. simpl.
    destruct (Z.leb_spec height 0); [lia|]. done.
  - apply np_full_shape.
  - intros x y Hx Hy. by apply lookup2_np_full.
Qed.

Lemma rectangle_window_witness :
  ∃ w, get_focal_window (Scalar (PInt 2)) (PInt 3) = Ok w
       ∧ has_shape w 2 3.
Proof.
  destruct (rectangle_window 2 3) as (w & Hw & Hs & _); [lia..|].
  exists w. split; [exact Hw|exact Hs].
Defined.

Lemma in_circle_sq_dist r x y :
  in_circle r x y = bool_decide (sq_dist (r - 1) x y ≤ (r - 1) ^ 2).
Proof. done. Qed.

(** X9.  The circle window of a radius [r > 0] is symmetric: it is its
    own transpose and its own mirror image along both axes.  Its center and
    the middle cell of its first row and of its first column are true (the
    circle extends to the edge of the grid), and for [r > 1] its corner is
    false. *)
Theorem circle_footprint_symmetric (r : Z) :
  0 < r →
  ∃ w, get_focal_window (Scalar (PInt r)) PNone = Ok w
       ∧ (∀ x y, (x < circle_side r)%nat → (y < circle_side r)%nat →
            lookup2 w y x = lookup2 w x y
            ∧ lookup2 w (circle_side r - 1 - x) y = lookup2 w x y
            ∧ lookup2 w x (circle_side r - 1 - y) = lookup2 w x y)
       ∧ lookup2 w (Z.to_nat (r - 1)) (Z.to_nat (r - 1)) = Some true
       ∧ lookup2 w 0 (Z.to_nat (r - 1)) = Some true
       ∧ lookup2 w (Z.to_nat (r - 1)) 0 = Some true
       ∧ (1 < r → lookup2 w 0 0 = Some false).
Proof.
  intros Hr. exists (circle_window r).
  split; [by apply get_focal_window_radius|].
  assert (Hside : Z.of_nat (circle_side r) = 2 * r - 1) by (unfold circle_side; lia).
  split; [|split; [|split; [|split]]].
  - intros x y Hx Hy.
    rewrite !lookup2_circle_window by lia.
    unfold in_circle. split; [|split]; f_equal; apply bool_decide_ext.
    + lia.
    + replace (Z.of_nat (circle_side r - 1 - x) - (r - 1))
        with (- (Z.of_nat x - (r - 1))) by lia.
      rewrite Z.pow_opp_even; [done|by exists 1].
    + replace (Z.of_nat (circle_side r - 1 - y) - (r - 1))
        with (- (Z.of_nat y - (r - 1))) by lia.
      rewrite Z.pow_opp_even; [done|by exists 1].
  - rewrite lookup2_circle_window by lia. f_equal.
    apply bool_decide_eq_true_2. rewrite Z2Nat.id by lia. nia.
  - rewrite lookup2_circle_window by lia. f_equal.
    apply bool_decide_eq_true_2. rewrite Z2Nat.id by lia. nia.
  - rewrite lookup2_circle_window by lia. f_equal.
    apply bool_decide_eq_true_2. rewrite Z2Nat.id by lia. nia.
  - intros Hr1. rewrite lookup2_circle_window by lia. f_equal.
    apply bool_decide_eq_false_2. nia.
Qed.

Lemma circle_footprint_symmetric_witness :
  ∃ w, get_focal_window (Scalar (PInt 3)) PNone = Ok w
       ∧ lookup2 w 2 2 = Some true
       ∧ lookup2 w 0 0 = Some false.
Proof.
  destruct (circle_footprint_symmetric 3) as (w & Hw & _ & Hc & _ & _ & Hcorner);
    [lia|].
  exists w. split; [exact Hw|]. split; [exact Hc|]. apply Hcorner. lia.
Defined.

Lemma lookup_replicate_lt {A} (n : nat) (v : A) i : (i < n)%nat → replicate n v !! i = Some v.
Proof. intros. by apply lookup_replicate_2. Qed.

Lemma lookup2_np_pad {A} (a : grid A) rows cols pad (fill : A) x y :
  has_shape a rows cols → (0 < rows)%nat →
  (x < pad + rows + pad)%nat → (y < pad + cols + pad)%nat →
  lookup2 (np_pad a pad pad fill) x y
  = if decide ((pad ≤ x < pad + rows)%nat ∧ (pad ≤ y < pad + cols)%nat)
    then lookup2 a (x - pad) (y - pad)
    else Some fill.
Proof.
  intros Hs Hpos Hx Hy. unfold np_pad, lookup2.
  rewrite (has_shape_ncols a rows cols) by done.
  destruct Hs as [Hr Hc].
  destruct (decide (x < pad)%nat) as [Hx1|Hx1].
  - rewrite lookup_app_l by (rewrite length_replicate; lia).
    rewrite lookup_replicate_lt by done. simpl.
    rewrite lookup_replicate_lt by lia.
    rewrite decide_False by lia. done.
  - rewrite lookup_app_r by (rewrite length_replicate; lia).
    rewrite length_replicate.
    destruct (decide (x < pad + rows)%nat) as [Hx2|Hx2].
    + rewrite lookup_app_l by (rewrite length_fmap; lia).
      rewrite list_lookup_fmap.
      destruct (lookup_lt_is_Some_2 a (x - pad)) as [row Hrow]; [lia|].
      rewrite Hrow. simpl.
      rewrite Forall_lookup in Hc. specialize (Hc _ _ Hrow). simpl in Hc.
      destruct (decide (y < pad)%nat) as [Hy1|Hy1].
      * rewrite lookup_app_l by (rewrite length_replicate; lia).
        rewrite lookup_replicate_lt by done.
        rewrite decide_False by lia. done.
      * rewrite lookup_app_r by (rewrite length_replicate; lia).
        rewrite length_replicate.
        destruct (decide (y < pad + cols)%nat) as [Hy2|Hy2].
        -- rewrite lookup_app_l by lia. rewrite decide_True by lia. done.
        -- rewrite lookup_app_r by lia. rewrite lookup_replicate_lt by lia.
           rewrite decide_False by lia. done.
    + rewrite lookup_app_r by (rewrite length_fmap; lia).
      rewrite length_fmap, lookup_replicate_lt by lia. simpl.
      rewrite lookup_replicate_lt by lia.
      rewrite decide_False by lia. done.
Qed.

Lemma annulus_window_circles r1 r2 :
  0 < r1 → r1 < r2 →
  annulus_window (circle_window r1) (circle_window r2)
  = clear_where (circle_window r2)
      (np_pad (circle_window r1) (Z.to_nat (r2 - r1)) (Z.to_nat (r2 - r1)) false).
Proof.
  intros H1 H2.
  pose proof (circle_window_shape r1) as Hs1.
  pose proof (circle_window_shape r2) as Hs2.
  assert (Hn1 : (0 < circle_side r1)%nat) by (unfold circle_side; lia).
  assert (Hn2 : (0 < circle_side r2)%nat) by (unfold circle_side; lia).
  assert (Hr1 : nrows (circle_window r1) = circle_side r1) by apply Hs1.
  assert (Hr2 : nrows (circle_window r2) = circle_side r2) by apply Hs2.
  pose proof (has_shape_ncols _ _ _ Hs1 Hn1) as Hc1.
  pose proof (has_shape_ncols _ _ _ Hs2 Hn2) as Hc2.
  assert (Hpad : ((circle_side r2 - circle_side r1) / 2)%nat = Z.to_nat (r2 - r1)).
  { replace (circle_side r2 - circle_side r1)%nat
      with (Z.to_nat (r2 - r1) * 2)%nat by (unfold circle_side; lia).
    by rewrite Nat.div_mul. }
  unfold annulus_window. cbn [fst snd]. by rewrite Hr1, Hr2, Hc1, Hc2, Hpad.
Qed.

(** X10.  For [0 < r1 < r2] the annulus window is the ring between the
    two circles: a cell is true exactly when its squared distance to the
    center [(r2-1, r2-1)] is above [(r1-1)^2] and at most [(r2-1)^2].  The
    center itself is false. *)
Theorem annulus_is_ring (r1 r2 : Z) :
  0 < r1 → r1 < r2 →
  ∃ a, get_focal_window (Sequence [PInt r1; PInt r2]) PNone = Ok a
       ∧ (∀ x y, (x < circle_side r2)%nat → (y < circle_side r2)%nat →
            lookup2 a x y
            = Some (bool_decide ((r1 - 1) ^ 2 < sq_dist (r2 - 1) x y
                                 ∧ sq_dist (r2 - 1) x y ≤ (r2 - 1) ^ 2)))
       ∧ lookup2 a (Z.to_nat (r2 - 1)) (Z.to_nat (r2 - 1)) = Some false.
Proof.
  intros H1 H2.
  exists (annulus_window (circle_window r1) (circle_window r2)).
  split; [by apply get_focal_window_radii|].
  assert (Hcells : ∀ x y, (x < circle_side r2)%nat → (y < circle_side r2)%nat →
            lookup2 (annulus_window (circle_window r1) (circle_window r2)) x y
            = Some (bool_decide ((r1 - 1) ^ 2 < sq_dist (r2 - 1) x y
                                 ∧ sq_dist (r2 - 1) x y ≤ (r2 - 1) ^ 2))).
  { intros x y Hx Hy. rewrite annulus_window_circles by done.
    rewrite lookup2_clear_where, lookup2_circle_window by done. simpl.
    rewrite (lookup2_np_pad _ (circle_side r1) (circle_side r1))
      by (apply circle_window_shape || unfold circle_side in *; lia).
    unfold in_circle, sq_dist.
    set (p := Z.to_nat (r2 - r1)).
    assert (Hp : Z.of_nat p = r2 - r1) by (unfold p; lia).
    assert (Hs1 : Z.of_nat (circle_side r1) = 2 * r1 - 1) by (unfold circle_side; lia).
    assert (Hs2 : Z.of_nat (circle_side r2) = 2 * r2 - 1) by (unfold circle_side; lia).
    destruct (decide ((p ≤ x < p + circle_side r1)%nat
                      ∧ (p ≤ y < p + circle_side r1)%nat)) as [Hin|Hout].
    - rewrite lookup2_circle_window by lia. simpl. f_equal.
      unfold in_circle.
      replace (Z.of_nat (x - p) - (r1 - 1)) with (Z.of_nat x - (r2 - 1)) by lia.
      replace (Z.of_nat (y - p) - (r1 - 1)) with (Z.of_nat y - (r2 - 1)) by lia.
      repeat case_bool_decide; try done; lia.
    - simpl. f_equal.
      assert (Hfar : (r1 - 1) ^ 2 < (Z.of_nat x - (r2 - 1)) ^ 2 + (Z.of_nat y - (r2 - 1)) ^ 2).
      { assert (Hc : r1 - 1 < Z.abs (Z.of_nat x - (r2 - 1))
                     ∨ r1 - 1 < Z.abs (Z.of_nat y - (r2 - 1))) by lia.
        destruct Hc as [Hc|Hc]; nia. }
      repeat case_bool_decide; try done; lia. }
  split; [done|].
  rewrite Hcells by (unfold circle_side; lia). f_equal.
  apply bool_decide_eq_false_2. unfold sq_dist. rewrite Z2Nat.id by lia.
  intros [Hlt _]. nia.
Qed.

Lemma annulus_is_ring_witness :
  ∃ a, get_focal_window (Sequence [PInt 1; PInt 3]) PNone = Ok a
       ∧ lookup2 a 2 2 = Some false.
Proof.
  destruct (annulus_is_ring 1 3) as (a & Ha & _ & Hc); [lia..|].
  exists a. split; [exact Ha|exact Hc].
Defined.

(** ** Validation *)

(** X11.  The exception [get_focal_window] raises, by kind: a value
    that is not an int gives a TypeError, an int that is not positive a
    ValueError, in the radius or width as in the height; a sequence that is
    not a pair, a pair that does not increase and a pair with a height give
    a ValueError. *)
Theorem focal_window_error_kinds :
  (∀ v height, is_int v = false →
     raises (get_focal_window (Scalar v) height) KTypeError)
  ∧ (∀ n height, n ≤ 0 →
       raises (get_focal_window (Scalar (PInt n)) height) KValueError)
  ∧ (∀ n height, 0 < n → height ≠ PNone → is_int height = false →
       raises (get_focal_window (Scalar (PInt n)) height) KTypeError)
  ∧ (∀ n m, 0 < n → m ≤ 0 →
       raises (get_focal_window (Scalar (PInt n)) (PInt m)) KValueError)
  ∧ (∀ l height, length l ≠ 2%nat →
       raises (get_focal_window (Sequence l) height) KValueError)
  ∧ (∀ n1 n2 height, n2 ≤ n1 →
       raises (get_focal_window (Sequence [PInt n1; PInt n2]) height) KValueError)
  ∧ (∀ n1 n2 height, 0 < n1 → n1 < n2 → height ≠ PNone →
       raises (get_focal_window (Sequence [PInt n1; PInt n2]) height) KValueError).
Proof.
  unfold raises. repeat split.
  - intros v height Hv. unfold get_focal_window. simpl. rewrite Hv. simpl.
    by eexists.
  - intros n height Hn. unfold get_focal_window. simpl.
    destruct (Z.leb_spec n 0); [|lia]. by eexists.
  - intros n height Hn Hh Hi. unfold get_focal_window. simpl.
    destruct (Z.leb_spec n 0); [lia|]. simpl.
    destruct height; try done; by eexists.
  - intros n m Hn Hm. unfold get_focal_window. simpl.
    destruct (Z.leb_spec n 0); [lia|]. simpl.
    destruct (Z.leb_spec m 0); [|lia]. by eexists.
  - intros l height Hl. unfold get_focal_window.
    rewrite bool_decide_eq_true_2 by done. by eexists.
  - intros n1 n2 height Hn. unfold get_focal_window. simpl.
    destruct (Z.leb_spec n2 n1); [|lia]. by eexists.
  - intros n1 n2 height H1 H2 Hh. unfold get_focal_window. simpl.
    destruct (Z.leb_spec n2 n1); [lia|]. simpl.
    destruct (Z.leb_spec n1 0); [lia|].
    destruct (Z.leb_spec n2 0); [lia|]. simpl.
    destruct height; try done; by eexists.
Qed.





(** ** dtypes and errors of the entry points *)

Lemma nan_where_dtype m a : da_dtype (nan_where m a) = where_dtype (da_dtype a).
Proof. done. Qed.

Lemma nan_where_length m a :
  length (da_bands m) = length (da_bands a) →
  length (da_bands (nan_where m a)) = length (da_bands a).
Proof. intros Hl. unfold nan_where. simpl. rewrite length_zip_with. lia. Qed.

Lemma darray_astype_length `{!Foreign} to a :
  length (da_bands (darray_astype to a)) = length (da_bands a).
Proof. unfold darray_astype. simpl. by rewrite length_fmap. Qed.

Lemma where_dtype_id dt : is_float_dtype dt = true → where_dtype dt = dt.
Proof. unfold where_dtype. by intros ->. Qed.

(** X15.  For a statistic that does not force float semantics (min,
    max, mode, sum, unique) and a well-formed footprint spec, [focal]
    returns a raster whose data has the dtype and the number of bands of
    the input, with the mask and the null value of the input; with a null
    value the data is cast up, filled with NaN and cast back. *)
Theorem focal_keeps_dtype `{!Foreign} (h : heap) (p : loc) (d m : darray)
    (null_value : option f64) (focal_type : string)
    (width_or_radius : py_arg) (height : pyval) :
  holds h p d m null_value →
  is_float_dtype (promote_dtype_to_float (da_dtype d)) = true →
  length (da_bands m) = length (da_bands d) →
  focal_type ∈ FOCAL_STATS →
  focal_type ∉ FOCAL_PROMOTING_OPS →
  ¬ malformed width_or_radius height →
  ∃ q h' out,
    focal (ARaster p) focal_type width_or_radius height h = (Ok q, h')
    ∧ holds h' q out m null_value
    ∧ da_dtype out = da_dtype d
    ∧ length (da_bands out) = length (da_bands d).
Proof.
  intros Hh Hfl Hlen Hstat Hnp Hwf.
  destruct (focal_run p d m null_value focal_type width_or_radius height h Hh)
    as (r & h' & Hrun & _ & Hres).
  unfold focal_value in Hres.
  rewrite bool_decide_eq_false_2 in Hres by (by intros Hn).
  destruct (get_focal_window_cases width_or_radius height)
    as [[[w Hw] _]|[_ Hmal]]; [|done].
  rewrite Hw in Hres. cbn [mbind result_bind] in Hres.
  rewrite (bool_decide_eq_true_2 (focal_type ∉ FOCAL_PROMOTING_OPS)) in Hres by done.
  rewrite andb_true_r in Hres.
  set (f := λ band, _focal band (ndarray_of_window w) focal_type _) in Hres.
  set (data := if bool_decide (is_Some null_value) then _ else d) in Hres.
  pose proof (bands_loop_dtype f (range 0 (length (da_bands data))) data)
    as [Hdt Hln].
  pose proof (bands_loop_ok f (range 0 (length (da_bands data))) data) as Hok.
  destruct (bands_loop f (range 0 (length (da_bands data))) data) as [r1 a1].
  simpl in Hdt, Hln, Hok. rewrite Hok in Hres
    by (first [intros band; by apply _focal_ok | apply Forall_range_lt]).
  destruct Hres as (q & -> & _ & Hq).
  eexists q, h', _. split; [done|]. split; [exact Hq|].
  unfold data in Hdt, Hln.
  destruct (bool_decide (is_Some null_value)); cbn [andb] in *.
  - case_bool_decide as Hup.
    + split; [done|]. rewrite darray_astype_length, Hln, nan_where_length.
      * apply darray_astype_length.
      * by rewrite darray_astype_length.
    + rewrite nan_where_dtype in Hdt. rewrite nan_where_length in Hln by done.
      split; [|done]. rewrite Hdt. apply where_dtype_id.
      assert (Heq : promote_dtype_to_float (da_dtype d) = da_dtype d)
        by (destruct (decide (promote_dtype_to_float (da_dtype d) = da_dtype d)); done).
      by rewrite <-Heq.
  - done.
Qed.

Lemma _correlate_ok `{!Foreign} data kernel mode cval nan_aware :
  check_kernel kernel = Ok () → mode ∈ _VALID_CORRELATE_MODES →
  ∃ res, _correlate data kernel mode cval nan_aware = Ok res.
Proof.
  intros Hk Hm. unfold _correlate. rewrite Hk. cbn [mbind result_bind].
  rewrite bool_decide_eq_false_2 by (by intros Hn).
  destruct nan_aware; by eexists.
Qed.

Lemma focal_keeps_dtype_witness :
  ∃ q h' out,
    focal (H := example_foreign) (ARaster 1%positive) "max" (Scalar (PInt 2))
          PNone example_heap = (Ok q, h')
    ∧ holds h' q out example_mask None
    ∧ da_dtype out = I32
    ∧ length (da_bands out) = 2%nat.
Proof.
  apply (@focal_keeps_dtype example_foreign example_heap 1%positive
           example_data example_mask None "max" (Scalar (PInt 2)) PNone).
  - exact example_heap_holds.
  - reflexivity.
  - reflexivity.
  - unfold FOCAL_STATS. set_solver.
  - unfold FOCAL_PROMOTING_OPS. set_solver.
  - intros [Hn|[Hn _]]; [|done]. apply Hn. exists 2. split; [done|lia].
Defined.

(** X16.  With a kernel that passes [check_kernel] and a valid edge mode,
    [correlate] returns a raster whose data has the working dtype (float64
    for integer data under a float kernel, the dtype of the input
    otherwise) and the number of bands of the input, with the mask and the
    null value of the input. *)
Theorem correlate_dtype `{!Foreign} (h : heap) (p : loc) (d m : darray)
    (null_value : option f64) (kernel : ndarray) (mode : string) (cval : f64) :
  holds h p d m null_value →
  is_float_dtype (promote_dtype_to_float (working_dtype kernel d)) = true →
  length (da_bands m) = length (da_bands d) →
  check_kernel kernel = Ok () →
  mode ∈ _VALID_CORRELATE_MODES →
  ∃ q h' out,
    correlate (ARaster p) kernel mode cval h = (Ok q, h')
    ∧ holds h' q out m null_value
    ∧ da_dtype out = working_dtype kernel d
    ∧ length (da_bands out) = length (da_bands d).
Proof.
  intros Hh Hfl Hlen Hk Hm.
  destruct (correlate_run p d m null_value kernel mode cval h Hh)
    as (r & h' & Hrun & _ & Hres).
  unfold correlate_value in Hres. rewrite Hk in Hres.
  cbn [mbind result_bind] in Hres.
  set (d' := if is_float_dtype (nd_dtype kernel) && is_int_dtype (da_dtype d)
             then darray_astype F64 d else d) in Hres.
  assert (Hd' : da_dtype d' = working_dtype kernel d).
  { unfold d', working_dtype. by destruct (_ && _). }
  assert (Hl' : length (da_bands d') = length (da_bands d)).
  { unfold d'. destruct (_ && _); [apply darray_astype_length|done]. }
  unfold correlate_rest_value in Hres. rewrite Hd' in Hres.
  set (f := λ band, _correlate band kernel mode cval _) in Hres.
  set (data := if bool_decide (is_Some null_value) then _ else d') in Hres.
  pose proof (bands_loop_dtype f (range 0 (length (da_bands data))) data)
    as [Hdt Hln].
  pose proof (bands_loop_ok f (range 0 (length (da_bands data))) data) as Hok.
  destruct (bands_loop f (range 0 (length (da_bands data))) data) as [r1 a1].
  simpl in Hdt, Hln, Hok. rewrite Hok in Hres
    by (first [intros band; by apply _correlate_ok | apply Forall_range_lt]).
  destruct Hres as (q & -> & _ & Hq).
  eexists q, h', _. split; [done|]. split; [exact Hq|].
  unfold data in Hdt, Hln.
  destruct (bool_decide (is_Some null_value)); cbn [andb] in *.
  - case_bool_decide as Hup.
    + split; [done|]. rewrite darray_astype_length, Hln, nan_where_length.
      * by rewrite darray_astype_length.
      * rewrite darray_astype_length. congruence.
    + rewrite nan_where_dtype in Hdt. rewrite nan_where_length in Hln by congruence.
      split; [|congruence]. rewrite Hdt, Hd'. apply where_dtype_id.
      assert (Heq : promote_dtype_to_float (working_dtype kernel d) = working_dtype kernel d)
        by (destruct (decide (promote_dtype_to_float (working_dtype kernel d)
                              = working_dtype kernel d)); done).
      by rewrite <-Heq.
  - split; [congruence|congruence].
Qed.

Lemma correlate_dtype_witness :
  ∃ q h' out,
    correlate (H := example_foreign) (ARaster 1%positive)
      (NdArray F64 (Nd2 example_kernel)) "constant" (Fin 0%Qc) example_heap
    = (Ok q, h')
    ∧ holds h' q out example_mask None
    ∧ da_dtype out = F64
    ∧ length (da_bands out) = 2%nat.
Proof.
  apply (@correlate_dtype example_foreign example_heap 1%positive
           example_data example_mask None (NdArray F64 (Nd2 example_kernel))
           "constant" (Fin 0%Qc)).
  - exact example_heap_holds.
  - reflexivity.
  - reflexivity.
  - reflexivity.
  - unfold _VALID_CORRELATE_MODES, _MODE_TO_DASK_BOUNDARY.
    rewrite !dom_insert_L, dom_singleton_L. set_solver.
Defined.

(** X17.  What the entry points raise on a bad argument, with the store
    untouched: [focal] and [correlate] raise a TypeError for a first
    argument that is neither a Raster nor a string, whatever the kernel;
    [convolve] checks the kernel first and raises a ValueError for a kernel
    [check_kernel] rejects, whatever the first argument, as [correlate]
    does for a Raster. *)
Theorem entry_point_argument_errors `{!Foreign} (h : heap) :
  (∀ focal_type width_or_radius height,
     ∃ e, focal AOther focal_type width_or_radius height h = (Err e, h)
          ∧ kind_of e = KTypeError)
  ∧ (∀ kernel mode cval,
       ∃ e, correlate AOther kernel mode cval h = (Err e, h)
            ∧ kind_of e = KTypeError)
  ∧ (∀ raster kernel mode cval,
       check_kernel kernel ≠ Ok () →
       ∃ e, convolve raster kernel mode cval h = (Err e, h)
            ∧ kind_of e = KValueError)
  ∧ (∀ p kernel mode cval,
       check_kernel kernel ≠ Ok () →
       ∃ e, correlate (ARaster p) kernel mode cval h = (Err e, h)
            ∧ kind_of e = KValueError).
Proof.
  assert (Hck : ∀ kernel, check_kernel kernel ≠ Ok () →
            ∃ e, check_kernel kernel = Err e ∧ kind_of e = KValueError).
  { intros kernel Hk. unfold check_kernel in *.
    destruct (nd_vals kernel); [by eexists| |by eexists].
    destruct (existsb _ _); [by eexists|done]. }
  split; [|split; [|split]].
  - intros. by eexists.
  - intros. by eexists.
  - intros raster kernel mode cval Hk.
    destruct (Hck kernel Hk) as (e & He & Hkind). exists e. split; [|done].
    unfold convolve. rewrite St_bind_unfold. unfold lift at 1. by rewrite He.
  - intros p kernel mode cval Hk.
    destruct (Hck kernel Hk) as (e & He & Hkind). exists e. split; [|done].
    unfold correlate, as_raster. rewrite St_bind_unfold, St_ret_unfold.
    rewrite St_bind_unfold. unfold lift at 1. by rewrite He.
Qed.

Lemma reverse_lookup_lt {A} (l : list A) i :
  (i < length l)%nat → reverse l !! i = l !! (length l - 1 - i)%nat.
Proof.
  intros Hi. rewrite reverse_lookup by done. f_equal. lia.
Qed.

(** X18.  Reversing a 2-D kernel along both axes keeps its shape and
    dtype, puts the cell [(rows-1-i, cols-1-j)] at [(i, j)], keeps a
    kernel free of NaN free of NaN, and done twice gives the kernel back. *)
Theorem flip_kernel_cells (dt : dtype) (g : grid f64) (rows cols : nat) :
  has_shape g rows cols →
  ∃ g', flip_kernel (NdArray dt (Nd2 g)) = Ok (NdArray dt (Nd2 g'))
        ∧ has_shape g' rows cols
        ∧ (∀ i j, (i < rows)%nat → (j < cols)%nat →
             lookup2 g' i j = lookup2 g (rows - 1 - i) (cols - 1 - j))
        ∧ flip_kernel (NdArray dt (Nd2 g')) = Ok (NdArray dt (Nd2 g))
        ∧ (nan_free g → nan_free g').
Proof.
  intros [Hr Hc].
  exists (reverse ((λ row : list f64, reverse row) <$> g)).
  split; [done|]. split; [|split; [|split]].
  - split.
    + by rewrite length_reverse, length_fmap.
    + apply Forall_reverse, Forall_fmap. eapply Forall_impl; [exact Hc|].
      intros row Hrow. simpl. by rewrite length_reverse.
  - intros i j Hi Hj. unfold lookup2.
    rewrite reverse_lookup_lt by (rewrite length_fmap; lia).
    rewrite length_fmap, list_lookup_fmap, Hr.
    destruct (g !! (rows - 1 - i)%nat) as [row|] eqn:Hrow; [|done]. simpl.
    rewrite Forall_lookup in Hc. specialize (Hc _ _ Hrow). simpl in Hc.
    rewrite reverse_lookup_lt by lia. by rewrite Hc.
  - unfold flip_kernel. simpl. do 3 f_equal.
    rewrite fmap_reverse, reverse_involutive, <-list_fmap_compose.
    rewrite <-(list_fmap_id g) at 2. apply list_fmap_ext.
    intros _ row _. simpl. apply reverse_involutive.
  - unfold nan_free. intros Hg. apply Forall_reverse, Forall_fmap.
    eapply Forall_impl; [exact Hg|]. intros row Hrow. simpl.
    by apply Forall_reverse.
Qed.

Lemma flip_kernel_cells_witness :
  ∃ g', flip_kernel (NdArray F64 (Nd2 example_kernel)) = Ok (NdArray F64 (Nd2 g'))
        ∧ lookup2 g' 0 0 = Some (f64_of_Z 4).
Proof.
  destruct (flip_kernel_cells F64 example_kernel 2 2) as (g' & Hf & _ & Hc & _).
  - split; [reflexivity|]. repeat constructor.
  - exists g'. split; [exact Hf|]. rewrite (Hc 0%nat 0%nat) by lia. reflexivity.
Defined.

(** ** raster.py: vectorization helpers *)

(** X19.  [_get_rio_shapes_dtype] maps every dtype to one of the five
    rasterio's [shapes] supports, leaves those five as they are, does
    nothing when applied twice, and never turns an integer dtype into a
    float dtype or back. *)
Theorem rio_shapes_dtype_supported (dt : dtype) :
  _get_rio_shapes_dtype dt ∈ [I16; I32; U8; U16; F32]
  ∧ (dt ∈ [I16; I32; U8; U16; F32] → _get_rio_shapes_dtype dt = dt)
  ∧ _get_rio_shapes_dtype (_get_rio_shapes_dtype dt) = _get_rio_shapes_dtype dt
  ∧ is_float_dtype (_get_rio_shapes_dtype dt) = is_float_dtype dt.
Proof.
  split; [|split; [|split]].
  - destruct dt; vm_compute; set_solver.
  - intros Hin. unfold _get_rio_shapes_dtype. by rewrite bool_decide_eq_true_2.
  - by destruct dt.
  - by destruct dt.
Qed.

Lemma cells_S rows cols :
  cells (S rows) cols = cells rows cols ++ ((λ j, (rows, j)) <$> seq 0 cols).
Proof.
  unfold cells. rewrite seq_S, bind_app. simpl. by rewrite app_nil_r.
Qed.

Lemma extract_loop_cells {T} mask (store : T → nat → nat → nat → T) rows cols st :
  foldl (λ st i, foldl (extract_cell mask store i) st (range 0 cols)) st (range 0 rows)
  = foldl (λ st ij, extract_cell mask store ij.1 st ij.2) st (cells rows cols).
Proof.
  unfold range. rewrite !Nat.sub_0_r.
  induction rows as [|rows IH]; [done|].
  rewrite seq_S, foldl_app, IH, cells_S, foldl_app. simpl.
  generalize (foldl (λ st ij, extract_cell mask store ij.1 st ij.2) st (cells rows cols)).
  intros st'. generalize (seq 0 cols). intros l. revert st'.
  induction l as [|j l IHl]; intros st'; [done|]. simpl. apply IHl.
Qed.

Lemma extract_flat_list (mask : grid bool) (f : nat * nat → f64) (L : list (nat * nat)) :
  ∀ (pre : list (option f64)) r,
    (length (filter (λ ij, masked_cell mask ij = false) L) ≤ r)%nat →
    foldl (λ st ij, extract_cell [mask] (λ out k i j, <[k := Some (f (i, j))]> out)
                      ij.1 st ij.2)
          (pre ++ replicate r None, length pre) L
    = (pre ++ ((λ ij, Some (f ij)) <$> filter (λ ij, masked_cell mask ij = false) L)
           ++ replicate (r - length (filter (λ ij, masked_cell mask ij = false) L)) None,
       (length pre + length (filter (λ ij, masked_cell mask ij = false) L))%nat).
Proof.
  induction L as [|[i j] L IH]; intros pre r Hr.
  - simpl. by rewrite Nat.sub_0_r, Nat.add_0_r.
  - cbn [foldl fst snd]. unfold extract_cell at 2.
    change (mask_at [mask] i j) with (masked_cell mask (i, j)).
    destruct (masked_cell mask (i, j)) eqn:E.
    + rewrite filter_cons_False by (by rewrite E).
      rewrite filter_cons_False in Hr by (by rewrite E). by apply IH.
    + rewrite filter_cons_True by done.
      rewrite filter_cons_True in Hr by done. cbn [length] in Hr.
      destruct r as [|r]; [lia|].
      replace (<[length pre := Some (f (i, j))]> (pre ++ replicate (S r) None))
        with ((pre ++ [Some (f (i, j))]) ++ replicate r None).
      2:{ rewrite insert_app_r_alt by lia. rewrite Nat.sub_diag. simpl.
          by rewrite <-app_assoc. }
      replace (S (length pre)) with (length (pre ++ [Some (f (i, j))]))
        by (rewrite length_app; simpl; lia).
      rewrite IH by lia. rewrite length_app. cbn [length fmap list_fmap].
      rewrite <-!app_assoc. simpl. f_equal. lia.
Qed.

Lemma elem_of_cells rows cols i j :
  (i, j) ∈ cells rows cols ↔ (i < rows)%nat ∧ (j < cols)%nat.
Proof.
  unfold cells. rewrite list_elem_of_bind. split.
  - intros (i' & Hj & Hi). apply list_elem_of_fmap in Hj as (j' & [= -> ->] & Hj).
    apply elem_of_seq in Hi, Hj. lia.
  - intros [Hi Hj]. exists i. split.
    + apply list_elem_of_fmap. exists j. split; [done|]. apply elem_of_seq. lia.
    + apply elem_of_seq. lia.
Qed.

Lemma row_as_seq {A} (d : A) (row : list A) :
  row = (λ j, default d (row !! j)) <$> seq 0 (length row).
Proof.
  apply list_eq. intros j. rewrite list_lookup_fmap.
  destruct (decide (j < length row)%nat) as [Hj|Hj].
  - rewrite lookup_seq_lt by done. simpl.
    destruct (lookup_lt_is_Some_2 row j Hj) as [x ->]. done.
  - rewrite lookup_seq_ge by lia. simpl. apply lookup_ge_None. lia.
Qed.

Lemma ravel_cells {A} (d : A) (g : grid A) cols : ∀ rows,
  has_shape g rows cols →
  ravel g = (λ ij, default d (lookup2 g ij.1 ij.2)) <$> cells rows cols.
Proof.
  induction g as [|row g IH] using rev_ind; intros rows [Hr Hc].
  - simpl in Hr. subst rows. done.
  - rewrite length_app in Hr. simpl in Hr.
    apply Forall_app in Hc as [Hc Hrow]. rewrite Forall_singleton in Hrow.
    replace rows with (S (length g)) by lia.
    rewrite cells_S, fmap_app. unfold ravel. rewrite concat_app. simpl.
    rewrite app_nil_r. f_equal.
    + fold (ravel g). rewrite (IH (length g)) by done.
      apply list_fmap_ext. intros k [i j] Hk.
      apply list_elem_of_lookup_2, elem_of_cells in Hk as [Hi Hj]. simpl.
      unfold lookup2. by rewrite lookup_app_l by done.
    + rewrite <-list_fmap_compose. rewrite (row_as_seq d row) at 1.
      rewrite Hrow. apply list_fmap_ext. intros k j Hk. simpl.
      unfold lookup2. rewrite lookup_app_r by done. by rewrite Nat.sub_diag.
Qed.

Lemma length_filter_fmap {A B} (f : A → B) (P : B → Prop)
    `{!∀ b, Decision (P b)} `{!∀ a, Decision (P (f a))} (l : list A) :
  length (filter P (f <$> l)) = length (filter (λ a, P (f a)) l).
Proof.
  induction l as [|a l IH]; [done|]. rewrite fmap_cons.
  destruct (decide (P (f a))).
  - rewrite (filter_cons_True P) by done.
    rewrite (filter_cons_True (λ a, P (f a))) by done. simpl. by rewrite IH.
  - rewrite (filter_cons_False P) by done.
    by rewrite (filter_cons_False (λ a, P (f a))) by done.
Qed.

Lemma length_filter_bool (l : list bool) :
  (length l - length (filter (λ b, b = true) l))%nat
  = length (filter (λ b, b = false) l).
Proof.
  induction l as [|[] l IH]; [done|..].
  - rewrite filter_cons_True, filter_cons_False by done. simpl.
    pose proof (length_filter (λ b, b = true) l). lia.
  - rewrite filter_cons_False, filter_cons_True by done. simpl.
    pose proof (length_filter (λ b, b = true) l). lia.
Qed.

Lemma unmasked_count mask rows cols :
  has_shape mask rows cols →
  (cube_size [mask] - np_sum_bool [mask])%nat
  = length (unmasked_cells mask rows cols).
Proof.
  intros Hs. unfold cube_size, np_sum_bool, unmasked_cells. simpl.
  rewrite app_nil_r. rewrite length_filter_bool.
  fold (ravel mask). rewrite (ravel_cells false mask cols rows Hs).
  change (λ ij : nat * nat, default false (lookup2 mask ij.1 ij.2))
    with (masked_cell mask).
  apply (length_filter_fmap (masked_cell mask) (λ b, b = false)).
Qed.

Lemma extract_flat_pair {A B} mask (sa : A → nat → nat → nat → A)
    (sb : B → nat → nat → nat → B) L : ∀ a b k,
  foldl (λ st ij, extract_cell mask (λ '(a, b) k i j, (sa a k i j, sb b k i j))
                    ij.1 st ij.2) ((a, b), k) L
  = (((foldl (λ st ij, extract_cell mask sa ij.1 st ij.2) (a, k) L).1,
      (foldl (λ st ij, extract_cell mask sb ij.1 st ij.2) (b, k) L).1),
     (foldl (λ st ij, extract_cell mask sa ij.1 st ij.2) (a, k) L).2).
Proof.
  induction L as [|[i j] L IH]; intros a b k; [done|].
  cbn [foldl fst snd]. unfold extract_cell at 2 4 6 8.
  destruct (mask_at mask i j); apply IH.
Qed.

Lemma has_shape_shape1 {A} (g : grid A) rows cols :
  has_shape g rows cols → shape1 [g] = rows.
Proof. by intros [? _]. Qed.

Lemma extract_list_run (mask : grid bool) (f : nat * nat → f64) rows cols :
  has_shape mask rows cols →
  (0 < rows)%nat →
  extract_loop [mask] (λ out k i j, <[k := Some (f (i, j))]> out) rows cols
    (replicate (cube_size [mask] - np_sum_bool [mask]) None)
  = (λ ij, Some (f ij)) <$> unmasked_cells mask rows cols.
Proof.
  intros Hs Hpos. unfold extract_loop. rewrite extract_loop_cells.
  rewrite (unmasked_count mask rows cols Hs).
  pose proof (extract_flat_list mask f (cells rows cols) []
                (length (unmasked_cells mask rows cols))) as H.
  cbn [app length] in H. rewrite H by done.
  cbn [fst]. unfold unmasked_cells. by rewrite Nat.sub_diag, app_nil_r.
Qed.

(** X20.  On a band and a mask of one shape, [_extract_values] returns
    the values of the cells that are not masked, in row-major order, and
    [_extract_points] the x and y coordinates of the same cells in the
    same order; every cell of the three arrays is written, and no store
    falls outside them. *)
Theorem extract_values_points_aligned (data : grid f64) (mask : grid bool)
    (xc yc : list f64) (rows cols : nat) :
  has_shape data rows cols →
  has_shape mask rows cols →
  let unmasked := unmasked_cells mask rows cols in
  _extract_values [data] [mask]
  = (λ ij, Some (default NaN (lookup2 data ij.1 ij.2))) <$> unmasked
  ∧ _extract_points [mask] xc yc
    = ((λ ij, Some (xc !!! ij.2)) <$> unmasked,
       (λ ij, Some (yc !!! ij.1)) <$> unmasked).
Proof.
  intros Hd Hm unmasked.
  unfold _extract_values, _extract_points.
  case_bool_decide as Hn.
  - rewrite Hn. rewrite (unmasked_count mask rows cols Hm) in Hn.
    apply nil_length_inv in Hn. unfold unmasked. by rewrite Hn.
  - assert (Hrows : (0 < rows)%nat).
    { destruct rows; [|lia]. exfalso. apply Hn.
      rewrite (unmasked_count mask 0 cols Hm). done. }
    split.
    + rewrite (has_shape_shape1 data rows cols Hd).
      change (shape2 [data]) with (ncols data).
      rewrite (has_shape_ncols data rows cols Hd Hrows).
      apply (extract_list_run mask (λ ij, data_at [data] ij.1 ij.2) rows cols Hm Hrows).
    + rewrite (has_shape_shape1 mask rows cols Hm).
      change (shape2 [mask]) with (ncols mask).
      rewrite (has_shape_ncols mask rows cols Hm Hrows).
      unfold extract_loop. rewrite extract_loop_cells.
      rewrite (extract_flat_pair [mask]
                 (λ out k i j, <[k := Some (xc !!! j)]> out)
                 (λ out k i j, <[k := Some (yc !!! i)]> out)).
      cbn [fst]. f_equal.
      * rewrite <-extract_loop_cells.
        apply (extract_list_run mask (λ ij, xc !!! ij.2) rows cols Hm Hrows).
      * rewrite <-extract_loop_cells.
        apply (extract_list_run mask (λ ij, yc !!! ij.1) rows cols Hm Hrows).
Qed.

Lemma extract_values_points_aligned_witness :
  _extract_values [example_band] [example_band_mask]
  = [Some (f64_of_Z 1); Some (f64_of_Z 2); Some (f64_of_Z 4)]
  ∧ _extract_points [example_band_mask] example_xc example_yc
    = ([Some (f64_of_Z 11); Some (f64_of_Z 13); Some (f64_of_Z 13)],
       [Some (f64_of_Z 19); Some (f64_of_Z 19); Some (f64_of_Z 17)]).
Proof.
  apply (extract_values_points_aligned example_band example_band_mask
           example_xc example_yc 2 2).
  - split; [reflexivity|]. repeat constructor.
  - split; [reflexivity|]. repeat constructor.
Defined.

(** ** raster.py: pixel indices and coordinates *)

Lemma Qfloor_unique (x : Q) (z : Z) :
  (inject_Z z <= x)%Q → (x < inject_Z (z + 1))%Q → Qfloor x = z.
Proof.
  intros H1 H2.
  pose proof (Qfloor_le x) as H3. pose proof (Qlt_floor x) as H4.
  assert (Ha : (inject_Z z < inject_Z (Qfloor x + 1))%Q) by (eapply Qle_lt_trans; eauto).
  assert (Hb : (inject_Z (Qfloor x) < inject_Z (z + 1))%Q) by (eapply Qle_lt_trans; eauto).
  rewrite <-Zlt_Qlt in Ha, Hb. lia.
Qed.

Lemma this_Qcplus (a b : Qc) : (this (a + b)%Qc == this a + this b)%Q.
Proof. exact (Qred_correct (this a + this b)). Qed.

Lemma this_Qc_of_Z (n : Z) : (this (Qc_of_Z n) == inject_Z n)%Q.
Proof. reflexivity. Qed.

Lemma np_floor_add (n : Z) (q : Qc) (k : Z) :
  (inject_Z k <= q)%Q → (q < inject_Z (k + 1))%Q →
  np_floor (Qc_of_Z n + q) = n + k.
Proof.
  intros H1 H2. unfold np_floor. apply Qfloor_unique.
  - rewrite this_Qcplus, this_Qc_of_Z, inject_Z_plus. lra.
  - rewrite this_Qcplus, this_Qc_of_Z, !inject_Z_plus in *. lra.
Qed.

Lemma Affine_invert_apply (s : Affine) (v : Qc * Qc) :
  Affine_determinant s ≠ 0%Qc →
  ∃ inv, Affine_invert s = inr inv ∧ Affine_apply inv (Affine_apply s v) = v.
Proof.
  intros Hdet. unfold Affine_invert. rewrite decide_False by done.
  eexists. split; [done|]. destruct v as [vx vy], s as [a b c d e f].
  unfold Affine_determinant in *. cbn in *. f_equal; field; done.
Qed.

(** X21.  For an invertible transform and a known offset name,
    [xy_to_rowcol] applied to the coordinates [rowcol_to_xy] gives for an
    integer row and column returns the row and column shifted by the floor
    of the offset: the pixel itself for its center and its upper left
    corner. *)
Theorem rowcol_xy_round_trip (row col : Z) (affine : Affine) (offset : string)
    (roffset coffset : Qc) :
  Affine_determinant affine ≠ 0%Qc →
  _offset_name_to_rc_offset !! offset = Some (roffset, coffset) →
  ∃ x y,
    rowcol_to_xy (Qc_of_Z row) (Qc_of_Z col) affine offset = inr (x, y)
    ∧ xy_to_rowcol x y affine
      = inr (row + Qfloor roffset, col + Qfloor coffset)
    ∧ (offset = "center" ∨ offset = "ul" →
       xy_to_rowcol x y affine = inr (row, col)).
Proof.
  intros Hdet Hoff. unfold rowcol_to_xy. rewrite Hoff.
  assert (Hmul : Affine_apply (Affine_mul affine (Affine_translation coffset roffset))
                   (Qc_of_Z col, Qc_of_Z row)
                 = Affine_apply affine (Qc_of_Z col + coffset, Qc_of_Z row + roffset)%Qc).
  { destruct affine as [a b c d e f]. cbn. f_equal; ring. }
  destruct (Affine_apply (Affine_mul affine (Affine_translation coffset roffset))
              (Qc_of_Z col, Qc_of_Z row)) as [x y] eqn:Hxy.
  exists x, y. split; [done|].
  assert (Hrt : xy_to_rowcol x y affine
                = inr (row + Qfloor roffset, col + Qfloor coffset)).
  { unfold xy_to_rowcol.
    destruct (Affine_invert_apply affine
                (Qc_of_Z col + coffset, Qc_of_Z row + roffset)%Qc Hdet)
      as (inv & -> & Hinv).
    rewrite Hmul, Hinv.
    f_equal. f_equal.
    - apply np_floor_add; [apply Qfloor_le|apply Qlt_floor].
    - apply np_floor_add; [apply Qfloor_le|apply Qlt_floor]. }
  split; [exact Hrt|].
  intros Hname. rewrite Hrt.
  destruct Hname as [-> | ->]; vm_compute in Hoff; simplify_eq;
    vm_compute Qfloor; by rewrite !Z.add_0_r.
Qed.

Lemma rowcol_xy_round_trip_witness :
  ∃ x y,
    rowcol_to_xy (Qc_of_Z 3) (Qc_of_Z 4) example_affine "center" = inr (x, y)
    ∧ xy_to_rowcol x y example_affine = inr (3, 4).
Proof.
  destruct (rowcol_xy_round_trip 3 4 example_affine "center"
              (Q2Qc 0.5) (Q2Qc 0.5)) as (x & y & Hxy & _ & Hrt).
  - vm_compute. discriminate.
  - reflexivity.
  - exists x, y. split; [exact Hxy|]. apply Hrt. by left.
Defined.

(** X22.  For a north-up transform (no rotation, cells of positive width
    and negative height) and a raster with at least one row and one
    column, [Raster.bounds] is the upper left corner of the first cell and
    the lower right corner of the last one, with [minx < maxx] and
    [miny < maxy]. *)
Theorem bounds_north_up (r c : Z) (affine : Affine) :
  af_b affine = 0%Qc → af_d affine = 0%Qc →
  (0 < af_a affine)%Qc → (af_e affine < 0)%Qc →
  0 < r → 0 < c →
  ∃ minx miny maxx maxy,
    Raster_bounds r c affine = inr (minx, miny, maxx, maxy)
    ∧ minx = af_c affine
    ∧ maxy = af_f affine
    ∧ maxx = (af_c affine + Qc_of_Z c * af_a affine)%Qc
    ∧ miny = (af_f affine + Qc_of_Z r * af_e affine)%Qc
    ∧ (minx < maxx)%Qc ∧ (miny < maxy)%Qc.
Proof.
  intros Hb Hd Ha He Hr Hc. destruct affine as [a b c0 d e f]. cbn in *. subst b d.
  assert (Hr1 : (Qc_of_Z (r - 1) + 1 = Qc_of_Z r)%Qc)
    by (rewrite <-Z2Qc_inj_1, <-Z2Qc_inj_add; f_equal; lia).
  assert (Hc1 : (Qc_of_Z (c - 1) + 1 = Qc_of_Z c)%Qc)
    by (rewrite <-Z2Qc_inj_1, <-Z2Qc_inj_add; f_equal; lia).
  eexists c0, (f + Qc_of_Z r * e)%Qc, (c0 + Qc_of_Z c * a)%Qc, f.
  split; [|repeat split].
  - unfold Raster_bounds, rowcol_to_xy.
    change (_offset_name_to_rc_offset !! "ul") with (Some (0%Qc, 0%Qc)).
    change (_offset_name_to_rc_offset !! "lr") with (Some (1%Qc, 1%Qc)).
    cbn [Affine_apply Affine_mul Affine_translation af_a af_b af_c af_d af_e af_f].
    do 2 f_equal; [f_equal; [f_equal|]|].
    + ring.
    + rewrite <-Hr1. ring.
    + rewrite <-Hc1. ring.
    + ring.
  - rewrite <-(Qcplus_0_r c0) at 1. apply Qcplus_lt_mono_l.
    apply Qcmult_pos_pos; [|done].
    rewrite <-Z2Qc_inj_0. by apply (proj1 (Z2Qc_inj_lt _ _)).
  - rewrite <-(Qcplus_0_r f) at 2. apply Qcplus_lt_mono_l.
    assert (Hpos : (0 < Qc_of_Z r * - e)%Qc).
    { apply Qcmult_pos_pos.
      - rewrite <-Z2Qc_inj_0. by apply (proj1 (Z2Qc_inj_lt _ _)).
      - apply (proj2 (Qcplus_lt_mono_r _ _ e)). rewrite Qcplus_0_l.
        by replace (- e + e)%Qc with 0%Qc by ring. }
    apply (proj2 (Qcplus_lt_mono_r _ _ (Qc_of_Z r * - e)%Qc)).
    rewrite Qcplus_0_l.
    by replace (Qc_of_Z r * e + Qc_of_Z r * - e)%Qc with 0%Qc by ring.
Qed.

Lemma bounds_north_up_witness :
  ∃ minx miny maxx maxy,
    Raster_bounds 2 3 example_affine = inr (minx, miny, maxx, maxy)
    ∧ minx = Qc_of_Z 10 ∧ maxy = Qc_of_Z 20
    ∧ (minx < maxx)%Qc ∧ (miny < maxy)%Qc.
Proof.
  destruct (bounds_north_up 2 3 example_affine)
    as (minx & miny & maxx & maxy & Hb & Hx & Hy & _ & _ & Hlx & Hly).
  - reflexivity.
  - reflexivity.
  - reflexivity.
  - reflexivity.
  - lia.
  - lia.
  - exists minx, miny, maxx, maxy.
    split; [exact Hb|]. split; [exact Hx|]. split; [exact Hy|].
    split; [exact Hlx|exact Hly].
Defined.

(** ** raster.py: rasters from rasters *)

Lemma alloc_eq o (h : heap) : alloc o h = (Ok (fresh_loc h), <[fresh_loc h := o]> h).
Proof. done. Qed.

Lemma Raster_new_run h0 h d m nv :
  h0 ⊆ h →
  ∃ q h',
    Raster_new d m nv h = (Ok q, h')
    ∧ h ⊆ h' ∧ h0 !! q = None ∧ h !! q = None
    ∧ holds h' q d m nv.
Proof.
  intros Hsub.
  set (l1 := fresh_loc h). set (h1 := <[l1 := ODask d]> h).
  set (l2 := fresh_loc h1). set (h2 := <[l2 := ODask m]> h1).
  set (q := fresh_loc h2). set (h3 := <[q := ORaster l1 l2 nv]> h2).
  assert (H01 : h ⊆ h1) by (by apply insert_fresh_subseteq).
  assert (H02 : h ⊆ h2) by (by apply insert_fresh_subseteq).
  assert (H03 : h ⊆ h3) by (by apply insert_fresh_subseteq).
  assert (Hl1 : h1 !! l1 = Some (ODask d)) by apply lookup_insert_eq.
  assert (Hl2 : h2 !! l2 = Some (ODask m)) by apply lookup_insert_eq.
  assert (Hl1' : h2 !! l1 = Some (ODask d)).
  { unfold h2. rewrite lookup_insert_ne; [done|].
    intros Heq. symmetry in Heq. revert Heq. exact (lookup_fresh_ne h1 l1 _ Hl1). }
  assert (Hl1q : l1 ≠ q) by exact (lookup_fresh_ne h2 l1 _ Hl1').
  assert (Hl2q : l2 ≠ q) by exact (lookup_fresh_ne h2 l2 _ Hl2).
  exists q, h3. split; [done|]. split; [done|].
  split; [apply fresh_loc_base; by etrans|].
  split; [by apply fresh_loc_base|].
  exists l1, l2. split; [apply lookup_insert_eq|].
  split; unfold h3; by rewrite lookup_insert_ne.
Qed.

Lemma lookup3_nan_where m a b i j :
  lookup3 (nan_where m a) b i j
  = (v ← lookup3 a b i j; mv ← lookup3 m b i j;
     Some (if truthy mv then NaN else v)).
Proof.
  unfold lookup3, nan_where, lookup2. cbn [da_bands].
  rewrite lookup_zip_with.
  destruct (da_bands a !! b) as [ga|]; [|done]. cbn [mbind option_bind].
  destruct (da_bands m !! b) as [gm|]; cbn [mbind option_bind].
  - rewrite lookup_zip_with.
    destruct (ga !! i) as [ra|]; [|done]. cbn [mbind option_bind].
    destruct (gm !! i) as [rm|]; cbn [mbind option_bind].
    + rewrite lookup_zip_with. done.
    + by destruct (ra !! j).
  - destruct (ga !! i) as [ra|]; [|done]. cbn [mbind option_bind].
    by destruct (ra !! j).
Qed.

(** X23.  [get_raster] on a Raster returns that very object, with the
    store untouched, unless nulls are to become NaN and the raster has a
    null value: the caller gets no copy. *)
Theorem get_raster_returns_argument `{!Foreign} (construct : St loc) (h : heap)
    (p : loc) (d m : darray) (null_value : option f64)
    (strict null_to_nan : bool) :
  holds h p d m null_value →
  null_to_nan && bool_decide (is_Some null_value) = false →
  raster_get_raster construct (ARaster p) strict null_to_nan h = (Ok p, h).
Proof.
  intros (ld & lm & Hp & Hd & Hm) Hno. unfold raster_get_raster.
  rewrite St_ret_bind.
  rewrite (St_bind_ok _ _ _ _ _ (Raster_masked_eq _ _ _ _ _ Hp)).
  by rewrite Hno.
Qed.

Lemma get_raster_returns_argument_witness :
  raster_get_raster (H := example_foreign) (raise (TypeError "no source"))
    (ARaster 1%positive) true true example_heap
  = (Ok 1%positive, example_heap).
Proof.
  apply (@get_raster_returns_argument example_foreign
           (raise (TypeError "no source")) example_heap 1%positive
           example_data example_mask None true true).
  - exact example_heap_holds.
  - reflexivity.
Defined.

(** X24.  [get_raster] with [null_to_nan] on a Raster that has a null
    value returns a new raster and leaves the store it found as it was;
    the new raster has float data that is NaN wherever the mask is set, and
    the mask and the null value of the input. *)
Theorem get_raster_null_to_nan `{!Foreign} (construct : St loc) (h : heap)
    (p : loc) (d m : darray) (v : f64) (strict : bool) :
  holds h p d m (Some v) →
  ∃ q h' out,
    raster_get_raster construct (ARaster p) strict true h = (Ok q, h')
    ∧ h ⊆ h' ∧ h !! q = None
    ∧ holds h' q out m (Some v)
    ∧ is_float_dtype (da_dtype out) = true
    ∧ length (da_bands out) = (length (da_bands d) `min` length (da_bands m))%nat
    ∧ ∀ b i j mv, lookup3 m b i j = Some mv → truthy mv = true →
        is_Some (lookup3 out b i j) → lookup3 out b i j = Some NaN.
Proof.
  intros Hh. pose proof Hh as (ld & lm & Hp & Hd & Hm).
  destruct (Raster_copy_run h p d m (Some v) Hh)
    as (q & data' & mask' & h1 & Hcopy & H01 & Hq0 & Hd0 & Hm0 & Hne1 & Hne2 & Hne3
        & Hq1 & Hd1 & Hm1).
  set (dX := if bool_decide (promote_dtype_to_float (da_dtype d) ≠ da_dtype d)
             then darray_astype (promote_dtype_to_float (da_dtype d)) d else d).
  assert (Hstep : ∃ data2 h2,
    (if bool_decide (promote_dtype_to_float (da_dtype d) ≠ da_dtype d)
     then da_astype data' (promote_dtype_to_float (da_dtype d))
     else mret data') h1 = (Ok data2, h2)
    ∧ h1 ⊆ h2 ∧ h2 !! data2 = Some (ODask dX) ∧ data2 ≠ q ∧ data2 ≠ mask'
    ∧ h !! data2 = None
    ∧ h2 !! q = Some (ORaster data' mask' (Some v))
    ∧ h2 !! mask' = Some (ODask m)).
  { unfold dX. case_bool_decide.
    - rewrite (da_astype_eq _ _ _ _ Hd1).
      eexists _, _. split; [done|].
      split; [apply insert_subseteq, fresh_loc_None|].
      split; [apply lookup_insert_eq|].
      split; [intros Heq; by apply (lookup_fresh_ne h1 q _ Hq1)|].
      split; [intros Heq; by apply (lookup_fresh_ne h1 mask' _ Hm1)|].
      split; [by apply fresh_loc_base|].
      split; rewrite lookup_insert_ne; first [done | by apply not_eq_sym; eapply lookup_fresh_ne].
    - rewrite St_ret_unfold. eexists _, _. split; [done|].
      split; [done|]. split; [done|]. split; [done|]. split; [done|]. done. }
  destruct Hstep as (data2 & h2 & Hst & H12 & Hd2 & Hn2q & Hn2m & Hd20 & Hq2 & Hm2).
  set (l3 := fresh_loc h2).
  set (h3 := <[l3 := ODask (nan_where m dX)]> h2).
  assert (Hq3 : h3 !! q = Some (ORaster data' mask' (Some v))).
  { unfold h3. rewrite lookup_insert_ne; [done|].
    apply not_eq_sym. exact (lookup_fresh_ne h2 q _ Hq2). }
  assert (Hl3q : l3 ≠ q) by (apply not_eq_sym; exact (lookup_fresh_ne h2 q _ Hq2)).
  assert (Hl3m : l3 ≠ mask') by (apply not_eq_sym; exact (lookup_fresh_ne h2 mask' _ Hm2)).
  exists q, (<[q := ORaster l3 mask' (Some v)]> h3), (nan_where m dX).
  split; [|split; [|split; [done|split; [|split; [|split]]]]].
  - unfold raster_get_raster. rewrite St_ret_bind.
    rewrite (St_bind_ok _ _ _ _ _ (Raster_masked_eq _ _ _ _ _ Hp)).
    rewrite bool_decide_eq_true_2 by (by eexists). cbn [andb].
    rewrite (St_bind_ok _ _ _ _ _ Hcopy).
    rewrite (St_bind_ok _ _ _ _ _ (Raster_data_eq _ _ _ _ _ Hq1)).
    rewrite (St_bind_ok _ _ _ _ _ (get_dask_eq _ _ _ Hd1)).
    rewrite (St_bind_ok _ _ _ _ _ Hst).
    rewrite (St_bind_ok _ _ _ _ _ (Raster_mask_eq _ _ _ _ _ Hq2)).
    rewrite (St_bind_ok _ _ _ _ _ (da_nan_where_eq _ _ _ _ _ Hm2 Hd2)).
    fold l3 h3.
    rewrite (St_bind_ok _ _ _ _ _ (Raster_set_data_eq _ _ _ _ _ _ Hq3)).
    done.
  - apply insert_subseteq_r; [done|].
    etrans; [exact H01|]. etrans; [exact H12|].
    apply insert_subseteq, fresh_loc_None.
  - exists l3, mask'. split; [apply lookup_insert_eq|].
    split.
    + rewrite lookup_insert_ne by done. apply lookup_insert_eq.
    + rewrite lookup_insert_ne by done. unfold h3.
      by rewrite lookup_insert_ne by done.
  - apply where_dtype_float.
  - unfold nan_where. cbn [da_bands]. rewrite length_zip_with.
    unfold dX. case_bool_decide; [|done].
    unfold darray_astype. cbn [da_bands]. by rewrite length_fmap.
  - intros b i j mv Hmv Ht [x Hx]. rewrite lookup3_nan_where in Hx |- *.
    rewrite Hmv in Hx |- *.
    destruct (lookup3 dX b i j) as [x0|]; [|done]. simpl. by rewrite Ht.
Qed.

Lemma Raster_nbands_eq h p d m nv :
  holds h p d m nv → Raster_nbands p h = (Ok (length (da_bands d)), h).
Proof.
  intros (ld & lm & Hp & Hd & Hm). unfold Raster_nbands.
  rewrite (St_bind_ok _ _ _ _ _ (Raster_data_eq _ _ _ _ _ Hp)).
  apply (da_shape0_eq _ _ _ Hd).
Qed.

Lemma py_int_PInt (bs : list Z) : py_int <$> (PInt <$> bs) = bs.
Proof. rewrite <-list_fmap_compose. apply list_fmap_id. Qed.

Lemma band_numbers_ints (bs : list Z) : band_numbers (Sequence (PInt <$> bs)) = Ok (PInt <$> bs).
Proof.
  unfold band_numbers.
  assert (H : forallb is_int (PInt <$> bs) = true)
    by (induction bs as [|b bs IH]; [done|by simpl]).
  by rewrite H.
Qed.

Lemma in_bounds_bands n (bs : list Z) :
  Forall (λ b, 1 ≤ b ≤ Z.of_nat n) bs →
  existsb (λ b, (py_int b <? 1) || (Z.of_nat n <? py_int b)) (PInt <$> bs) = false.
Proof.
  induction 1 as [|b bs Hb _ IH]; [done|]. rewrite fmap_cons. cbn [existsb py_int].
  rewrite IH, orb_false_r.
  destruct (Z.ltb_spec b 1); [lia|]. destruct (Z.ltb_spec (Z.of_nat n) b); [lia|done].
Qed.

Lemma out_of_bounds_bands n (bs : list Z) :
  Exists (λ b, b < 1 ∨ Z.of_nat n < b) bs →
  existsb (λ b, (py_int b <? 1) || (Z.of_nat n <? py_int b)) (PInt <$> bs) = true.
Proof.
  induction 1 as [b bs Hb|b bs _ IH]; rewrite fmap_cons; cbn [existsb py_int].
  - destruct Hb as [Hb|Hb].
    + destruct (Z.ltb_spec b 1); [done|lia].
    + destruct (Z.ltb_spec (Z.of_nat n) b); [|lia].
      by rewrite orb_true_r.
  - rewrite IH. by rewrite orb_true_r.
Qed.

Lemma select_bands_single (a : darray) :
  length (da_bands a) = 1%nat → select_bands [1] a = a.
Proof.
  destruct a as [dt [|g [|g' bands]]]; try done.
Qed.

Lemma get_bands_run (h : heap) (p : loc) (d m : darray) (nv : option f64)
    (bs : list Z) :
  holds h p d m nv →
  length (da_bands m) = length (da_bands d) →
  valid_bands (length (da_bands d)) bs →
  ∃ q h',
    get_bands p (Sequence (PInt <$> bs)) h = (Ok q, h')
    ∧ h ⊆ h' ∧ h !! q = None
    ∧ holds h' q (select_bands bs d) (select_bands bs m) nv.
Proof.
  intros Hh Hlen [Hne Hb]. pose proof Hh as (ld & lm & Hp & Hd & Hm).
  unfold get_bands. rewrite St_bind_unfold. unfold lift at 1.
  rewrite band_numbers_ints.
  rewrite bool_decide_eq_false_2
    by (rewrite length_fmap; by destruct bs).
  rewrite (St_bind_ok _ _ _ _ _ (Raster_nbands_eq _ _ _ _ _ Hh)).
  rewrite (in_bounds_bands _ _ Hb).
  destruct (bool_decide (length (PInt <$> bs) = 1%nat)
            && bool_decide (length (da_bands d) = 1%nat)) eqn:Hone.
  - apply andb_true_iff in Hone as [H1%bool_decide_eq_true H2%bool_decide_eq_true].
    rewrite length_fmap in H1.
    destruct bs as [|b [|b' bs]]; try done.
    rewrite Forall_singleton in Hb. assert (b = 1) as -> by lia.
    rewrite !select_bands_single by congruence.
    destruct (Raster_copy_run h p d m nv Hh)
      as (q & data' & mask' & h1 & Hcopy & H01 & Hq0 & _ & _ & _ & _ & _
          & Hq1 & Hd1 & Hm1).
    exists q, h1. split; [done|]. split; [done|]. split; [done|].
    by exists data', mask'.
  - rewrite (St_bind_ok _ _ _ _ _ (get_raster_eq _ _ _ _ _ Hp)).
    rewrite (St_bind_ok _ _ _ _ _ (get_dask_eq _ _ _ Hd)).
    rewrite (St_bind_ok _ _ _ _ _ (get_dask_eq _ _ _ Hm)).
    rewrite py_int_PInt.
    destruct (Raster_new_run h h (select_bands bs d) (select_bands bs m) nv)
      as (q & h' & Hrun & Hsub & Hq & _ & Hholds); [done|].
    by exists q, h'.
Qed.

Lemma lookup_select_bands (bs : list Z) a k b :
  bs !! k = Some b → (Z.to_nat (b - 1) < length (da_bands a))%nat →
  da_bands (select_bands bs a) !! k = da_bands a !! Z.to_nat (b - 1).
Proof.
  intros Hk Hb. unfold select_bands. cbn [da_bands].
  rewrite list_lookup_fmap, Hk. simpl.
  destruct (lookup_lt_is_Some_2 _ _ Hb) as [g Hg].
  by rewrite Hg, (list_lookup_total_correct _ _ _ Hg).
Qed.

Lemma example_masked_heap_holds :
  holds example_masked_heap 1%positive example_masked_data example_masked_mask
        (Some (f64_of_Z (-1))).
Proof. exists 2%positive, 3%positive. repeat split; vm_compute; reflexivity. Qed.

Lemma get_raster_null_to_nan_witness :
  ∃ q h' out,
    raster_get_raster (H := example_foreign) (raise (TypeError "no source"))
      (ARaster 1%positive) true true example_masked_heap = (Ok q, h')
    ∧ example_masked_heap ⊆ h'
    ∧ holds h' q out example_masked_mask (Some (f64_of_Z (-1)))
    ∧ is_float_dtype (da_dtype out) = true.
Proof.
  destruct (@get_raster_null_to_nan example_foreign
              (raise (TypeError "no source")) example_masked_heap 1%positive
              example_masked_data example_masked_mask (f64_of_Z (-1)) true
              example_masked_heap_holds)
    as (q & h' & out & Hrun & Hsub & _ & Hq & Hfl & _).
  exists q, h', out. split; [exact Hrun|]. split; [exact Hsub|].
  split; [exact Hq|exact Hfl].
Defined.

(** X25.  For band numbers between 1 and the number of bands,
    [get_bands] returns a new raster with the dtype and the null value of
    the input whose k-th band is the band of the k-th number, in the data
    and in the mask: the bands come in the order given, and a number may
    repeat.  The store it found is as it was. *)
Theorem get_bands_selects (h : heap) (p : loc) (d m : darray)
    (null_value : option f64) (bs : list Z) :
  holds h p d m null_value →
  length (da_bands m) = length (da_bands d) →
  valid_bands (length (da_bands d)) bs →
  ∃ q h' d' m',
    get_bands p (Sequence (PInt <$> bs)) h = (Ok q, h')
    ∧ h ⊆ h' ∧ h !! q = None
    ∧ holds h' q d' m' null_value
    ∧ da_dtype d' = da_dtype d
    ∧ length (da_bands d') = length bs
    ∧ length (da_bands m') = length bs
    ∧ ∀ k b, bs !! k = Some b →
        da_bands d' !! k = da_bands d !! Z.to_nat (b - 1)
        ∧ da_bands m' !! k = da_bands m !! Z.to_nat (b - 1).
Proof.
  intros Hh Hlen Hv.
  destruct (get_bands_run h p d m null_value bs Hh Hlen Hv)
    as (q & h' & Hrun & Hsub & Hq & Hholds).
  exists q, h', (select_bands bs d), (select_bands bs m).
  split; [done|]. split; [done|]. split; [done|]. split; [done|].
  split; [done|].
  split; [unfold select_bands; cbn [da_bands]; by rewrite length_fmap|].
  split; [unfold select_bands; cbn [da_bands]; by rewrite length_fmap|].
  intros k b Hk. destruct Hv as [_ Hb].
  rewrite Forall_lookup in Hb. specialize (Hb _ _ Hk). simpl in Hb.
  split; apply lookup_select_bands; try done; lia.
Qed.

Lemma example_bands_valid : valid_bands (length (da_bands example_data)) [2; 1].
Proof. split; [done|]. repeat constructor; simpl; lia. Qed.

Lemma get_bands_selects_witness :
  ∃ q h' d' m',
    get_bands 1%positive (Sequence [PInt 2; PInt 1]) example_heap = (Ok q, h')
    ∧ holds h' q d' m' None
    ∧ length (da_bands d') = 2%nat
    ∧ da_bands d' !! 0%nat = da_bands example_data !! 1%nat.
Proof.
  destruct (get_bands_selects example_heap 1%positive example_data example_mask
              None [2; 1] example_heap_holds eq_refl example_bands_valid)
    as (q & h' & d' & m' & Hrun & _ & _ & Hq & _ & Hl & _ & Hb).
  exists q, h', d', m'. split; [exact Hrun|]. split; [exact Hq|].
  split; [exact Hl|]. exact (proj1 (Hb 0%nat 2 eq_refl)).
Defined.

(** X26.  Selecting bands twice is selecting once: [get_bands] with the
    numbers [cs] on the raster [get_bands] returned for [bs] holds what
    [get_bands] gives for the numbers [bs[c - 1]], [c] in [cs]. *)
Theorem get_bands_compose (h : heap) (p : loc) (d m : darray)
    (null_value : option f64) (bs cs : list Z) :
  holds h p d m null_value →
  length (da_bands m) = length (da_bands d) →
  valid_bands (length (da_bands d)) bs →
  valid_bands (length bs) cs →
  ∃ q1 h1 q2 h2 d2 m2,
    get_bands p (Sequence (PInt <$> bs)) h = (Ok q1, h1)
    ∧ get_bands q1 (Sequence (PInt <$> cs)) h1 = (Ok q2, h2)
    ∧ h ⊆ h2
    ∧ holds h2 q2 d2 m2 null_value
    ∧ d2 = select_bands ((λ c, bs !!! Z.to_nat (c - 1)) <$> cs) d
    ∧ m2 = select_bands ((λ c, bs !!! Z.to_nat (c - 1)) <$> cs) m.
Proof.
  intros Hh Hlen Hbs Hcs.
  destruct (get_bands_run h p d m null_value bs Hh Hlen Hbs)
    as (q1 & h1 & Hrun1 & Hsub1 & Hq1 & Hholds1).
  assert (Hl1 : ∀ a, length (da_bands (select_bands bs a)) = length bs)
    by (intros a; unfold select_bands; cbn [da_bands]; by rewrite length_fmap).
  destruct (get_bands_run h1 q1 (select_bands bs d) (select_bands bs m)
              null_value cs Hholds1) as (q2 & h2 & Hrun2 & Hsub2 & Hq2 & Hholds2).
  { by rewrite !Hl1. }
  { by rewrite Hl1. }
  assert (Hsel : ∀ a, select_bands cs (select_bands bs a)
                      = select_bands ((λ c, bs !!! Z.to_nat (c - 1)) <$> cs) a).
  { intros a. unfold select_bands. cbn [da_dtype da_bands]. f_equal.
    rewrite <-list_fmap_compose. apply list_fmap_ext. intros k c Hk.
    destruct Hcs as [_ Hc]. rewrite Forall_lookup in Hc.
    specialize (Hc _ _ Hk). simpl in Hc. simpl.
    destruct (lookup_lt_is_Some_2 bs (Z.to_nat (c - 1))) as [b Hb]; [lia|].
    rewrite (list_lookup_total_correct _ _ _ Hb).
    apply list_lookup_total_correct.
    rewrite list_lookup_fmap, Hb. done. }
  exists q1, h1, q2, h2, (select_bands cs (select_bands bs d)),
         (select_bands cs (select_bands bs m)).
  split; [done|]. split; [done|]. split; [by etrans|].
  split; [exact Hholds2|]. split; apply Hsel.
Qed.

Lemma get_bands_compose_witness :
  ∃ q1 h1 q2 h2 d2 m2,
    get_bands 1%positive (Sequence [PInt 2; PInt 1]) example_heap = (Ok q1, h1)
    ∧ get_bands q1 (Sequence [PInt 2]) h1 = (Ok q2, h2)
    ∧ holds h2 q2 d2 m2 None
    ∧ d2 = select_bands [1] example_data.
Proof.
  destruct (get_bands_compose example_heap 1%positive example_data example_mask
              None [2; 1] [2] example_heap_holds eq_refl example_bands_valid)
    as (q1 & h1 & q2 & h2 & d2 & m2 & Hr1 & Hr2 & _ & Hq & Hd & _).
  - split; [done|]. repeat constructor; simpl; lia.
  - exists q1, h1, q2, h2, d2, m2. split; [exact Hr1|]. split; [exact Hr2|].
    split; [exact Hq|exact Hd].
Defined.

(** X27.  What [get_bands] raises, with the store untouched: a TypeError
    for a sequence with a value that is not an int and for a scalar that is
    not an int, a ValueError for an empty sequence, and an IndexError as
    soon as one band number is below 1 or above the number of bands. *)
Theorem get_bands_errors (h : heap) (p : loc) (d m : darray)
    (null_value : option f64) :
  holds h p d m null_value →
  (∀ l, forallb is_int l = false →
     ∃ e, get_bands p (Sequence l) h = (Err e, h) ∧ kind_of e = KTypeError)
  ∧ (∀ v, is_int v = false → v ≠ PStr EmptyString →
       ∃ e, get_bands p (Scalar v) h = (Err e, h) ∧ kind_of e = KTypeError)
  ∧ (∃ e, get_bands p (Sequence []) h = (Err e, h) ∧ kind_of e = KValueError)
  ∧ (∀ bs, bs ≠ [] →
       Exists (λ b, b < 1 ∨ Z.of_nat (length (da_bands d)) < b) bs →
       ∃ e, get_bands p (Sequence (PInt <$> bs)) h = (Err e, h)
            ∧ kind_of e = KIndexError).
Proof.
  intros Hh. split; [|split; [|split]].
  - intros l Hl. unfold get_bands. rewrite St_bind_unfold. unfold lift at 1.
    unfold band_numbers. rewrite Hl. by eexists.
  - intros v Hv Hs. unfold get_bands. rewrite St_bind_unfold. unfold lift at 1.
    destruct v as [n|q|s|]; try done; try by eexists.
    unfold band_numbers. rewrite decide_False by congruence. by eexists.
  - by eexists.
  - intros bs Hne Hex. unfold get_bands. rewrite St_bind_unfold. unfold lift at 1.
    rewrite band_numbers_ints.
    rewrite bool_decide_eq_false_2 by (rewrite length_fmap; by destruct bs).
    rewrite (St_bind_ok _ _ _ _ _ (Raster_nbands_eq _ _ _ _ _ Hh)).
    pose proof (out_of_bounds_bands _ _ Hex) as Hx.
    rewrite Hx. by eexists.
Qed.

Lemma zip_with_app_take_drop {A} (c : nat) (l : grid A) :
  zip_with app (take c <$> l) (drop c <$> l) = l.
Proof.
  induction l as [|row l IH]; [done|].
  rewrite !fmap_cons. cbn [zip_with]. by rewrite take_drop, IH.
Qed.

Lemma da_copy_eq h l a :
  h !! l = Some (ODask a) →
  da_copy l h = (Ok (fresh_loc h), <[fresh_loc h := ODask a]> h).
Proof.
  intros Hl. unfold da_copy. by rewrite (St_bind_ok _ _ _ _ _ (get_dask_eq _ _ _ Hl)).
Qed.

Lemma holds_lookup h p d m nv : holds h p d m nv → is_Some (h !! p).
Proof. intros (ld & lm & Hp & _). by eexists. Qed.

Lemma get_bands_errors_witness :
  ∃ e, get_bands 1%positive (Sequence [PInt 3]) example_heap = (Err e, example_heap)
       ∧ kind_of e = KIndexError.
Proof.
  destruct (get_bands_errors example_heap 1%positive example_data example_mask
              None example_heap_holds) as (_ & _ & _ & Hix).
  apply (Hix [3]); [done|]. left. right. simpl. lia.
Defined.

(** X28.  [to_quadrants] returns four new, distinct rasters over the
    north-west, north-east, south-west and south-east slices of the data
    and of the mask, with the null value of the input, and leaves the store
    it found as it was.  The four slices tile every band: put back side by
    side and one above the other they give the band, and on a band of
    [ny] rows and [nx] columns their shapes are the halves, the larger
    half to the south and to the east. *)
Theorem to_quadrants_tile (h : heap) (p : loc) (d m : darray)
    (null_value : option f64) :
  holds h p d m null_value →
  let ny := (da_shape d).1.2 in
  let nx := (da_shape d).2 in
  ∃ nw ne sw se h',
    to_quadrants p h = (Ok (nw, ne, sw, se), h')
    ∧ h ⊆ h'
    ∧ Forall (λ q, h !! q = None) [nw; ne; sw; se]
    ∧ NoDup [nw; ne; sw; se]
    ∧ holds h' nw (darray_quadrant ny nx NW d) (darray_quadrant ny nx NW m) null_value
    ∧ holds h' ne (darray_quadrant ny nx NE d) (darray_quadrant ny nx NE m) null_value
    ∧ holds h' sw (darray_quadrant ny nx SW d) (darray_quadrant ny nx SW m) null_value
    ∧ holds h' se (darray_quadrant ny nx SE d) (darray_quadrant ny nx SE m) null_value
    ∧ (∀ A (g : grid A),
         zip_with app (slice_quadrant ny nx NW g) (slice_quadrant ny nx NE g)
         ++ zip_with app (slice_quadrant ny nx SW g) (slice_quadrant ny nx SE g)
         = g)
    ∧ (∀ A (g : grid A), has_shape g ny nx →
         has_shape (slice_quadrant ny nx NW g) (ny / 2) (nx / 2)
         ∧ has_shape (slice_quadrant ny nx NE g) (ny / 2) (nx - nx / 2)
         ∧ has_shape (slice_quadrant ny nx SW g) (ny - ny / 2) (nx / 2)
         ∧ has_shape (slice_quadrant ny nx SE g) (ny - ny / 2) (nx - nx / 2)).
Proof.
  intros Hh ny nx. pose proof Hh as (ld & lm & Hp & Hd & Hm).
  set (l1 := fresh_loc h). set (h1 := <[l1 := ODask d]> h).
  set (l2 := fresh_loc h1). set (h2 := <[l2 := ODask m]> h1).
  assert (H01 : h ⊆ h1) by (apply insert_subseteq, fresh_loc_None).
  assert (H12 : h1 ⊆ h2) by (apply insert_subseteq, fresh_loc_None).
  assert (H02 : h ⊆ h2) by (by etrans).
  assert (Hm1 : h1 !! lm = Some (ODask m)) by (by apply (lookup_weaken h)).
  assert (Hl1 : h2 !! l1 = Some (ODask d)).
  { apply (lookup_weaken h1); [apply lookup_insert_eq|done]. }
  assert (Hl2 : h2 !! l2 = Some (ODask m)) by apply lookup_insert_eq.
  destruct (Raster_new_run h h2 (darray_quadrant ny nx NW d)
              (darray_quadrant ny nx NW m) null_value H02)
    as (nw & h3 & Hnw & H23 & Hnw0 & Hnw2 & Hhnw).
  assert (H03 : h ⊆ h3) by (by etrans).
  destruct (Raster_new_run h h3 (darray_quadrant ny nx NE d)
              (darray_quadrant ny nx NE m) null_value H03)
    as (ne & h4 & Hne & H34 & Hne0 & Hne3 & Hhne).
  assert (H04 : h ⊆ h4) by (by etrans).
  destruct (Raster_new_run h h4 (darray_quadrant ny nx SW d)
              (darray_quadrant ny nx SW m) null_value H04)
    as (sw & h5 & Hsw & H45 & Hsw0 & Hsw4 & Hhsw).
  assert (H05 : h ⊆ h5) by (by etrans).
  destruct (Raster_new_run h h5 (darray_quadrant ny nx SE d)
              (darray_quadrant ny nx SE m) null_value H05)
    as (se & h6 & Hse & H56 & Hse0 & Hse5 & Hhse).
  exists nw, ne, sw, se, h6.
  assert (Hin3 : is_Some (h3 !! nw)) by (by eapply holds_lookup).
  assert (Hin4 : is_Some (h4 !! ne)) by (by eapply holds_lookup).
  assert (Hin5 : is_Some (h5 !! sw)) by (by eapply holds_lookup).
  assert (Hkeep : ∀ (ha hb : heap) q, ha ⊆ hb → is_Some (ha !! q) → is_Some (hb !! q)).
  { intros ha hb q Hsub [o Ho]. exists o. by apply (lookup_weaken ha). }
  assert (Hdiff : ∀ (hx : heap) a b, is_Some (hx !! a) → hx !! b = None → a ≠ b).
  { intros hx a b [o Ho] Hb ->. congruence. }
  split; [|split; [|split; [|split; [|split; [|split; [|split; [|split; [|split]]]]]]]].
  - unfold to_quadrants.
    rewrite (St_bind_ok _ _ _ _ _ (get_raster_eq _ _ _ _ _ Hp)).
    rewrite (St_bind_ok _ _ _ _ _ (get_dask_eq _ _ _ Hd)).
    change (da_shape d) with ((da_shape d).1.1, ny, nx). cbv iota beta.
    rewrite (St_bind_ok _ _ _ _ _ (da_copy_eq _ _ _ Hd)). fold l1 h1.
    rewrite (St_bind_ok _ _ _ _ _ (da_copy_eq _ _ _ Hm1)). fold l2 h2.
    rewrite (St_bind_ok _ _ _ _ _ (get_dask_eq _ _ _ Hl1)).
    rewrite (St_bind_ok _ _ _ _ _ (get_dask_eq _ _ _ Hl2)).
    rewrite (St_bind_ok _ _ _ _ _ Hnw).
    rewrite (St_bind_ok _ _ _ _ _ Hne).
    rewrite (St_bind_ok _ _ _ _ _ Hsw).
    rewrite (St_bind_ok _ _ _ _ _ Hse).
    done.
  - by etrans; [exact H05|].
  - repeat constructor; done.
  - assert (nw ≠ ne) by eauto.
    assert (nw ≠ sw) by eauto.
    assert (nw ≠ se) by eauto 6.
    assert (ne ≠ sw) by eauto.
    assert (ne ≠ se) by eauto.
    assert (sw ≠ se) by eauto.
    repeat constructor; set_solver.
  - eapply holds_weaken; [|exact Hhnw]. etrans; [exact H34|]. by etrans.
  - eapply holds_weaken; [|exact Hhne]. by etrans.
  - eapply holds_weaken; [|exact Hhsw]. done.
  - done.
  - intros A g. cbn [slice_quadrant].
    by rewrite !zip_with_app_take_drop, take_drop.
  - intros A g [Hr Hc]. cbn [slice_quadrant].
    assert (ny / 2 ≤ ny)%nat by (apply Nat.Div0.div_le_upper_bound; lia).
    assert (nx / 2 ≤ nx)%nat by (apply Nat.Div0.div_le_upper_bound; lia).
    repeat split;
      rewrite ?length_fmap, ?length_take, ?length_drop; try lia;
      apply Forall_fmap;
      (eapply Forall_impl;
       [first [apply Forall_take, Hc | apply Forall_drop, Hc]|]);
      intros row Hrow; simpl in *;
      rewrite ?length_take, ?length_drop; lia.
Qed.

Lemma to_quadrants_tile_witness :
  ∃ nw ne sw se h',
    to_quadrants 1%positive example_heap = (Ok (nw, ne, sw, se), h')
    ∧ example_heap ⊆ h'
    ∧ NoDup [nw; ne; sw; se]
    ∧ holds h' nw (darray_quadrant 2 2 NW example_data)
            (darray_quadrant 2 2 NW example_mask) None.
Proof.
  destruct (to_quadrants_tile example_heap 1%positive example_data example_mask
              None example_heap_holds)
    as (nw & ne & sw & se & h' & Hrun & Hsub & _ & Hnd & Hnw & _).
  exists nw, ne, sw, se, h'. split; [exact Hrun|]. split; [exact Hsub|].
  split; [exact Hnd|exact Hnw].
Defined.

(** *** The mask burnt into the data *)

Section burn_mask_run.
Variable get_default_null_value : dtype → f64.
Variable np_where_dtype : f64 → dtype → dtype.

Lemma lookup3_fill_where m nv a b i j :
  lookup3 (fill_where np_where_dtype m nv a) b i j
  = (v ← lookup3 a b i j; mv ← lookup3 m b i j;
     Some (if truthy mv then nv else v)).
Proof.
  unfold lookup3, fill_where, lookup2. cbn [da_bands].
  rewrite lookup_zip_with.
  destruct (da_bands a !! b) as [ga|]; [|done]. cbn [mbind option_bind].
  destruct (da_bands m !! b) as [gm|]; cbn [mbind option_bind].
  - rewrite lookup_zip_with.
    destruct (ga !! i) as [ra|]; [|done]. cbn [mbind option_bind].
    destruct (gm !! i) as [rm|]; cbn [mbind option_bind].
    + rewrite lookup_zip_with. done.
    + by destruct (ra !! j).
  - destruct (ga !! i) as [ra|]; [|done]. cbn [mbind option_bind].
    by destruct (ra !! j).
Qed.

Lemma zip_with_fill_idemp {A B} (f : A → B → A) (l : list A) (k : list B) :
  (∀ a b, f (f a b) b = f a b) →
  zip_with f (zip_with f l k) k = zip_with f l k.
Proof.
  intros Hf. revert k. induction l as [|a l IH]; intros [|b k]; try done.
  simpl. by rewrite Hf, IH.
Qed.

Lemma fill_where_bands_idemp m nv a nv' :
  nv' = nv →
  da_bands (fill_where np_where_dtype m nv' (fill_where np_where_dtype m nv a))
  = da_bands (fill_where np_where_dtype m nv a).
Proof.
  intros ->. unfold fill_where. cbn [da_bands].
  apply zip_with_fill_idemp. intros ga gm.
  apply zip_with_fill_idemp. intros ra rm.
  apply zip_with_fill_idemp. intros v mv. by destruct (truthy mv).
Qed.

Lemma burn_mask_run (h : heap) (p : loc) (d m : darray) (v : f64) :
  holds h p d m (Some v) →
  ∃ q h',
    burn_mask get_default_null_value np_where_dtype p h = (Ok q, h')
    ∧ h ⊆ h' ∧ h !! q = None
    ∧ holds h' q (fill_where np_where_dtype m
                    (burn_value get_default_null_value (da_dtype d) v) d)
            m (Some v).
Proof.
  intros Hh. pose proof Hh as (ld & lm & Hp & Hd & Hm).
  destruct (Raster_copy_run h p d m (Some v) Hh)
    as (q & data' & mask' & h1 & Hcopy & H01 & Hq0 & Hd0 & Hm0 & Hne1 & Hne2 & Hne3
        & Hq1 & Hd1 & Hm1).
  assert (Hp1 : h1 !! p = Some (ORaster ld lm (Some v))) by (by apply (lookup_weaken h)).
  assert (Hld1 : h1 !! ld = Some (ODask d)) by (by apply (lookup_weaken h)).
  assert (Hlm1 : h1 !! lm = Some (ODask m)) by (by apply (lookup_weaken h)).
  set (l3 := fresh_loc h1).
  set (h3 := <[l3 := ODask (fill_where np_where_dtype m
                             (burn_value get_default_null_value (da_dtype d) v) d)]> h1).
  assert (Hl3q : l3 ≠ q) by (apply not_eq_sym; exact (lookup_fresh_ne h1 q _ Hq1)).
  assert (Hl3m : l3 ≠ mask') by (apply not_eq_sym; exact (lookup_fresh_ne h1 mask' _ Hm1)).
  assert (Hq3 : h3 !! q = Some (ORaster data' mask' (Some v)))
    by (unfold h3; by rewrite lookup_insert_ne).
  exists q, (<[q := ORaster l3 mask' (Some v)]> h3).
  split; [|split; [|split; [done|]]].
  - unfold burn_mask.
    rewrite (St_bind_ok _ _ _ _ _ (Raster_masked_eq _ _ _ _ _ Hp)).
    rewrite bool_decide_eq_true_2 by (by eexists). cbn [negb].
    unfold Raster_null_value at 1.
    rewrite St_bind_unfold, (St_bind_ok _ _ _ _ _ (get_raster_eq _ _ _ _ _ Hp)).
    rewrite St_ret_unfold.
    rewrite (St_bind_ok _ _ _ _ _ (Raster_dtype_eq _ _ _ _ _ _ Hp Hd)).
    rewrite (St_bind_ok _ _ _ _ _ Hcopy).
    rewrite (St_bind_ok _ _ _ _ _ (Raster_mask_eq _ _ _ _ _ Hp1)).
    rewrite (St_bind_ok _ _ _ _ _ (Raster_data_eq _ _ _ _ _ Hp1)).
    unfold da_fill_where at 1.
    rewrite St_bind_unfold.
    rewrite (St_bind_ok _ _ _ _ _ (get_dask_eq _ _ _ Hlm1)).
    rewrite (St_bind_ok _ _ _ _ _ (get_dask_eq _ _ _ Hld1)).
    unfold alloc at 1. fold l3. cbn [default]. fold (burn_value get_default_null_value (da_dtype d) v). fold h3.
    rewrite (St_bind_ok _ _ _ _ _ (Raster_set_data_eq _ _ _ _ _ _ Hq3)).
    done.
  - apply insert_subseteq_r; [done|]. etrans; [exact H01|].
    apply insert_subseteq, fresh_loc_None.
  - exists l3, mask'. split; [apply lookup_insert_eq|]. split.
    + rewrite lookup_insert_ne by done. apply lookup_insert_eq.
    + rewrite lookup_insert_ne by done. unfold h3. by rewrite lookup_insert_ne.
Qed.

(** X29.  [burn_mask] returns a new raster with the mask and the null
    value of the input and leaves the store it found as it was.  On a
    raster with a null value every masked cell of the new data holds the
    fill value (the null value, or the default null value of the dtype for
    boolean data) and every other cell its old value; on a raster without
    one the data is a copy. *)
Theorem burn_mask_fills (h : heap) (p : loc) (d m : darray)
    (null_value : option f64) :
  holds h p d m null_value →
  ∃ q h' out,
    burn_mask get_default_null_value np_where_dtype p h = (Ok q, h')
    ∧ h ⊆ h' ∧ h !! q = None
    ∧ holds h' q out m null_value
    ∧ ∀ b i j x mv,
        lookup3 d b i j = Some x → lookup3 m b i j = Some mv →
        lookup3 out b i j
        = Some match null_value with
               | Some v =>
                   if truthy mv
                   then burn_value get_default_null_value (da_dtype d) v
                   else x
               | None => x
               end.
Proof.
  intros Hh. destruct null_value as [v|].
  - destruct (burn_mask_run h p d m v Hh) as (q & h' & Hrun & Hsub & Hq & Hholds).
    eexists q, h', _. split; [exact Hrun|]. split; [done|]. split; [done|].
    split; [exact Hholds|].
    intros b i j x mv Hx Hmv. by rewrite lookup3_fill_where, Hx, Hmv.
  - pose proof Hh as (ld & lm & Hp & Hd & Hm).
    destruct (Raster_copy_run h p d m None Hh)
      as (q & data' & mask' & h1 & Hcopy & H01 & Hq0 & _ & _ & _ & _ & _
          & Hq1 & Hd1 & Hm1).
    exists q, h1, d. split; [|split; [done|split; [done|split]]].
    + unfold burn_mask.
      by rewrite (St_bind_ok _ _ _ _ _ (Raster_masked_eq _ _ _ _ _ Hp)).
    + by exists data', mask'.
    + by intros b i j x mv Hx _.
Qed.

(** X30.  Burning the mask twice is burning it once: when the fill value
    fits the dtype of the data (so that [da.where] keeps it), [burn_mask]
    on the raster [burn_mask] returned gives a raster that holds the same
    data, mask and null value. *)
Theorem burn_mask_idempotent (h : heap) (p : loc) (d m : darray) (v : f64) :
  holds h p d m (Some v) →
  np_where_dtype (burn_value get_default_null_value (da_dtype d) v) (da_dtype d)
  = da_dtype d →
  ∃ q1 h1 q2 h2 out,
    burn_mask get_default_null_value np_where_dtype p h = (Ok q1, h1)
    ∧ burn_mask get_default_null_value np_where_dtype q1 h1 = (Ok q2, h2)
    ∧ h ⊆ h2
    ∧ holds h1 q1 out m (Some v)
    ∧ holds h2 q2 out m (Some v).
Proof.
  intros Hh Hfit.
  set (nv := burn_value get_default_null_value (da_dtype d) v) in *.
  set (out := fill_where np_where_dtype m nv d).
  assert (Hdt : da_dtype out = da_dtype d) by exact Hfit.
  assert (Hout : fill_where np_where_dtype m nv out = out).
  { assert (Hext : ∀ a b : darray,
              da_dtype a = da_dtype b → da_bands a = da_bands b → a = b)
      by (intros [] []; simpl; congruence).
    apply Hext.
    - change (np_where_dtype nv (da_dtype out) = da_dtype out).
      rewrite Hdt. exact Hfit.
    - exact (fill_where_bands_idemp m nv d nv eq_refl). }
  destruct (burn_mask_run h p d m v Hh)
    as (q1 & h1 & Hrun1 & Hsub1 & _ & Hholds1).
  fold nv out in Hholds1.
  destruct (burn_mask_run h1 q1 out m v Hholds1)
    as (q2 & h2 & Hrun2 & Hsub2 & _ & Hholds2).
  rewrite Hdt in Hholds2. fold nv in Hholds2. rewrite Hout in Hholds2.
  exists q1, h1, q2, h2, out. split; [exact Hrun1|]. split; [exact Hrun2|].
  split; [by etrans|]. split; [exact Hholds1|exact Hholds2].
Qed.
End burn_mask_run.

Lemma burn_mask_fills_witness :
  ∃ q h' out,
    burn_mask (λ _, Fin 1%Qc) (λ _ dt, dt) 1%positive example_masked_heap
    = (Ok q, h')
    ∧ example_masked_heap ⊆ h'
    ∧ holds h' q out example_masked_mask (Some (f64_of_Z (-1)))
    ∧ lookup3 out 0 0 0 = Some (f64_of_Z (-1)).
Proof.
  destruct (burn_mask_fills (λ _, Fin 1%Qc) (λ _ dt, dt) example_masked_heap
              1%positive example_masked_data example_masked_mask
              (Some (f64_of_Z (-1))) example_masked_heap_holds)
    as (q & h' & out & Hrun & Hsub & _ & Hq & Hc).
  exists q, h', out. split; [exact Hrun|]. split; [exact Hsub|].
  split; [exact Hq|].
  exact (Hc 0%nat 0%nat 0%nat (f64_of_Z (-1)) (f64_of_Z 1) eq_refl eq_refl).
Defined.

Lemma burn_mask_idempotent_witness :
  ∃ q1 h1 q2 h2 out,
    burn_mask (λ _, Fin 1%Qc) (λ _ dt, dt) 1%positive example_masked_heap
    = (Ok q1, h1)
    ∧ burn_mask (λ _, Fin 1%Qc) (λ _ dt, dt) q1 h1 = (Ok q2, h2)
    ∧ holds h1 q1 out example_masked_mask (Some (f64_of_Z (-1)))
    ∧ holds h2 q2 out example_masked_mask (Some (f64_of_Z (-1))).
Proof.
  destruct (burn_mask_idempotent (λ _, Fin 1%Qc) (λ _ dt, dt) example_masked_heap
              1%positive example_masked_data example_masked_mask
              (f64_of_Z (-1)) example_masked_heap_holds eq_refl)
    as (q1 & h1 & q2 & h2 & out & Hr1 & Hr2 & _ & Hh1 & Hh2).
  exists q1, h1, q2, h2, out. split; [exact Hr1|]. split; [exact Hr2|].
  split; [exact Hh1|exact Hh2].
Defined.
